(** * Collapsible: a navbar that folds its trailing items into a dropdown

    A shallow embedding of [dist/collapsible.js] (class [Collapsible]) and
    the properties its specification states about it.

    The class talks to a browser: it queries the document, reads layout
    widths and edits [classList]s.  The embedding therefore carries a small
    model of that host:

    - elements are object identities ([node]); their attributes live in
      finite maps keyed by identity, so that editing the class list of an
      element held in a static [NodeList] is seen by every later query;
    - the tree structure is a forest of [dom] trees (the document and the
      subtrees that are not attached yet);
    - a method is a computation [M A] over the host state that either
      returns or throws, and keeps the mutations done before a throw;
    - JavaScript numbers are kept abstract ([JSNumber]): the scan of
      [getAmountOfItemsToCollapse] only adds, subtracts and compares, so
      its control flow is proved once for every number model.  Two models
      are given: exact integer layout units ([Z]) and IEEE binary64
      ([float]), the latter being what a JavaScript engine computes.
      Where a property rests on the order of numbers, it is proved from
      the laws of [JSOrder], which both models have: for binary64 this is
      shown from the rounding of the standard library's [SpecFloat]. *)

From Stdlib Require Import ZArith Ascii String Floats.
From stdpp Require Import gmap strings list.

Local Open Scope Z_scope.
Local Open Scope string_scope.
Local Open Scope list_scope.

(** ** Numbers *)

(** What the class does with numbers: the literal [0], [+=], [-] and [<].
    The one law used is that [<] is irreflexive, which holds of the
    integers and of binary64 alike (also at NaN and the infinities). *)
Class JSNumber (num : Type) := {
  num_zero : num;
  num_add : num → num → num;
  num_sub : num → num → num;
  num_ltb : num → num → bool;
  num_ltb_irrefl : ∀ x, num_ltb x x = false
}.

#[export] Instance Z_JSNumber : JSNumber Z := {|
  num_zero := 0;
  num_add := Z.add;
  num_sub := Z.sub;
  num_ltb := Z.ltb;
  num_ltb_irrefl := Z.ltb_irrefl
|}.

Lemma float_ltb_irrefl (x : float) : PrimFloat.ltb x x = false.
Proof.
  rewrite ltb_spec. unfold SFltb.
  destruct (Prim2SF x) as [s | | | s m e]; simpl; try reflexivity.
  - destruct s; reflexivity.
  - destruct s; simpl; rewrite Z.compare_refl, ?Pos.compare_refl; simpl;
      rewrite ?Pos.compare_cont_refl; reflexivity.
Qed.

#[export] Instance float_JSNumber : JSNumber float := {|
  num_zero := 0%float;
  num_add := PrimFloat.add;
  num_sub := PrimFloat.sub;
  num_ltb := PrimFloat.ltb;
  num_ltb_irrefl := float_ltb_irrefl
|}.

(** What the count needs of the order of numbers where a page narrows or
    widths add up: [<=] beside [<], and that subtraction and addition go
    along with them.  The integers have these laws.  That binary64 has
    them too, with its rounding, its infinities and NaN, is proved below
    ([float_JSOrder]). *)
Class JSOrder (num : Type) `{JSNumber num} := {
  num_leb : num → num → bool;
  num_ltb_leb_trans :
    ∀ a b c, num_ltb a b = true → num_leb b c = true → num_ltb a c = true;
  num_sub_zero : ∀ p, num_sub p num_zero = p;
  num_sub_le_l :
    ∀ p p' b t,
      num_leb p' p = true →
      num_ltb (num_sub p b) t = true → num_ltb (num_sub p' b) t = true;
  num_sub_add_nonneg :
    ∀ p b w t,
      num_leb num_zero w = true →
      num_ltb (num_sub p b) t = true → num_ltb (num_sub p (num_add b w)) t = true
}.

Lemma Z_ltb_leb_trans (a b c : Z) :
  (a <? b)%Z = true → (b <=? c)%Z = true → (a <? c)%Z = true.
Proof. rewrite !Z.ltb_lt, Z.leb_le. lia. Qed.

Lemma Z_sub_le_l (p p' b t : Z) :
  (p' <=? p)%Z = true → (p - b <? t)%Z = true → (p' - b <? t)%Z = true.
Proof. rewrite !Z.ltb_lt, Z.leb_le. lia. Qed.

Lemma Z_sub_add_nonneg (p b w t : Z) :
  (0 <=? w)%Z = true → (p - b <? t)%Z = true → (p - (b + w) <? t)%Z = true.
Proof. rewrite !Z.ltb_lt, Z.leb_le. lia. Qed.

#[export] Instance Z_JSOrder : JSOrder Z := {|
  num_leb := Z.leb;
  num_ltb_leb_trans := Z_ltb_leb_trans;
  num_sub_zero := Z.sub_0_r;
  num_sub_le_l := Z_sub_le_l;
  num_sub_add_nonneg := Z_sub_add_nonneg
|}.

(** ** Binary64, by value *)

(** The operations of binary64 are those of the standard library
    ([SpecFloat]): a sum or a difference is the exact one, rounded to
    nearest with ties to even.  To compare what rounding gives, finite
    floats are read as integers in units of [2^-1074], the least
    binary64 step. *)

Section Binary64Values.
Local Open Scope Z_scope.

(** Round to nearest, ties to even, of [m / 2^k]. *)
Definition RNE (m k : Z) : Z :=
  let q := m / 2 ^ k in
  match 2 * (m mod 2 ^ k) ?= 2 ^ k with
  | Lt => q
  | Eq => if Z.even q then q else q + 1
  | Gt => q + 1
  end.

(** The record [shr] holds once [m] has lost its [k] low bits. *)
Definition shr_state (m k : Z) : shr_record :=
  {| shr_m := m / 2 ^ k;
     shr_r := Z.odd (m / 2 ^ (k - 1));
     shr_s := negb (m mod 2 ^ (k - 1) =? 0) |}.

(** The number of binary digits of a positive number. *)
Definition digits (v : Z) : Z := Z.log2 v + 1.

(** The last steps of [binary_round_aux]: the mantissa that rounding
    produced is shifted once more if it outgrew the precision, and the
    result overflows to an infinity past the largest exponent. *)
Definition finish (s : bool) (M E : Z) : spec_float :=
  let '(mrs, e) := shr_fexp prec emax M E loc_Exact in
  match shr_m mrs with
  | Z0 => S754_zero s
  | Zpos m => if e <=? emax - prec then S754_finite s m e else S754_infinity s
  | Zneg _ => S754_nan
  end.

(** The shift that takes a number to 53 digits, and no further down than
    the least exponent. *)
Definition shift_of (V : Z) : Z := Z.max (digits V - 53) 0.

(** [binary_round] on the number [V * 2^-1074]. *)
Definition rounded (s : bool) (V : Z) : spec_float :=
  finish s (RNE V (shift_of V)) (shift_of V - 1074).

(** The mantissa and the exponent [binary_round] arrives at. *)
Definition mantissa_of (V : Z) : Z :=
  if RNE V (shift_of V) =? 2 ^ 53 then 2 ^ 52 else RNE V (shift_of V).

Definition exponent_of (V : Z) : Z :=
  if RNE V (shift_of V) =? 2 ^ 53 then shift_of V + 1 - 1074 else shift_of V - 1074.

(** [binary_normalize] on the number [v * 2^-1074]. *)
Definition normalized (v : Z) : spec_float :=
  if v =? 0 then S754_zero false
  else if 0 <? v then rounded false v else rounded true (- v).

(** The number a zero or a finite float stands for, in units of
    [2^-1074]. *)
Definition value_of (x : spec_float) : Z :=
  match x with
  | S754_finite s m e => cond_Zopp s (Zpos m) * 2 ^ (e + 1074)
  | _ => 0
  end.

(** Zero or finite. *)
Definition is_finite (x : spec_float) : bool :=
  match x with
  | S754_zero _ | S754_finite _ _ _ => true
  | _ => false
  end.

(** The same float, a zero taken for [+0]. *)
Definition plus_zero (x : spec_float) : spec_float :=
  match x with
  | S754_zero _ => S754_zero false
  | _ => x
  end.

(** A number above every finite binary64 value, in units of [2^-1074]:
    it stands for the infinities. *)
Definition Omega : Z := 2 ^ 2200.

(** The place of a float that is not NaN in the order of the floats. *)
Definition key (x : spec_float) : Z :=
  match x with
  | S754_zero _ => 0
  | S754_infinity s => cond_Zopp s Omega
  | S754_nan => 0
  | S754_finite _ _ _ => value_of x
  end.

Definition is_nan (x : spec_float) : bool :=
  match x with S754_nan => true | _ => false end.

(** The size of [rounded s V]. *)
Definition magnitude (V : Z) : Z :=
  if exponent_of V <=? 971 then mantissa_of V * 2 ^ (exponent_of V + 1074) else Omega.

(** Rounding on keys: past the finite range lie the infinities. *)
Definition key_round (v : Z) : Z :=
  if 2 ^ 2150 <=? v then Omega
  else if v <=? - 2 ^ 2150 then - Omega
  else key (normalized v).

(** Two infinities that cancel. *)
Definition cancels (k1 k2 : Z) : bool :=
  (k1 =? k2) && ((k1 =? Omega) || (k1 =? - Omega)).

(** The key of a binary64 number, and whether it is NaN. *)
Definition fkey (a : float) : Z := key (Prim2SF a).
Definition fnan (a : float) : bool := is_nan (Prim2SF a).

End Binary64Values.

(** ** The host document *)

(** An element, by identity. *)
Abbreviation node := nat.

(** The shape of a subtree: an element and its children, in document
    order. *)
#[warnings="-register-all"]
Inductive dom := El (id : node) (kids : list dom).

Definition root (t : dom) : node := match t with El id _ => id end.
Definition kids (t : dom) : list dom := match t with El _ ks => ks end.

(** The elements of a subtree in document order (pre-order), root first. *)
Fixpoint preorder (t : dom) : list node :=
  match t with El id ks => id :: flat_map preorder ks end.

(** The subtree rooted at element [n], if [n] occurs in [t]. *)
Fixpoint subtree (n : node) (t : dom) : option dom :=
  match t with
  | El id ks =>
      if decide (id = n) then Some t
      else (fix first (l : list dom) : option dom :=
              match l with
              | [] => None
              | k :: l' =>
                  match subtree n k with
                  | Some r => Some r
                  | None => first l'
                  end
              end) ks
  end.

(** The element whose child list holds [n]. *)
Fixpoint parent_in (n : node) (t : dom) : option node :=
  match t with
  | El id ks =>
      if bool_decide (n ∈ map root ks) then Some id
      else (fix first (l : list dom) : option node :=
              match l with
              | [] => None
              | k :: l' =>
                  match parent_in n k with
                  | Some p => Some p
                  | None => first l'
                  end
              end) ks
  end.

(** [t] without the subtree rooted at [n] (when [n] is not [t]'s root). *)
Fixpoint prune (n : node) (t : dom) : dom :=
  match t with
  | El id ks => El id (filter (λ k, root k ≠ n) (map (prune n) ks))
  end.

(** [t] with [c] added as the last child of element [p]. *)
Fixpoint graft (p : node) (c : dom) (t : dom) : dom :=
  match t with
  | El id ks =>
      let ks' := map (graft p c) ks in
      El id (if decide (id = p) then ks' ++ [c] else ks')
  end.

(** A deep copy of [t] whose elements are numbered from [next] on, in
    document order; with the copy come the next free identity and, for
    every copied element, the pair (original, copy). *)
Fixpoint copy (next : node) (t : dom) : node * dom * list (node * node) :=
  match t with
  | El id ks =>
      let '(next', ks', pairs) :=
        (fix each (n : node) (l : list dom) : node * list dom * list (node * node) :=
           match l with
           | [] => (n, [], [])
           | k :: l' =>
               let '(n1, k', p1) := copy n k in
               let '(n2, l'', p2) := each n1 l' in
               (n2, k' :: l'', p1 ++ p2)
           end) (S next) ks in
      (next', El next ks', (id, next) :: pairs)
  end.

(** What a click listener registered by the class does when it runs. *)
Inductive listener :=
  | ToggleOpen (dropdown : node).
      (* ev => { ev.preventDefault(); dropdown.classList.toggle('open') } *)

(** An instance of the class: the four fields its constructor sets. *)
Record Collapsible (num : Type) := {
  container : node;
  threshold : num;
  items : list node;             (* static NodeList, in document order *)
  itemsDimensions : list num
}.
Arguments container {num} _.
Arguments threshold {num} _.
Arguments items {num} _.
Arguments itemsDimensions {num} _.

(** The host state. *)
Record state (num : Type) := {
  forest : list dom;             (* the document tree, then detached subtrees *)
  documentElement : node;        (* the root element of the document *)
  tagName : gmap node string;
  idAttr : gmap node string;     (* the id attribute, where set *)
  classList : gmap node (list string);   (* DOMTokenList: ordered, no repeats *)
  fresh : node;                  (* the next unused identity *)
  rectWidth : gmap node num;     (* getBoundingClientRect().width, from layout *)
  bodyWidth : num;               (* document.body.offsetWidth *)
  listeners : list (node * string * listener);
  sensors : list (option node * Collapsible num)   (* live ResizeSensors *)
}.
Arguments forest {num} _.
Arguments documentElement {num} _.
Arguments tagName {num} _.
Arguments idAttr {num} _.
Arguments classList {num} _.
Arguments fresh {num} _.
Arguments rectWidth {num} _.
Arguments bodyWidth {num} _.
Arguments listeners {num} _.
Arguments sensors {num} _.

(** What a method can throw. *)
Inductive exn :=
  | Error (message : string)     (* throw new Error(message) *)
  | TypeError.                   (* a property read on null or undefined *)

(** The double quote character, as a one-character string. *)
Definition dquote : string := String "034"%char EmptyString.

(** ** Computations over the host state *)

(** A method runs from a host state and ends by returning a value or by
    throwing; either way the state it leaves holds every mutation made up
    to that point. *)
Definition M (num A : Type) : Type := state num → (exn + A) * state num.

Definition ret {num A} (a : A) : M num A := λ s, (inr a, s).

Definition throw {num A} (e : exn) : M num A := λ s, (inl e, s).

Definition bind {num A B} (c : M num A) (k : A → M num B) : M num B :=
  λ s, match c s with
       | (inr a, s') => k a s'
       | (inl e, s') => (inl e, s')
       end.

Definition gets {num A} (f : state num → A) : M num A := λ s, (inr (f s), s).

Definition modify {num} (f : state num → state num) : M num unit :=
  λ s, (inr tt, f s).

Declare Scope js_scope.
Delimit Scope js_scope with js.
Notation "x <- c ;; k" := (bind c (λ x, k))
  (at level 100, c at next level, right associativity) : js_scope.
Notation "c ;; k" := (bind c (λ _, k))
  (at level 100, right associativity) : js_scope.
Local Open Scope js_scope.

(** [list.forEach((x, index) => body)], from [index] on. *)
Fixpoint forEach {num A} (body : A → nat → M num unit) (l : list A)
    (index : nat) : M num unit :=
  match l with
  | [] => ret tt
  | x :: l' => body x index ;; forEach body l' (S index)
  end.

(** [for (let i = start; ...; i++) body], run [n] times. *)
Fixpoint for_loop {num} (n : nat) (i : Z) (body : Z → M num unit) : M num unit :=
  match n with
  | O => ret tt
  | S n' => body i ;; for_loop n' (i + 1) body
  end.

(** [a[i]] for an integer [i]: [undefined] outside the bounds. *)
Definition at_index {A} (l : list A) (i : Z) : option A :=
  if (0 <=? i)%Z then l !! Z.to_nat i else None.

(** *** Class lists *)

Definition token_add (c : string) (cl : list string) : list string :=
  if bool_decide (c ∈ cl) then cl else cl ++ [c].

Definition token_remove (c : string) (cl : list string) : list string :=
  filter (λ x, x ≠ c) cl.

Definition token_toggle (c : string) (cl : list string) : list string :=
  if bool_decide (c ∈ cl) then token_remove c cl else cl ++ [c].

Section Host.
Context {num : Type}.

Definition classes_of (s : state num) (n : node) : list string :=
  default [] (classList s !! n).

Definition contains (s : state num) (n : node) (c : string) : bool :=
  bool_decide (c ∈ classes_of s n).

(** An element is shown unless it carries the class [hide]. *)
Definition hidden (s : state num) (n : node) : bool := contains s n "hide".
Definition visible (s : state num) (n : node) : bool := negb (hidden s n).

Definition set_classes (n : node) (cl : list string) (s : state num) : state num :=
  {| forest := forest s; documentElement := documentElement s;
     tagName := tagName s; idAttr := idAttr s;
     classList := <[n := cl]> (classList s);
     fresh := fresh s; rectWidth := rectWidth s; bodyWidth := bodyWidth s;
     listeners := listeners s; sensors := sensors s |}.

(** [n.classList.add(c1, c2, ...)] *)
Definition classList_add (n : node) (cs : list string) : M num unit :=
  modify (λ s, set_classes n (foldl (λ cl c, token_add c cl) (classes_of s n) cs) s).

(** [n.classList.remove(c)] *)
Definition classList_remove (n : node) (c : string) : M num unit :=
  modify (λ s, set_classes n (token_remove c (classes_of s n)) s).

(** [n.classList.toggle(c)] *)
Definition classList_toggle (n : node) (c : string) : M num unit :=
  modify (λ s, set_classes n (token_toggle c (classes_of s n)) s).

(** *** Selectors *)

(** The simple selectors: [.class], [#id] and a tag name. *)
Definition matches (s : state num) (selector : string) (n : node) : bool :=
  match selector with
  | String "."%char c => bool_decide (c ∈ classes_of s n)
  | String "#"%char i => bool_decide (idAttr s !! n = Some i)
  | tag => bool_decide (tagName s !! n = Some tag)
  end.

(** The subtree of the forest rooted at [n]. *)
Definition subtree_of (s : state num) (n : node) : option dom :=
  list_find (λ o, is_Some o) (map (subtree n) (forest s)) ≫= snd.

(** The descendants of [n], in document order. *)
Definition descendants (s : state num) (n : node) : list node :=
  match subtree_of s n with
  | Some t => flat_map preorder (kids t)
  | None => []
  end.

(** The descendants of [n] that match [selector], in document order. *)
Definition select_all (s : state num) (n : node) (selector : string) : list node :=
  filter (λ d, matches s selector d = true) (descendants s n).

(** The first element of the document that matches [selector]; the root
    element counts too. *)
Definition locate (s : state num) (selector : string) : option node :=
  head (filter (λ d, matches s selector d = true)
          (documentElement s :: descendants s (documentElement s))).

(** [n.querySelectorAll(selector)]: a static list. *)
Definition querySelectorAll (n : node) (selector : string) : M num (list node) :=
  gets (λ s, select_all s n selector).

(** [n.querySelector(selector)]: the first match, or [null]. *)
Definition querySelector (n : node) (selector : string) : M num (option node) :=
  gets (λ s, head (select_all s n selector)).

(** [document.querySelector(selector)] *)
Definition document_querySelector (selector : string) : M num (option node) :=
  gets (λ s, locate s selector).

(** The parent of [n] in the forest. *)
Definition parent_of (s : state num) (n : node) : option node :=
  list_find (λ o, is_Some o) (map (parent_in n) (forest s)) ≫= snd.

(** [n.parentElement], or [null]. *)
Definition parentElement (n : node) : M num (option node) :=
  gets (λ s, parent_of s n).

(** *** Building the tree *)

(** [document.createElement(tag)]: a new element, attached nowhere. *)
Definition createElement (tag : string) : M num node :=
  λ s, (inr (fresh s),
        {| forest := forest s ++ [El (fresh s) []];
           documentElement := documentElement s;
           tagName := <[fresh s := tag]> (tagName s); idAttr := idAttr s;
           classList := classList s;
           fresh := S (fresh s); rectWidth := rectWidth s;
           bodyWidth := bodyWidth s;
           listeners := listeners s; sensors := sensors s |}).

(** The attributes of the original, given to the copy. *)
Definition copy_attr {V} (pairs : list (node * node)) (m : gmap node V) : gmap node V :=
  foldl (λ acc '(old, new),
           match m !! old with Some v => <[new := v]> acc | None => acc end)
        m pairs.

(** [n.cloneNode(true)]: a deep copy with the attributes of the original
    (tag, id, classes) and no listeners, attached nowhere. *)
Definition cloneNode (n : node) : M num node :=
  λ s, let t := default (El n []) (subtree_of s n) in
       let '(next, t', pairs) := copy (fresh s) t in
       (inr (fresh s),
        {| forest := forest s ++ [t'];
           documentElement := documentElement s;
           tagName := copy_attr pairs (tagName s);
           idAttr := copy_attr pairs (idAttr s);
           classList := copy_attr pairs (classList s);
           fresh := next; rectWidth := rectWidth s; bodyWidth := bodyWidth s;
           listeners := listeners s; sensors := sensors s |}).

(** [p.append(c)]: [c] leaves the place it had and becomes the last
    child of [p]. *)
Definition append (p c : node) : M num unit :=
  modify (λ s,
    let t := default (El c []) (subtree_of s c) in
    let rest := filter (λ r, root r ≠ c) (map (prune c) (forest s)) in
    {| forest := map (graft p t) rest;
       documentElement := documentElement s;
       tagName := tagName s; idAttr := idAttr s; classList := classList s;
       fresh := fresh s; rectWidth := rectWidth s; bodyWidth := bodyWidth s;
       listeners := listeners s; sensors := sensors s |}).

(** [n.addEventListener(type, f)] *)
Definition addEventListener (n : node) (type : string) (f : listener) : M num unit :=
  modify (λ s,
    {| forest := forest s; documentElement := documentElement s;
       tagName := tagName s; idAttr := idAttr s; classList := classList s;
       fresh := fresh s; rectWidth := rectWidth s; bodyWidth := bodyWidth s;
       listeners := listeners s ++ [(n, type, f)]; sensors := sensors s |}).

(** Modelled from the spec: [ResizeSensor] is an external collaborator of
    which the class needs one capability, observe(element, callback): the
    callback runs, with no argument, whenever the box of the observed
    element changes.  [new ResizeSensor(element, callback)] records the
    observation; the callback [this.collapse.bind(this)] is kept as the
    instance it is bound to. *)
Definition new_ResizeSensor (element : option node) (this : Collapsible num) : M num unit :=
  modify (λ s,
    {| forest := forest s; documentElement := documentElement s;
       tagName := tagName s; idAttr := idAttr s; classList := classList s;
       fresh := fresh s; rectWidth := rectWidth s; bodyWidth := bodyWidth s;
       listeners := listeners s; sensors := sensors s ++ [(element, this)] |}).

(** [n.getBoundingClientRect().width] *)
Definition getBoundingClientRect_width `{JSNumber num} (n : node) : M num num :=
  gets (λ s, default num_zero (rectWidth s !! n)).

End Host.

(** ** The class *)

Section Class.
Context {num : Type} `{JSNumber num}.

(** [x.p] where [x] may be [null] or [undefined]. *)
Definition deref {A} (x : option A) : M num A :=
  match x with
  | Some a => ret a
  | None => throw TypeError
  end.

(** [queryContainer(selector)] *)
Definition queryContainer (selector : string) : M num node :=
  container <- document_querySelector selector ;;
  match container with
  | None =>
      throw (Error ("Collapsible: No element find using " +:+ dquote
                      +:+ selector +:+ dquote +:+ " selector"))
  | Some c => ret c
  end.

(** The loop of [getItemsDimensions()], with the items still to measure
    and the array built so far. *)
Fixpoint getItemsDimensions_from (pending : list node) (dimensions : list num)
    : M num (list num) :=
  match pending with
  | [] => ret dimensions
  | item :: rest =>
      width <- getBoundingClientRect_width item ;;
      getItemsDimensions_from rest (dimensions ++ [width])
  end.

(** [getItemsDimensions()], reading [this.items]. *)
Definition getItemsDimensions (this_items : list node) : M num (list num) :=
  getItemsDimensions_from this_items [].

(** [new Collapsible(selector, threshold)] *)
Definition constructor (selector : string) (threshold : num) : M num (Collapsible num) :=
  container <- queryContainer selector ;;
  items <- querySelectorAll container "li" ;;
  itemsDimensions <- getItemsDimensions items ;;
  ret {| container := container; threshold := threshold;
         items := items; itemsDimensions := itemsDimensions |}.

(** The loop of [getAmountOfItemsToCollapse()]: [pending] are the items
    from index [i] on, [amount] and [width] the two fields of
    [renderable]; the result is the final [renderable.amount].

    Where [itemsDimensions] has no entry at [i], [itemWidth] is
    [undefined], the sum becomes NaN and stays so, and no comparison with
    NaN holds: the loop runs to the end and counts every pending item.
    (An instance made by [constructor] has one width per item.) *)
Fixpoint scan (pageWidth threshold : num) (dimensions : list num)
    (pending : list node) (i amount : nat) (width : num) : nat :=
  match pending with
  | [] => amount
  | _ :: rest =>
      match dimensions !! i with
      | Some itemWidth =>
          let width := num_add width itemWidth in
          if num_ltb (num_sub pageWidth width) threshold then amount
          else scan pageWidth threshold dimensions rest (S i) (S amount) width
      | None => (amount + length pending)%nat
      end
  end.

(** [getAmountOfItemsToCollapse()] *)
Definition getAmountOfItemsToCollapse (this : Collapsible num) : M num Z :=
  pageWidth <- gets bodyWidth ;;
  let amount :=
    scan pageWidth (threshold this) (itemsDimensions this) (items this) 0 0 num_zero in
  ret (Z.of_nat (length (items this)) - Z.of_nat amount).

(** [collapse()] *)
Definition collapse (this : Collapsible num) : M num unit :=
  menu <- querySelector (container this) ".collapsible-menu" ;;
  menu <- deref menu ;;
  dropdown <- querySelector menu ".collapsible-dropdown" ;;
  dropdown <- deref dropdown ;;
  dropdownItems <- querySelectorAll dropdown "li" ;;
  amountOfItemsToCollapse <- getAmountOfItemsToCollapse this ;;
  classList_remove menu "hide" ;;
  (if (amountOfItemsToCollapse =? 0)%Z then classList_add menu ["hide"] else ret tt) ;;
  forEach (λ item index,
             let clone := dropdownItems !! index in
             classList_remove item "hide" ;;
             clone <- deref clone ;;
             classList_add clone ["hide"])
          (items this) 0 ;;
  for_loop (Z.to_nat amountOfItemsToCollapse) 0
    (λ i,
       let index := Z.of_nat (length dropdownItems) - i - 1 in
       let item := at_index (items this) index in
       let clone := at_index dropdownItems index in
       item <- deref item ;;
       classList_add item ["hide"] ;;
       clone <- deref clone ;;
       classList_remove clone "hide").

(** [inject()] *)
Definition inject (this : Collapsible num) : M num unit :=
  menu <- createElement "li" ;;
  classList_add menu ["collapsible-menu"] ;;
  dropdownList <- createElement "ul" ;;
  classList_add dropdownList ["dropdown-menu"; "collapsible-dropdown-list"] ;;
  icon <- createElement "span" ;;
  classList_add icon ["fas"; "fa-bars"] ;;
  dropdown <- createElement "div" ;;
  classList_add dropdown ["dropdown"; "collapsible-dropdown"] ;;
  button <- createElement "button" ;;
  classList_add button ["btn"; "dropdown-toggle"; "collapsible-toggle"] ;;
  addEventListener button "click" (ToggleOpen dropdown) ;;
  forEach (λ item _,
             clone <- cloneNode item ;;
             classList_add clone ["hide"] ;;
             append dropdownList clone)
          (items this) 0 ;;
  append button icon ;;
  append dropdown button ;;
  append dropdown dropdownList ;;
  append menu dropdown ;;
  append (container this) menu.

(** [render()] *)
Definition render (this : Collapsible num) : M num unit :=
  inject this ;;
  collapse this ;;
  parent <- parentElement (container this) ;;
  new_ResizeSensor parent this.

(** ** The environment *)

(** Modelled from the spec: the resize-notification service runs the
    callback of every sensor that observes [element], in the order the
    sensors were made, when the box of that element changes. *)
Fixpoint notify (element : node) (observers : list (option node * Collapsible num))
    : M num unit :=
  match observers with
  | [] => ret tt
  | (observed, this) :: rest =>
      (if bool_decide (observed = Some element) then collapse this else ret tt) ;;
      notify element rest
  end.

Definition resized (element : node) : M num unit :=
  observers <- gets sensors ;;
  notify element observers.

(** The viewport changes and [document.body.offsetWidth] becomes [w]. *)
Definition set_bodyWidth (w : num) : M num unit :=
  modify (λ s,
    {| forest := forest s; documentElement := documentElement s;
       tagName := tagName s; idAttr := idAttr s; classList := classList s;
       fresh := fresh s; rectWidth := rectWidth s; bodyWidth := w;
       listeners := listeners s; sensors := sensors s |}).

(** A click on [target] runs its click listeners. *)
Fixpoint click_from (target : node) (l : list (node * string * listener)) : M num unit :=
  match l with
  | [] => ret tt
  | (n, type, ToggleOpen dropdown) :: rest =>
      (if bool_decide (n = target ∧ type = "click")
       then classList_toggle dropdown "open" else ret tt) ;;
      click_from target rest
  end.

Definition click (target : node) : M num unit :=
  l <- gets listeners ;;
  click_from target l.

End Class.

Local Open Scope nat_scope.

(** ** The notions the specification speaks of *)

Section Notions.
Context {num : Type} `{JSNumber num}.

(** One captured width per item, as [constructor] leaves them. *)
Definition aligned (this : Collapsible num) : Prop :=
  length (itemsDimensions this) = length (items this).

(** The running width sum once item [j] is included: the widths of items
    [0..j] added to [0] in order. *)
Definition running_sum (widths : list num) (j : nat) : num :=
  foldl num_add num_zero (take (S j) widths).

(** The available space once item [j] is included. *)
Definition available (pageWidth : num) (widths : list num) (j : nat) : num :=
  num_sub pageWidth (running_sum widths j).

(** Item [j] fits: the available space with it included is not strictly
    below the threshold. *)
Definition fits (pageWidth threshold : num) (widths : list num) (j : nat) : bool :=
  negb (num_ltb (available pageWidth widths j) threshold).

(** The overflow menu is in place: the container holds a menu, the menu a
    dropdown, and the dropdown one clone per item, all of them distinct
    elements.  The result is the menu and the clones, in document order. *)
Definition mounted (this : Collapsible num) (s : state num) : option (node * list node) :=
  menu ← head (select_all s (container this) ".collapsible-menu");
  dropdown ← head (select_all s menu ".collapsible-dropdown");
  let clones := select_all s dropdown "li" in
  if bool_decide (length clones = length (items this)
                  ∧ NoDup (menu :: items this ++ clones))
  then Some (menu, clones) else None.

(** Every item sits in the dropdown and the menu control is shown. *)
Definition all_collapsed (this : Collapsible num) (s : state num)
    (menu : node) (clones : list node) : Prop :=
  visible s menu = true
  ∧ ∀ i item clone,
      items this !! i = Some item → clones !! i = Some clone →
      hidden s item = true ∧ visible s clone = true.

End Notions.

(** *** Shapes of change *)

Section Changes.
Context {num : Type}.
Implicit Types (s : state num) (n : node).

(** The two edits [collapse] makes, as state transformers. *)
Definition hide n s : state num :=
  set_classes n (token_add "hide" (classes_of s n)) s.
Definition unhide n s : state num :=
  set_classes n (token_remove "hide" (classes_of s n)) s.

(** [s'] differs from [s] at most in which elements carry [hide]. *)
Record same_but_hide s s' : Prop := {
  sbh_forest : forest s' = forest s;
  sbh_root : documentElement s' = documentElement s;
  sbh_tag : tagName s' = tagName s;
  sbh_id : idAttr s' = idAttr s;
  sbh_fresh : fresh s' = fresh s;
  sbh_rect : rectWidth s' = rectWidth s;
  sbh_body : bodyWidth s' = bodyWidth s;
  sbh_listeners : listeners s' = listeners s;
  sbh_sensors : sensors s' = sensors s;
  sbh_classes : ∀ n c, c ≠ "hide" → c ∈ classes_of s' n ↔ c ∈ classes_of s n
}.

(** A computation that returns, whatever the state. *)
Definition returns {A} (c : M num A) : Prop := ∀ s, ∃ a, (c s).1 = inr a.

(** A computation that leaves the sensors as they are, also when it throws. *)
Definition keeps_sensors {A} (c : M num A) : Prop :=
  ∀ s, sensors (c s).2 = sensors s.

End Changes.

(** *** What [collapse] may edit *)

Section Edits.
Context {num : Type} `{JSNumber num}.
Implicit Types (s : state num) (n : node).
Local Open Scope js_scope.

(** [s'] differs from [s] at most in which elements of [E] carry [hide]. *)
Definition hide_within (E : list node) s s' : Prop :=
  same_but_hide s s' ∧ ∀ n, n ∉ E → classList s' !! n = classList s !! n.

(** Whatever the state, and also when it throws, the computation changes
    the state within [R]. *)
Definition edits (R : relation (state num)) {A} (c : M num A) : Prop :=
  ∀ s, R s (c s).2.

(** The statements of [collapse] that follow its three queries, for the
    menu and the list of [li] that the queries gave. *)
Definition collapse_with (this : Collapsible num) (menu : node)
    (dropdownItems : list node) : M num unit :=
  amountOfItemsToCollapse <- getAmountOfItemsToCollapse this ;;
  classList_remove menu "hide" ;;
  (if (amountOfItemsToCollapse =? 0)%Z then classList_add menu ["hide"] else ret tt) ;;
  forEach (λ item index,
             let clone := dropdownItems !! index in
             classList_remove item "hide" ;;
             clone <- deref clone ;;
             classList_add clone ["hide"])
          (items this) 0 ;;
  for_loop (Z.to_nat amountOfItemsToCollapse) 0
    (λ i,
       let index := (Z.of_nat (length dropdownItems) - i - 1)%Z in
       let item := at_index (items this) index in
       let clone := at_index dropdownItems index in
       item <- deref item ;;
       classList_add item ["hide"] ;;
       clone <- deref clone ;;
       classList_remove clone "hide").

End Edits.

(** ** The page before and after [inject] *)

(** The first result among the children. *)
Fixpoint first_some {A B} (f : A → option B) (l : list A) : option B :=
  match l with
  | [] => None
  | x :: l' => match f x with Some r => Some r | None => first_some f l' end
  end.

Definition size (t : dom) : nat := length (preorder t).

Fixpoint copy_each (n : node) (l : list dom) : node * list dom * list (node * node) :=
  match l with
  | [] => (n, [], [])
  | k :: l' =>
      let '(n1, k', p1) := copy n k in
      let '(n2, l'', p2) := copy_each n1 l' in
      (n2, k' :: l'', p1 ++ p2)
  end.

(** What [p.append(c)] makes of the forest. *)
Definition append_in (p c : node) (G : list dom) : list dom :=
  let t := default (El c []) (first_some (subtree c) G) in
  map (graft p t) (filter (λ r, root r ≠ c) (map (prune c) G)).

(** The menu, as [inject] assembles it around the clones. *)
Definition menu_tree (f : node) (Cs : list dom) : dom :=
  El f [El (3 + f) [El (4 + f) [El (2 + f) []]; El (S f) Cs]].

Section Pages.
Context {num : Type} `{JSNumber num}.
Implicit Types (this : Collapsible num) (s st : state num).

(** Elements are told apart, and those still to be made are not in use. *)
Record well_formed s : Prop := {
  wf_unique : NoDup (flat_map preorder (forest s));
  wf_fresh : ∀ n, n ∈ flat_map preorder (forest s) → n < fresh s;
  wf_tags : ∀ n, fresh s ≤ n → tagName s !! n = None
}.

(** The container is in the page, the items are its [li], no item holds
    an [li] of its own, and nothing under the container passes for the
    menu yet. *)
Record flat_list this s : Prop := {
  fl_container : container this ∈ flat_map preorder (forest s);
  fl_items : items this = select_all s (container this) "li";
  fl_flat : ∀ x, x ∈ items this → select_all s x "li" = [];
  fl_no_menu : select_all s (container this) ".collapsible-menu" = []
}.

(** Every item is an [li] of the page that holds no [li] of its own. *)
Definition cloneable this s : Prop :=
  ∀ x, x ∈ items this →
       x ∈ flat_map preorder (forest s)
       ∧ tagName s !! x = Some "li" ∧ select_all s x "li" = [].

(** The state while [inject] clones the items: the five new elements are
    detached, the clones made so far ([Cs]) sit under the dropdown list,
    and the page is as it was. *)
Record injecting s st (Cs : list dom) : Prop := {
  inj_forest :
    forest st
    = forest s ++ [El (fresh s) []; El (S (fresh s)) Cs; El (2 + fresh s) [];
                   El (3 + fresh s) []; El (4 + fresh s) []];
  inj_ids : ∀ y, y ∈ flat_map preorder Cs → 5 + fresh s ≤ y < fresh st;
  inj_fresh : 5 + fresh s ≤ fresh st;
  inj_roots : NoDup (map root Cs);
  inj_old_tag : ∀ x, x < fresh s → tagName st !! x = tagName s !! x;
  inj_new_tags :
    tagName st !! S (fresh s) = Some "ul"
    ∧ tagName st !! (2 + fresh s) = Some "span"
    ∧ tagName st !! (4 + fresh s) = Some "button";
  inj_old_class : ∀ x, x < fresh s → classes_of st x = classes_of s x;
  inj_menu_class : "collapsible-menu" ∈ classes_of st (fresh s);
  inj_dropdown_class : "collapsible-dropdown" ∈ classes_of st (3 + fresh s);
  inj_beyond : ∀ x, fresh st ≤ x → tagName st !! x = None;
  inj_li : filter (λ d, matches st "li" d = true) (flat_map preorder Cs) = map root Cs
}.

(** The state while [inject] makes its elements: the page is as it was
    and the new elements ([D]) are detached. *)
Record creating s st (D : list dom) : Prop := {
  cr_forest : forest st = forest s ++ D;
  cr_fresh : fresh s ≤ fresh st;
  cr_old_tag : ∀ x, x < fresh s → tagName st !! x = tagName s !! x;
  cr_old_class : ∀ x, x < fresh s → classes_of st x = classes_of s x;
  cr_beyond : ∀ x, fresh st ≤ x → tagName st !! x = None
}.

(** Elements still to be made carry no id and no class. *)
Record pristine s : Prop := {
  pr_id : ∀ n, fresh s ≤ n → idAttr s !! n = None;
  pr_class : ∀ n, fresh s ≤ n → classList s !! n = None
}.

(** [st'] differs from [st] at most in where the elements sit. *)
Record same_but_forest st st' : Prop := {
  sbf_tag : tagName st' = tagName st;
  sbf_id : idAttr st' = idAttr st;
  sbf_class : classList st' = classList st;
  sbf_fresh : fresh st' = fresh st;
  sbf_listeners : listeners st' = listeners st;
  sbf_root : documentElement st' = documentElement st;
  sbf_rect : rectWidth st' = rectWidth st;
  sbf_body : bodyWidth st' = bodyWidth st;
  sbf_sensors : sensors st' = sensors st
}.

(** What [inject] has done besides building the tree, once its five
    elements are made and the items [its] are cloned into [Cs]: the page
    keeps its ids, its layout and its sensors, the button has its
    listener, and on a pristine page the new elements carry the classes
    the code gives them and each clone the id and the classes of its
    item, with [hide] added. *)
Record furnished s st (its : list node) (Cs : list dom) : Prop := {
  fu_unique : NoDup (flat_map preorder Cs);
  fu_id : ∀ x, x < fresh s → idAttr st !! x = idAttr s !! x;
  fu_tags : tagName st !! fresh s = Some "li" ∧ tagName st !! (3 + fresh s) = Some "div";
  fu_listeners :
    listeners st = listeners s ++ [(4 + fresh s, "click", ToggleOpen (3 + fresh s))];
  fu_host :
    documentElement st = documentElement s ∧ rectWidth st = rectWidth s
    ∧ bodyWidth st = bodyWidth s ∧ sensors st = sensors s;
  fu_exact :
    pristine s →
    pristine st
    ∧ classes_of st (fresh s) = ["collapsible-menu"]
    ∧ classes_of st (S (fresh s)) = ["dropdown-menu"; "collapsible-dropdown-list"]
    ∧ classes_of st (2 + fresh s) = ["fas"; "fa-bars"]
    ∧ classes_of st (3 + fresh s) = ["dropdown"; "collapsible-dropdown"]
    ∧ classes_of st (4 + fresh s) = ["btn"; "dropdown-toggle"; "collapsible-toggle"]
    ∧ (∀ k, k < 5 → idAttr st !! (k + fresh s) = None)
    ∧ Forall2 (λ item c,
                 idAttr st !! root c = idAttr s !! item
                 ∧ classes_of st (root c) = token_add "hide" (classes_of s item))
              its Cs
}.

End Pages.

(** ** A navbar of five items *)

(** The page
    [<html><body><nav><ul id=menu class=navbar-nav> li li li li li </ul></nav></body></html>]
    with elements numbered in document order, every item [itemWidth] wide,
    in a viewport that makes the body [pageWidth] wide. *)
Definition navbar {num : Type} (itemWidth pageWidth : num) : state num :=
  {| forest := [El 0 [El 1 [El 2 [El 3 [El 4 []; El 5 []; El 6 []; El 7 []; El 8 []]]]]];
     documentElement := 0;
     tagName := list_to_map [(0, "html"); (1, "body"); (2, "nav"); (3, "ul");
                             (4, "li"); (5, "li"); (6, "li"); (7, "li"); (8, "li")];
     idAttr := {[ 3 := "menu" ]};
     classList := {[ 3 := ["navbar-nav"] ]};
     fresh := 9;
     rectWidth := list_to_map [(4, itemWidth); (5, itemWidth); (6, itemWidth);
                               (7, itemWidth); (8, itemWidth)];
     bodyWidth := pageWidth;
     listeners := [];
     sensors := [] |}.

(** The instance [new Collapsible("#menu", minimum)] makes on that page. *)
Definition nav {num : Type} (itemWidth minimum : num) : Collapsible num :=
  {| container := 3; threshold := minimum; items := [4; 5; 6; 7; 8];
     itemsDimensions := [itemWidth; itemWidth; itemWidth; itemWidth; itemWidth] |}.

(** Items 100 wide and a threshold of 50, in integer layout units. *)
Definition nav100 : Collapsible Z := nav 100%Z 50%Z.

(** The page once [inject] has run. *)
Definition injected (pageWidth : Z) : state Z :=
  (inject nav100 (navbar 100%Z pageWidth)).2.

(** The page left by a narrow viewport: [collapse] ran at width 150 and
    the viewport then grew to [pageWidth], with no call since. *)
Definition widened (pageWidth : Z) : state Z :=
  (bind (collapse nav100) (λ _, set_bodyWidth pageWidth) (injected 150%Z)).2.

(** The same navbar on binary64 numbers, with widths that are not whole:
    items 100.5 wide and a threshold of 50.25; the page once [inject] has
    run; and the page left by a narrow viewport, as [widened]. *)
Definition nav_half : Collapsible float := nav 100.5%float 50.25%float.

Definition navbar_half (pageWidth : float) : state float :=
  navbar 100.5%float pageWidth.

Definition injected_half (pageWidth : float) : state float :=
  (inject nav_half (navbar_half pageWidth)).2.

Definition widened_half (pageWidth : float) : state float :=
  (bind (collapse nav_half) (λ _, set_bodyWidth pageWidth)
        (injected_half 150.5%float)).2.

(** The menu and the clones on the injected page. *)
Definition menu9 : node := 9.
Definition clones14 : list node := [14; 15; 16; 17; 18].

(** The page [<ul id=menu> <li> <ul> <li/> </ul> </li> <li/> </ul>], in
    which the first item holds a list of its own. *)
Definition nested_navbar : state Z :=
  {| forest := [El 0 [El 1 [El 2 [El 3 [El 4 [El 5 [El 6 []]]; El 7 []]]]]];
     documentElement := 0;
     tagName := list_to_map [(0, "html"); (1, "body"); (2, "nav"); (3, "ul");
                             (4, "li"); (5, "ul"); (6, "li"); (7, "li")];
     idAttr := {[ 3 := "menu" ]};
     classList := ∅;
     fresh := 8;
     rectWidth := list_to_map [(4, 100%Z); (6, 80%Z); (7, 100%Z)];
     bodyWidth := 250%Z;
     listeners := [];
     sensors := [] |}.

(** The instance the constructor makes on the nested page, and the page
    once [inject] has run there. *)
Definition nested_nav : Collapsible Z :=
  {| container := 3; threshold := 50%Z; items := [4; 6; 7];
     itemsDimensions := [100; 80; 100]%Z |}.

Definition nested_injected : state Z := (inject nested_nav nested_navbar).2.

(** The navbar page with the class of the menu on its first item, which
    holds no dropdown. *)
Definition navbar_bare_menu : state Z :=
  set_classes 4 ["collapsible-menu"] (navbar 100%Z 350%Z).

(** The nested page in a viewport [pageWidth] wide, once [inject] has
    run. *)
Definition nested_at (pageWidth : Z) : state Z :=
  (set_bodyWidth pageWidth nested_injected).2.

(** The same, with the clone of the last item (element 17) shown. *)
Definition nested_shown (pageWidth : Z) : state Z :=
  (classList_remove 17 "hide" (nested_at pageWidth)).2.

(** The page [<ul id=menu></ul>], a list with no item, 40 wide, the
    instance [new Collapsible("#menu", 50)] makes on it, and the page
    once [inject] has run. *)
Definition empty_navbar : state Z :=
  {| forest := [El 0 [El 1 [El 2 [El 3 []]]]];
     documentElement := 0;
     tagName := list_to_map [(0, "html"); (1, "body"); (2, "nav"); (3, "ul")];
     idAttr := {[ 3 := "menu" ]};
     classList := ∅;
     fresh := 4;
     rectWidth := ∅;
     bodyWidth := 40%Z;
     listeners := [];
     sensors := [] |}.

Definition empty_nav : Collapsible Z :=
  {| container := 3; threshold := 50%Z; items := []; itemsDimensions := [] |}.

Definition empty_injected : state Z := (inject empty_nav empty_navbar).2.

(** * Properties *)

(** ** Binary64 is ordered as the count needs *)

(** Rounding is monotone: of two exact values the larger never rounds
    below the smaller.  From this the laws of [JSOrder] follow for
    binary64, the infinities and NaN included. *)

Section Rounding.
Local Open Scope Z_scope.

Lemma RNE_bounds m k : 0 ≤ k → m / 2 ^ k ≤ RNE m k ≤ m / 2 ^ k + 1.
Proof.
  intros Hk. unfold RNE.
  destruct (_ ?= _); [destruct (Z.even _)|..]; lia.
Qed.

Lemma RNE_monotone m m' k : 0 ≤ k → m ≤ m' → RNE m k ≤ RNE m' k.
Proof.
  intros Hk Hm.
  assert (HP : 0 < 2 ^ k) by (apply Z.pow_pos_nonneg; lia).
  pose proof (RNE_bounds m k Hk) as Hb. pose proof (RNE_bounds m' k Hk) as Hb'.
  pose proof (Z.div_le_mono m m' (2 ^ k) HP Hm) as Hq.
  destruct (Z.eq_dec (m / 2 ^ k) (m' / 2 ^ k)) as [Heq|Hne]; [|lia].
  assert (Hrem : m mod 2 ^ k ≤ m' mod 2 ^ k).
  { pose proof (Z.div_mod m (2 ^ k)). pose proof (Z.div_mod m' (2 ^ k)). nia. }
  unfold RNE. rewrite <- Heq.
  destruct (Z.compare_spec (2 * (m mod 2 ^ k)) (2 ^ k));
    destruct (Z.compare_spec (2 * (m' mod 2 ^ k)) (2 ^ k));
    destruct (Z.even (m / 2 ^ k)); lia.
Qed.

Lemma compare_scale a b c : 0 < c → (a * c ?= b * c) = (a ?= b).
Proof.
  intros Hc.
  destruct (Z.compare_spec a b); [subst; apply Z.compare_refl|..];
    [apply Z.compare_lt_iff|apply Z.compare_gt_iff]; nia.
Qed.

Lemma RNE_scale m k j : 0 ≤ k → 0 ≤ j → RNE (m * 2 ^ j) (k + j) = RNE m k.
Proof.
  intros Hk Hj. unfold RNE.
  assert (0 < 2 ^ k) by (apply Z.pow_pos_nonneg; lia).
  assert (0 < 2 ^ j) by (apply Z.pow_pos_nonneg; lia).
  rewrite Z.pow_add_r by lia.
  rewrite Z.div_mul_cancel_r by lia.
  rewrite Z.mul_mod_distr_r by lia.
  rewrite Z.mul_assoc, compare_scale by lia. done.
Qed.

Lemma RNE_exact m k : 0 ≤ k → RNE (m * 2 ^ k) k = m.
Proof.
  intros Hk. rewrite <- (Z.add_0_l k) at 2. rewrite RNE_scale by lia.
  unfold RNE. rewrite Z.pow_0_r, Z.div_1_r, Z.mod_1_r. done.
Qed.

End Rounding.

Section Shifting.
Local Open Scope Z_scope.

Lemma shr_1_spec m r s :
  0 ≤ m →
  shr_1 {| shr_m := m; shr_r := r; shr_s := s |}
  = {| shr_m := Z.div2 m; shr_r := Z.odd m; shr_s := r || s |}.
Proof. destruct m as [|[p|p|]|p]; simpl; try done; lia. Qed.

Lemma pow2_split k : 1 ≤ k → 2 ^ k = 2 * 2 ^ (k - 1).
Proof. intros Hk. rewrite <- Z.pow_succ_r by lia. f_equal. lia. Qed.

Lemma mod_pow2_split m k :
  1 ≤ k →
  m mod 2 ^ k
  = m mod 2 ^ (k - 1) + 2 ^ (k - 1) * (if Z.odd (m / 2 ^ (k - 1)) then 1 else 0).
Proof.
  intros Hk. assert (0 < 2 ^ (k - 1)) by (apply Z.pow_pos_nonneg; lia).
  rewrite (pow2_split k), (Z.mul_comm 2) by done.
  rewrite Z.rem_mul_r by lia. by rewrite Zmod_odd.
Qed.

Lemma shr_1_start m :
  0 ≤ m →
  shr_1 {| shr_m := m; shr_r := false; shr_s := false |} = shr_state m 1.
Proof.
  intros Hm. rewrite shr_1_spec by done. unfold shr_state. simpl.
  rewrite Z.div2_div, Z.div_1_r, Z.mod_1_r. done.
Qed.

Lemma shr_1_state m k : 0 ≤ m → 1 ≤ k → shr_1 (shr_state m k) = shr_state m (k + 1).
Proof.
  intros Hm Hk. unfold shr_state.
  assert (0 < 2 ^ k) by (apply Z.pow_pos_nonneg; lia).
  assert (0 < 2 ^ (k - 1)) by (apply Z.pow_pos_nonneg; lia).
  rewrite shr_1_spec by (apply Z.div_pos; lia).
  replace (k + 1 - 1) with k by lia. f_equal.
  - rewrite Z.div2_div, Z.div_div, (Z.mul_comm _ 2), <- Z.pow_succ_r by lia. done.
  - rewrite (mod_pow2_split m k) by lia.
    pose proof (Z.mod_pos_bound m (2 ^ (k - 1))).
    destruct (Z.odd (m / 2 ^ (k - 1))); simpl.
    + symmetry. apply negb_true_iff, Z.eqb_neq. lia.
    + by rewrite Z.mul_0_r, Z.add_0_r.
Qed.

Lemma iter_pos_nat {A} (f : A → A) (p : positive) (x : A) :
  SpecFloat.iter_pos f p x = Nat.iter (Pos.to_nat p) f x.
Proof.
  revert x. induction p as [p IH|p IH|]; intros x.
  - change (SpecFloat.iter_pos f p~1 x)
      with (SpecFloat.iter_pos f p (SpecFloat.iter_pos f p (f x))).
    rewrite !IH, Pos2Nat.inj_xI.
    replace (S (2 * Pos.to_nat p))%nat with (Pos.to_nat p + S (Pos.to_nat p))%nat by lia.
    by rewrite Nat.iter_add, Nat.iter_succ_r.
  - change (SpecFloat.iter_pos f p~0 x)
      with (SpecFloat.iter_pos f p (SpecFloat.iter_pos f p x)).
    rewrite !IH, Pos2Nat.inj_xO.
    replace (2 * Pos.to_nat p)%nat with (Pos.to_nat p + Pos.to_nat p)%nat by lia.
    by rewrite Nat.iter_add.
  - done.
Qed.

Lemma iter_shr_1 m n :
  0 ≤ m →
  Nat.iter (S n) shr_1 {| shr_m := m; shr_r := false; shr_s := false |}
  = shr_state m (Z.of_nat (S n)).
Proof.
  intros Hm. induction n as [|n IH].
  - simpl. by apply shr_1_start.
  - rewrite Nat.iter_succ, IH, shr_1_state by lia. f_equal. lia.
Qed.

Lemma shr_spec m e n :
  0 ≤ m → 0 < n →
  shr {| shr_m := m; shr_r := false; shr_s := false |} e n = (shr_state m n, e + n).
Proof.
  intros Hm Hn. destruct n as [|p|p]; try lia. unfold shr.
  rewrite iter_pos_nat.
  destruct (Pos2Nat.is_succ p) as [k Hk]. rewrite Hk, iter_shr_1 by done.
  rewrite <- Hk, positive_nat_Z. done.
Qed.

Lemma round_state m k :
  0 ≤ m → 1 ≤ k →
  round_nearest_even (shr_m (shr_state m k)) (loc_of_shr_record (shr_state m k))
  = RNE m k.
Proof.
  intros Hm Hk. unfold RNE, shr_state. simpl.
  rewrite (mod_pow2_split m k) by done.
  assert (0 < 2 ^ (k - 1)) by (apply Z.pow_pos_nonneg; lia).
  rewrite (pow2_split k) by done.
  pose proof (Z.mod_pos_bound m (2 ^ (k - 1))).
  destruct (Z.odd (m / 2 ^ (k - 1))),
           (Z.eqb_spec (m mod 2 ^ (k - 1)) 0) as [Hz|Hz]; simpl.
  - rewrite Hz. replace (2 * (0 + 2 ^ (k - 1) * 1) ?= 2 * 2 ^ (k - 1)) with Eq;
      [done|symmetry; apply Z.compare_eq_iff; lia].
  - replace (2 * (m mod 2 ^ (k - 1) + 2 ^ (k - 1) * 1) ?= 2 * 2 ^ (k - 1)) with Gt;
      [done|symmetry; apply Z.compare_gt_iff; lia].
  - replace (2 * (m mod 2 ^ (k - 1) + 2 ^ (k - 1) * 0) ?= 2 * 2 ^ (k - 1)) with Lt;
      [done|symmetry; apply Z.compare_lt_iff; lia].
  - replace (2 * (m mod 2 ^ (k - 1) + 2 ^ (k - 1) * 0) ?= 2 * 2 ^ (k - 1)) with Lt;
      [done|symmetry; apply Z.compare_lt_iff; lia].
Qed.

End Shifting.

Section Binary64.
Local Open Scope Z_scope.

Lemma digits2_pos_digits (p : positive) : Zpos (digits2_pos p) = digits (Zpos p).
Proof.
  unfold digits. induction p as [p IH|p IH|]; [| |done].
  - change (Z.log2 (Zpos p~1)) with (Zpos (Pos.size p)).
    replace (Pos.size p) with (digits2_pos p); [simpl; lia|].
    clear. induction p; simpl; congruence.
  - change (Z.log2 (Zpos p~0)) with (Zpos (Pos.size p)).
    replace (Pos.size p) with (digits2_pos p); [simpl; lia|].
    clear. induction p; simpl; congruence.
Qed.

Lemma digits_bounds v : 0 < v → 2 ^ (digits v - 1) ≤ v < 2 ^ digits v.
Proof.
  intros Hv. unfold digits. replace (Z.log2 v + 1 - 1) with (Z.log2 v) by lia.
  apply Z.log2_spec. done.
Qed.

Lemma digits_pos v : 0 < v → 1 ≤ digits v.
Proof. intros Hv. unfold digits. pose proof (Z.log2_nonneg v). lia. Qed.

Lemma digits_scale v j : 0 < v → 0 ≤ j → digits (v * 2 ^ j) = digits v + j.
Proof. intros Hv Hj. unfold digits. rewrite Z.log2_mul_pow2 by lia. lia. Qed.

Lemma digits_monotone v v' : v ≤ v' → digits v ≤ digits v'.
Proof. intros Hv. unfold digits. pose proof (Z.log2_le_mono v v' Hv). lia. Qed.

Lemma digits_unique v d : 2 ^ (d - 1) ≤ v < 2 ^ d → 1 ≤ d → digits v = d.
Proof.
  intros Hv Hd. unfold digits.
  assert (Z.log2 v = d - 1); [|lia].
  apply Z.log2_unique; [lia|].
  by replace (Z.succ (d - 1)) with d by lia.
Qed.

Lemma fexp_spec e : fexp prec emax e = Z.max (e - 53) (-1074).
Proof. done. Qed.

Lemma iter_xO (m d : positive) : Zpos (Pos.iter xO m d) = Zpos m * 2 ^ Zpos d.
Proof.
  induction d as [|d IH] using Pos.peano_ind.
  - simpl. lia.
  - rewrite Pos.iter_succ, Pos2Z.inj_succ, Z.pow_succ_r by lia.
    rewrite Pos2Z.inj_xO, IH. lia.
Qed.

Lemma shr_fexp_exact (M E : Z) :
  0 < M →
  shr_fexp prec emax M E loc_Exact
  = shr {| shr_m := M; shr_r := false; shr_s := false |} E
        (fexp prec emax (digits M + E) - E).
Proof.
  intros HM. destruct M as [|p|p]; try lia.
  unfold shr_fexp. simpl Zdigits2. by rewrite digits2_pos_digits.
Qed.

Lemma binary_round_aux_exact (s : bool) (m e : Z) :
  0 < m →
  let k := fexp prec emax (digits m + e) - e in
  0 ≤ k →
  binary_round_aux prec emax s m e loc_Exact = finish s (RNE m k) (e + k).
Proof.
  intros Hm k Hk. unfold binary_round_aux, finish.
  rewrite (shr_fexp_exact m e) by done. fold k.
  destruct (Z.eq_dec k 0) as [->|Hne].
  - simpl shr. unfold RNE. rewrite Z.pow_0_r, Z.div_1_r, Z.mod_1_r, Z.add_0_r.
    simpl. done.
  - rewrite shr_spec by lia. rewrite round_state by lia. done.
Qed.

Lemma binary_round_rounded (s : bool) (m : positive) (e : Z) :
  -1074 ≤ e →
  binary_round prec emax s m e = rounded s (Zpos m * 2 ^ (e + 1074)).
Proof.
  intros He. unfold binary_round, rounded, shift_of.
  rewrite digits2_pos_digits, digits_scale by lia.
  set (E := fexp prec emax (digits (Zpos m) + e)).
  assert (HE : E = Z.max (digits (Zpos m) + e - 53) (-1074)) by done.
  replace (Z.max (digits (Zpos m) + (e + 1074) - 53) 0) with (E + 1074) by lia.
  replace (E + 1074 - 1074) with E by lia.
  unfold shl_align. destruct (E - e) as [|d|d] eqn:Hd.
  - rewrite binary_round_aux_exact; fold E; [|lia|lia].
    replace (E - e) with 0 by lia. replace (E + 1074) with (0 + (e + 1074)) by lia.
    rewrite RNE_scale by lia. f_equal. lia.
  - rewrite binary_round_aux_exact; fold E; [|lia|lia].
    replace (E + 1074) with ((E - e) + (e + 1074)) by lia.
    rewrite RNE_scale by lia. f_equal. lia.
  - assert (HD : digits (Zpos (Pos.iter xO m d)) + E = digits (Zpos m) + e)
      by (rewrite iter_xO, digits_scale by lia; lia).
    rewrite binary_round_aux_exact; rewrite ?HD; fold E; [|lia|lia].
    replace (E - E) with 0 by lia. rewrite iter_xO.
    replace (e + 1074) with (Zpos d + (E + 1074)) by lia.
    rewrite Z.pow_add_r, Z.mul_assoc, RNE_exact by lia.
    unfold RNE. rewrite Z.pow_0_r, Z.div_1_r, Z.mod_1_r. simpl. f_equal. lia.
Qed.

End Binary64.

Section Monotone.
Local Open Scope Z_scope.

Lemma pow2_53 : 2 ^ 53 = 9007199254740992.
Proof. done. Qed.

Lemma pow2_52 : 2 ^ 52 = 4503599627370496.
Proof. done. Qed.

Lemma RNE_zero_shift V : RNE V 0 = V.
Proof. unfold RNE. rewrite Z.pow_0_r, Z.div_1_r, Z.mod_1_r. done. Qed.

Lemma rounded_range V :
  0 < V →
  (shift_of V = 0 → RNE V (shift_of V) = V ∧ V < 2 ^ 53)
  ∧ (0 < shift_of V → 2 ^ 52 ≤ RNE V (shift_of V) ≤ 2 ^ 53).
Proof.
  intros HV. pose proof (digits_bounds V HV) as [Hlo Hhi]. unfold shift_of in *. split.
  - intros HK. rewrite HK, RNE_zero_shift. split; [done|].
    eapply Z.lt_le_trans; [exact Hhi|]. apply Z.pow_le_mono_r; lia.
  - intros HK. set (k := Z.max (digits V - 53) 0) in *.
    assert (HD : digits V = k + 53) by lia.
    assert (0 < 2 ^ k) by (apply Z.pow_pos_nonneg; lia).
    pose proof (RNE_bounds V k ltac:(lia)).
    assert (2 ^ 52 ≤ V / 2 ^ k).
    { apply Z.div_le_lower_bound; [lia|].
      rewrite <- Z.pow_add_r by lia. by replace (k + 52) with (digits V - 1) by lia. }
    assert (V / 2 ^ k < 2 ^ 53).
    { apply Z.div_lt_upper_bound; [lia|].
      rewrite <- Z.pow_add_r by lia. by replace (k + 53) with (digits V) by lia. }
    lia.
Qed.

Lemma shift_of_nonneg V : 0 ≤ shift_of V.
Proof. unfold shift_of. lia. Qed.

Lemma mantissa_exponent_range V :
  0 < V →
  0 < mantissa_of V < 2 ^ 53 ∧ -1074 ≤ exponent_of V ∧ (-1074 < exponent_of V → 2 ^ 52 ≤ mantissa_of V).
Proof.
  intros HV. destruct (rounded_range V HV) as [H0 H1].
  pose proof (shift_of_nonneg V). pose proof pow2_53. pose proof pow2_52.
  unfold mantissa_of, exponent_of. destruct (Z.eqb_spec (RNE V (shift_of V)) (2 ^ 53)) as [Heq|Hne].
  - lia.
  - destruct (Z.eq_dec (shift_of V) 0) as [HK|HK].
    + destruct (H0 HK) as [-> ?]. lia.
    + specialize (H1 ltac:(lia)). lia.
Qed.

Lemma rounded_spec (s : bool) V :
  0 < V →
  rounded s V = if exponent_of V <=? 971 then S754_finite s (Z.to_pos (mantissa_of V)) (exponent_of V)
          else S754_infinity s.
Proof.
  intros HV. destruct (rounded_range V HV) as [H0 H1].
  pose proof (shift_of_nonneg V). pose proof pow2_53. pose proof pow2_52.
  unfold rounded, finish, mantissa_of, exponent_of.
  destruct (Z.eqb_spec (RNE V (shift_of V)) (2 ^ 53)) as [Heq|Hne].
  - rewrite Heq, shr_fexp_exact by lia.
    replace (digits (2 ^ 53)) with 54 by done. rewrite fexp_spec.
    replace (Z.max (54 + (shift_of V - 1074) - 53) (-1074) - (shift_of V - 1074)) with 1 by lia.
    rewrite shr_spec by lia. simpl shr_m.
    replace (2 ^ 53 / 2 ^ 1) with (2 ^ 52) by done.
    replace (shift_of V - 1074 + 1) with (shift_of V + 1 - 1074) by lia. done.
  - assert (HM : 0 < RNE V (shift_of V) < 2 ^ 53
                 ∧ (0 < shift_of V → digits (RNE V (shift_of V)) = 53)
                 ∧ digits (RNE V (shift_of V)) ≤ 53).
    { destruct (Z.eq_dec (shift_of V) 0) as [HK|HK].
      - destruct (H0 HK) as [-> ?]. split; [lia|]. split; [lia|].
        unfold shift_of in HK. lia.
      - specialize (H1 ltac:(lia)). split; [lia|].
        assert (digits (RNE V (shift_of V)) = 53) by (apply digits_unique; lia). lia. }
    destruct HM as (HM & HD1 & HD2).
    rewrite shr_fexp_exact by lia. rewrite fexp_spec.
    replace (Z.max (digits (RNE V (shift_of V)) + (shift_of V - 1074) - 53) (-1074) - (shift_of V - 1074))
      with 0.
    + simpl. destruct (RNE V (shift_of V)) as [|p|p]; try lia. done.
    + destruct (Z.eq_dec (shift_of V) 0) as [HK|HK]; [lia|].
      rewrite HD1 by lia. lia.
Qed.

Lemma mantissa_exponent_monotone V V' :
  0 < V → V ≤ V' →
  exponent_of V < exponent_of V' ∨ (exponent_of V = exponent_of V' ∧ mantissa_of V ≤ mantissa_of V').
Proof.
  intros HV Hle.
  destruct (rounded_range V HV) as [H0 H1].
  destruct (rounded_range V' ltac:(lia)) as [H0' H1'].
  pose proof (shift_of_nonneg V). pose proof (shift_of_nonneg V').
  pose proof pow2_53. pose proof pow2_52.
  assert (HK : shift_of V ≤ shift_of V') by (unfold shift_of; pose proof (digits_monotone V V' Hle); lia).
  assert (HM : shift_of V = shift_of V' → RNE V (shift_of V) ≤ RNE V' (shift_of V'))
    by (intros <-; apply RNE_monotone; lia).
  assert (HR : RNE V (shift_of V) ≤ 2 ^ 53).
  { destruct (Z.eq_dec (shift_of V) 0) as [HK0|HK0]; [destruct (H0 HK0) as [-> ?]|]; lia. }
  assert (HR' : RNE V' (shift_of V') ≤ 2 ^ 53).
  { destruct (Z.eq_dec (shift_of V') 0) as [HK0|HK0]; [destruct (H0' HK0) as [-> ?]|]; lia. }
  unfold mantissa_of, exponent_of.
  destruct (Z.eqb_spec (RNE V (shift_of V)) (2 ^ 53)),
           (Z.eqb_spec (RNE V' (shift_of V')) (2 ^ 53));
    destruct (Z.eq_dec (shift_of V) (shift_of V')); lia.
Qed.

Lemma SFleb_finite (m e m' e' : Z) :
  0 < m → 0 < m' → e < e' ∨ (e = e' ∧ m ≤ m') →
  SFleb (S754_finite false (Z.to_pos m) e) (S754_finite false (Z.to_pos m') e') = true
  ∧ SFleb (S754_finite true (Z.to_pos m') e') (S754_finite true (Z.to_pos m) e) = true.
Proof.
  intros Hm Hm' Hlex. unfold SFleb, SFcompare.
  change (Pos.compare_cont Eq) with Pos.compare.
  rewrite <- !Z2Pos.inj_compare by lia.
  rewrite (Z.compare_antisym e e'), (Z.compare_antisym m m').
  destruct (Z.compare_spec e e'); simpl; try done; try lia.
  destruct (Z.compare_spec m m'); simpl; try done; lia.
Qed.

Lemma rounded_monotone V V' :
  0 < V → V ≤ V' →
  SFleb (rounded false V) (rounded false V') = true ∧ SFleb (rounded true V') (rounded true V) = true.
Proof.
  intros HV Hle. rewrite !rounded_spec by lia.
  destruct (mantissa_exponent_range V HV) as (Hm & _ & _).
  destruct (mantissa_exponent_range V' ltac:(lia)) as (Hm' & _ & _).
  pose proof (mantissa_exponent_monotone V V' HV Hle) as Hlex.
  destruct (Z.leb_spec (exponent_of V) 971), (Z.leb_spec (exponent_of V') 971);
    try done; try lia.
  apply SFleb_finite; lia.
Qed.

End Monotone.

Section Values.
Local Open Scope Z_scope.

Lemma rounded_shape (s : bool) V :
  0 < V → (∃ m e, rounded s V = S754_finite s m e) ∨ rounded s V = S754_infinity s.
Proof.
  intros HV. rewrite rounded_spec by done. destruct (_ <=? _); eauto.
Qed.

Lemma binary_normalize_normalized (z e : Z) :
  -1074 ≤ e → binary_normalize prec emax z e false = normalized (z * 2 ^ (e + 1074)).
Proof.
  intros He. assert (0 < 2 ^ (e + 1074)) by (apply Z.pow_pos_nonneg; lia).
  unfold normalized, binary_normalize. destruct z as [|p|p].
  - done.
  - rewrite binary_round_rounded by done.
    destruct (Z.eqb_spec (Zpos p * 2 ^ (e + 1074)) 0) as [Hz|Hz]; [lia|].
    destruct (Z.ltb_spec 0 (Zpos p * 2 ^ (e + 1074))) as [Hp|Hp]; [done|lia].
  - rewrite binary_round_rounded by done.
    destruct (Z.eqb_spec (Zneg p * 2 ^ (e + 1074)) 0) as [Hz|Hz]; [lia|].
    destruct (Z.ltb_spec 0 (Zneg p * 2 ^ (e + 1074))) as [Hp|Hp]; [lia|].
    f_equal. lia.
Qed.

Lemma normalized_monotone v v' : v ≤ v' → SFleb (normalized v) (normalized v') = true.
Proof.
  intros Hle. unfold normalized.
  destruct (Z.eqb_spec v 0) as [Hv|Hv], (Z.eqb_spec v' 0) as [Hv'|Hv'],
           (Z.ltb_spec 0 v) as [Hp|Hp], (Z.ltb_spec 0 v') as [Hp'|Hp'];
    try lia; try done.
  - destruct (rounded_shape false v') as [(m & e & ->)| ->]; [lia|done..].
  - destruct (rounded_shape true (- v)) as [(m & e & ->)| ->]; [lia|done..].
  - by apply rounded_monotone.
  - destruct (rounded_shape true (- v)) as [(m & e & ->)| ->]; [lia|..];
      destruct (rounded_shape false v') as [(m' & e' & ->)| ->]; try lia; done.
  - apply rounded_monotone; lia.
Qed.

Lemma plus_zero_normalized v : plus_zero (normalized v) = normalized v.
Proof.
  unfold normalized. destruct (Z.eqb_spec v 0) as [Hv|Hv]; [done|].
  destruct (Z.ltb_spec 0 v) as [Hp|Hp].
  - destruct (rounded_shape false v) as [(m & e & ->)| ->]; [lia|done..].
  - destruct (rounded_shape true (- v)) as [(m & e & ->)| ->]; [lia|done..].
Qed.

Lemma valid_finite (s : bool) (m : positive) (e : Z) :
  valid_binary (S754_finite s m e) = true →
  fexp prec emax (digits (Zpos m) + e) = e ∧ -1074 ≤ e ≤ 971.
Proof.
  unfold valid_binary, SpecFloat.valid_binary, bounded, canonical_mantissa.
  rewrite digits2_pos_digits. intros [Hc%Z.eqb_eq Hb%Z.leb_le]%andb_true_iff.
  split; [done|]. rewrite fexp_spec in Hc.
  change (emax - prec) with 971 in Hb. lia.
Qed.

Lemma binary_round_valid (s : bool) (m : positive) (e : Z) :
  valid_binary (S754_finite s m e) = true →
  binary_round prec emax s m e = S754_finite s m e.
Proof.
  intros [Hc He]%valid_finite. unfold binary_round.
  rewrite digits2_pos_digits, Hc. unfold shl_align. rewrite Z.sub_diag.
  rewrite binary_round_aux_exact; rewrite ?Hc, ?Z.sub_diag; [|lia|lia].
  rewrite RNE_zero_shift, Z.add_0_r. unfold finish.
  rewrite shr_fexp_exact, Hc, Z.sub_diag by lia. simpl.
  change (emax - prec) with 971. destruct (Z.leb_spec e 971); [done|lia].
Qed.

Lemma normalized_value_of x : valid_binary x = true → is_finite x = true → normalized (value_of x) = plus_zero x.
Proof.
  intros Hv Hf. destruct x as [s| |  |s m e]; try done.
  pose proof (valid_finite s m e Hv) as [_ He].
  assert (0 < 2 ^ (e + 1074)) by (apply Z.pow_pos_nonneg; lia).
  trans (binary_round prec emax s m e); [|by apply binary_round_valid].
  rewrite binary_round_rounded by lia. unfold normalized, value_of, cond_Zopp. destruct s.
  - change (- Zpos m) with (Zneg m).
    destruct (Z.eqb_spec (Zneg m * 2 ^ (e + 1074)) 0) as [Hz|Hz]; [lia|].
    destruct (Z.ltb_spec 0 (Zneg m * 2 ^ (e + 1074))) as [Hp|Hp]; [lia|].
    f_equal. lia.
  - destruct (Z.eqb_spec (Zpos m * 2 ^ (e + 1074)) 0) as [Hz|Hz]; [lia|].
    destruct (Z.ltb_spec 0 (Zpos m * 2 ^ (e + 1074))) as [Hp|Hp]; [done|lia].
Qed.

Lemma shl_align_fst (m : positive) (e e' : Z) :
  e' ≤ e → Zpos (fst (shl_align m e e')) = Zpos m * 2 ^ (e - e').
Proof.
  intros He. unfold shl_align. destruct (e' - e) as [|d|d] eqn:Hd; simpl.
  - replace (e - e') with 0 by lia. lia.
  - lia.
  - rewrite iter_xO. f_equal. f_equal. lia.
Qed.

Lemma aligned_value_of (s : bool) (m : positive) (e ez : Z) :
  -1074 ≤ ez → ez ≤ e →
  cond_Zopp s (Zpos (fst (shl_align m e ez))) * 2 ^ (ez + 1074)
  = value_of (S754_finite s m e).
Proof.
  intros Hz He. rewrite shl_align_fst by done. unfold value_of, cond_Zopp.
  replace (e + 1074) with ((e - ez) + (ez + 1074)) by lia.
  rewrite (Z.pow_add_r 2 (e - ez) (ez + 1074)) by lia. destruct s; ring.
Qed.

Lemma SFadd_finite x y :
  valid_binary x = true → valid_binary y = true →
  is_finite x = true → is_finite y = true →
  plus_zero (SFadd prec emax x y) = normalized (value_of x + value_of y).
Proof.
  intros Hx Hy Hfx Hfy.
  destruct x as [sx| | |sx mx ex], y as [sy| | |sy my ey]; try done.
  - by destruct sx, sy.
  - simpl SFadd. by rewrite <- (normalized_value_of _ Hy).
  - simpl SFadd. rewrite <- (normalized_value_of _ Hx) by done. f_equal. simpl. lia.
  - pose proof (valid_finite _ _ _ Hx) as [_ Hex].
    pose proof (valid_finite _ _ _ Hy) as [_ Hey].
    unfold SFadd. rewrite binary_normalize_normalized by lia.
    rewrite plus_zero_normalized, Z.mul_add_distr_r, !aligned_value_of by lia. done.
Qed.

Lemma SFsub_finite x y :
  valid_binary x = true → valid_binary y = true →
  is_finite x = true → is_finite y = true →
  plus_zero (SFsub prec emax x y) = normalized (value_of x - value_of y).
Proof.
  intros Hx Hy Hfx Hfy.
  destruct x as [sx| | |sx mx ex], y as [sy| | |sy my ey]; try done.
  - by destruct sx, sy.
  - simpl SFsub.
    assert (Hy' : valid_binary (S754_finite (negb sy) my ey) = true) by done.
    rewrite <- (normalized_value_of _ Hy') by done. f_equal. simpl. destruct sy; simpl; lia.
  - simpl SFsub. rewrite <- (normalized_value_of _ Hx) by done. f_equal. simpl. lia.
  - pose proof (valid_finite _ _ _ Hx) as [_ Hex].
    pose proof (valid_finite _ _ _ Hy) as [_ Hey].
    unfold SFsub. rewrite binary_normalize_normalized by lia.
    rewrite plus_zero_normalized, Z.mul_sub_distr_r, !aligned_value_of by lia. done.
Qed.

End Values.

Section Keys.
Local Open Scope Z_scope.

Lemma pow2_lt a b : 0 ≤ a → a < b → 2 ^ a < 2 ^ b.
Proof. intros. apply Z.pow_lt_mono_r; lia. Qed.

Lemma pow2_le a b : 0 ≤ a → a ≤ b → 2 ^ a ≤ 2 ^ b.
Proof. intros. apply Z.pow_le_mono_r; lia. Qed.

Lemma finite_below (m e : Z) :
  0 < m < 2 ^ 53 → -1074 ≤ e ≤ 971 → 0 < m * 2 ^ (e + 1074) < 2 ^ 2100.
Proof.
  intros Hm He.
  assert (0 < 2 ^ (e + 1074)) by (apply Z.pow_pos_nonneg; lia).
  pose proof (pow2_le (e + 1074) 2045 ltac:(lia) ltac:(lia)).
  assert (Hsplit : 2 ^ 2100 = 2 ^ 53 * 2 ^ 2047)
    by (rewrite <- Z.pow_add_r by lia; done).
  pose proof (pow2_lt 2045 2047 ltac:(lia) ltac:(lia)).
  split; [nia|]. rewrite Hsplit. nia.
Qed.

Lemma Omega_above : 2 ^ 2100 < 2 ^ 2150 ∧ 2 * 2 ^ 2150 < Omega.
Proof.
  split; [apply pow2_lt; lia|]. unfold Omega.
  rewrite <- Z.pow_succ_r by lia. apply pow2_lt; lia.
Qed.

Lemma magnitude_range V : 0 < V → 0 < magnitude V ≤ Omega.
Proof.
  intros HV. destruct (mantissa_exponent_range V HV) as (Hm & He & _).
  pose proof Omega_above. unfold magnitude.
  destruct (Z.leb_spec (exponent_of V) 971); [|lia].
  pose proof (finite_below (mantissa_of V) (exponent_of V) Hm ltac:(lia)). lia.
Qed.

Lemma magnitude_monotone V V' : 0 < V → V ≤ V' → magnitude V ≤ magnitude V'.
Proof.
  intros HV Hle.
  destruct (mantissa_exponent_range V HV) as (Hm & He & _).
  destruct (mantissa_exponent_range V' ltac:(lia)) as (Hm' & He' & Hn').
  pose proof Omega_above. pose proof pow2_53. pose proof pow2_52.
  pose proof (mantissa_exponent_monotone V V' HV Hle) as Hlex. unfold magnitude.
  destruct (Z.leb_spec (exponent_of V) 971), (Z.leb_spec (exponent_of V') 971); try lia.
  - destruct Hlex as [Hlt|[-> Hmant]].
    + assert (0 < 2 ^ (exponent_of V + 1074)) by (apply Z.pow_pos_nonneg; lia).
      assert (2 * 2 ^ (exponent_of V + 1074) ≤ 2 ^ (exponent_of V' + 1074)).
      { rewrite <- Z.pow_succ_r by lia. apply pow2_le; lia. }
      specialize (Hn' ltac:(lia)). nia.
    + assert (0 < 2 ^ (exponent_of V' + 1074)) by (apply Z.pow_pos_nonneg; lia). nia.
  - pose proof (finite_below (mantissa_of V) (exponent_of V) Hm ltac:(lia)). lia.
Qed.

Lemma key_rounded (s : bool) V : 0 < V → key (rounded s V) = cond_Zopp s (magnitude V).
Proof.
  intros HV. destruct (mantissa_exponent_range V HV) as (Hm & _).
  rewrite rounded_spec by done. unfold magnitude.
  destruct (exponent_of V <=? 971); [|done].
  unfold key, value_of, cond_Zopp. rewrite Z2Pos.id by lia. destruct s; ring.
Qed.

Lemma key_normalized v :
  key (normalized v) = if v =? 0 then 0 else if 0 <? v then magnitude v else - magnitude (- v).
Proof.
  unfold normalized. destruct (Z.eqb_spec v 0) as [Hv|Hv]; [done|].
  destruct (Z.ltb_spec 0 v) as [Hp|Hp]; by rewrite key_rounded by lia.
Qed.

Lemma key_normalized_monotone v v' : v ≤ v' → key (normalized v) ≤ key (normalized v').
Proof.
  intros Hle. rewrite !key_normalized.
  destruct (Z.eqb_spec v 0) as [Hv|Hv], (Z.eqb_spec v' 0) as [Hv'|Hv'],
           (Z.ltb_spec 0 v) as [Hp|Hp], (Z.ltb_spec 0 v') as [Hp'|Hp']; try lia.
  - pose proof (magnitude_range v'). lia.
  - pose proof (magnitude_range (- v)). lia.
  - by apply magnitude_monotone.
  - pose proof (magnitude_range (- v)). pose proof (magnitude_range v'). lia.
  - pose proof (magnitude_monotone (- v') (- v)). lia.
Qed.

Lemma key_normalized_range v : - Omega ≤ key (normalized v) ≤ Omega.
Proof.
  rewrite key_normalized. pose proof Omega_above.
  destruct (Z.eqb_spec v 0) as [Hv|Hv]; [unfold Omega in *; lia|].
  destruct (Z.ltb_spec 0 v) as [Hp|Hp].
  - pose proof (magnitude_range v). lia.
  - pose proof (magnitude_range (- v)). lia.
Qed.

Lemma key_plus_zero x : key (plus_zero x) = key x.
Proof. by destruct x. Qed.

Lemma valid_mantissa (s : bool) (m : positive) (e : Z) :
  valid_binary (S754_finite s m e) = true → 0 < Zpos m < 2 ^ 53 ∧ -1074 ≤ e ≤ 971.
Proof.
  intros [Hc He]%valid_finite. split; [|done]. split; [done|].
  rewrite fexp_spec in Hc.
  pose proof (digits_bounds (Zpos m) ltac:(done)) as [_ Hhi].
  pose proof (digits_pos (Zpos m) ltac:(done)) as Hlo.
  generalize dependent (digits (Zpos m)). intros d Hc Hhi Hlo.
  eapply Z.lt_le_trans; [exact Hhi|]. apply pow2_le; lia.
Qed.

Lemma key_finite_range x :
  valid_binary x = true → is_finite x = true → - 2 ^ 2100 < key x < 2 ^ 2100.
Proof.
  intros Hv Hf. destruct x as [s| | |s m e]; [| done | done |].
  - unfold key. assert (0 < 2 ^ 2100) by (apply Z.pow_pos_nonneg; lia). lia.
  - destruct (valid_mantissa s m e Hv) as [Hm He].
    pose proof (finite_below (Zpos m) e Hm He).
    unfold key, value_of, cond_Zopp. destruct s; lia.
Qed.

(** A valid finite float is its own rounding. *)
Lemma valid_mant_expo (s : bool) (m : positive) (e : Z) :
  valid_binary (S754_finite s m e) = true →
  mantissa_of (Zpos m * 2 ^ (e + 1074)) = Zpos m ∧ exponent_of (Zpos m * 2 ^ (e + 1074)) = e.
Proof.
  intros Hv. pose proof (valid_finite s m e Hv) as [_ He].
  assert (HV : 0 < Zpos m * 2 ^ (e + 1074)).
  { assert (0 < 2 ^ (e + 1074)) by (apply Z.pow_pos_nonneg; lia). lia. }
  pose proof (binary_round_valid s m e Hv) as Hr.
  rewrite binary_round_rounded, rounded_spec in Hr by lia.
  destruct (mantissa_exponent_range _ HV) as (Hm & _).
  destruct (_ <=? _); [|done]. injection Hr as Hm' He'.
  split; [|done]. apply (f_equal Zpos) in Hm'. by rewrite Z2Pos.id in Hm' by lia.
Qed.

End Keys.

Section Order.
Local Open Scope Z_scope.

Lemma Omega_pos : 0 < Omega.
Proof. apply Z.pow_pos_nonneg; lia. Qed.

(** On valid finite floats of one sign, comparing exponents and then
    mantissas is comparing values. *)
Lemma lex_compare (s1 s2 : bool) (m1 m2 : positive) (e1 e2 : Z) :
  valid_binary (S754_finite s1 m1 e1) = true →
  valid_binary (S754_finite s2 m2 e2) = true →
  match e1 ?= e2 with
  | Eq => (m1 ?= m2)%positive
  | c => c
  end = (Zpos m1 * 2 ^ (e1 + 1074) ?= Zpos m2 * 2 ^ (e2 + 1074)).
Proof.
  intros Hv1 Hv2.
  destruct (valid_mant_expo _ _ _ Hv1) as [Hm1 He1].
  destruct (valid_mant_expo _ _ _ Hv2) as [Hm2 He2].
  pose proof (valid_finite _ _ _ Hv1) as [_ Hr1].
  pose proof (valid_finite _ _ _ Hv2) as [_ Hr2].
  set (V1 := Zpos m1 * 2 ^ (e1 + 1074)) in *.
  set (V2 := Zpos m2 * 2 ^ (e2 + 1074)) in *.
  assert (HV1 : 0 < V1).
  { assert (0 < 2 ^ (e1 + 1074)) by (apply Z.pow_pos_nonneg; lia). subst V1. lia. }
  assert (HV2 : 0 < V2).
  { assert (0 < 2 ^ (e2 + 1074)) by (apply Z.pow_pos_nonneg; lia). subst V2. lia. }
  change (m1 ?= m2)%positive with (Zpos m1 ?= Zpos m2).
  destruct (Z.compare_spec V1 V2) as [Heq|Hlt|Hgt].
  - rewrite <- He1, <- He2, <- Hm1, <- Hm2, Heq, !Z.compare_refl. done.
  - destruct (mantissa_exponent_monotone V1 V2 HV1 ltac:(lia)) as [He|[He Hm]].
    + rewrite He1, He2 in He. by rewrite (proj2 (Z.compare_lt_iff _ _) He).
    + rewrite He1, He2 in He. rewrite Hm1, Hm2 in Hm.
      rewrite (proj2 (Z.compare_eq_iff _ _) He).
      apply Z.compare_lt_iff.
      destruct (Z.eq_dec (Zpos m1) (Zpos m2)) as [Hmm|]; [|lia].
      subst V1 V2. rewrite He, Hmm in Hlt. lia.
  - destruct (mantissa_exponent_monotone V2 V1 HV2 ltac:(lia)) as [He|[He Hm]].
    + rewrite He1, He2 in He. by rewrite (proj2 (Z.compare_gt_iff _ _) He).
    + rewrite He1, He2 in He. rewrite Hm1, Hm2 in Hm.
      rewrite (proj2 (Z.compare_eq_iff _ _) (eq_sym He)).
      apply Z.compare_gt_iff.
      destruct (Z.eq_dec (Zpos m1) (Zpos m2)) as [Hmm|]; [|lia].
      subst V1 V2. rewrite He, Hmm in Hgt. lia.
Qed.

(** [SFcompare] on valid floats that are not NaN compares their keys. *)
Lemma SFcompare_key x y :
  valid_binary x = true → valid_binary y = true →
  is_nan x = false → is_nan y = false →
  SFcompare x y = Some (key x ?= key y).
Proof.
  intros Hx Hy Hnx Hny. pose proof Omega_pos. pose proof Omega_above.
  destruct x as [s1|s1| |s1 m1 e1], y as [s2|s2| |s2 m2 e2]; try done.
  - unfold SFcompare, key, cond_Zopp. f_equal. symmetry.
    destruct s2; [apply Z.compare_gt_iff|apply Z.compare_lt_iff]; lia.
  - pose proof (key_finite_range _ Hy eq_refl) as Hk.
    destruct (valid_mantissa _ _ _ Hy) as [Hm He].
    pose proof (finite_below _ _ Hm He).
    unfold SFcompare, key, value_of, cond_Zopp in *. f_equal. symmetry.
    destruct s2; [apply Z.compare_gt_iff|apply Z.compare_lt_iff]; lia.
  - unfold SFcompare, key, cond_Zopp. f_equal. symmetry.
    destruct s1; [apply Z.compare_lt_iff|apply Z.compare_gt_iff]; lia.
  - unfold SFcompare, key, cond_Zopp. f_equal. symmetry.
    destruct s1, s2;
      [apply Z.compare_eq_iff|apply Z.compare_lt_iff
      |apply Z.compare_gt_iff|apply Z.compare_eq_iff]; lia.
  - pose proof (key_finite_range _ Hy eq_refl) as Hk.
    unfold SFcompare. unfold key at 1. unfold cond_Zopp. f_equal. symmetry.
    destruct s1; [apply Z.compare_lt_iff|apply Z.compare_gt_iff]; lia.
  - destruct (valid_mantissa _ _ _ Hx) as [Hm He].
    pose proof (finite_below _ _ Hm He).
    unfold SFcompare, key, value_of, cond_Zopp in *. f_equal. symmetry.
    destruct s1; [apply Z.compare_lt_iff|apply Z.compare_gt_iff]; lia.
  - pose proof (key_finite_range _ Hx eq_refl) as Hk.
    unfold SFcompare. unfold key at 2. unfold cond_Zopp. f_equal. symmetry.
    destruct s2; [apply Z.compare_gt_iff|apply Z.compare_lt_iff]; lia.
  - destruct (valid_mantissa _ _ _ Hx) as [Hm1 He1].
    destruct (valid_mantissa _ _ _ Hy) as [Hm2 He2].
    pose proof (finite_below _ _ Hm1 He1). pose proof (finite_below _ _ Hm2 He2).
    pose proof (lex_compare _ _ _ _ _ _ Hx Hy) as Hlex.
    unfold SFcompare. change (Pos.compare_cont Eq) with Pos.compare.
    unfold key, value_of, cond_Zopp. f_equal.
    destruct s1, s2.
    + rewrite Z.mul_opp_l, (Z.mul_opp_l (Zpos m2)), Z.compare_opp.
      rewrite (Z.compare_antisym (Zpos m1 * _)), <- Hlex.
      by destruct (e1 ?= e2), (m1 ?= m2)%positive.
    + symmetry. apply Z.compare_lt_iff. lia.
    + symmetry. apply Z.compare_gt_iff. lia.
    + rewrite <- Hlex. by destruct (e1 ?= e2).
Qed.

Lemma key_round_monotone v v' : v ≤ v' → key_round v ≤ key_round v'.
Proof.
  intros Hle. unfold key_round. pose proof Omega_pos.
  pose proof (key_normalized_range v). pose proof (key_normalized_range v').
  pose proof (key_normalized_monotone v v' Hle).
  assert (0 < 2 ^ 2150) by (apply Z.pow_pos_nonneg; lia).
  destruct (Z.leb_spec (2 ^ 2150) v), (Z.leb_spec (2 ^ 2150) v'),
           (Z.leb_spec v (- 2 ^ 2150)), (Z.leb_spec v' (- 2 ^ 2150)); lia.
Qed.

Lemma key_range x :
  valid_binary x = true → is_nan x = false → - Omega ≤ key x ≤ Omega.
Proof.
  intros Hv Hn. pose proof Omega_pos. pose proof Omega_above.
  destruct x as [s|s| |s m e]; [| |done|].
  - unfold key. lia.
  - unfold key, cond_Zopp. destruct s; lia.
  - pose proof (key_finite_range _ Hv eq_refl). lia.
Qed.

Lemma key_value_of x : is_finite x = true → key x = value_of x.
Proof. by destruct x. Qed.

Lemma key_round_key x : valid_binary x = true → is_nan x = false → key_round (key x) = key x.
Proof.
  intros Hv Hn. pose proof Omega_pos. pose proof Omega_above. unfold key_round.
  destruct (is_finite x) eqn:Hf.
  - pose proof (key_finite_range x Hv Hf).
    destruct (Z.leb_spec (2 ^ 2150) (key x)); [lia|].
    destruct (Z.leb_spec (key x) (- 2 ^ 2150)); [lia|].
    rewrite (key_value_of x Hf), normalized_value_of, key_plus_zero by done. by apply key_value_of.
  - destruct x as [s|s| |s m e]; try done. unfold key, cond_Zopp. destruct s.
    + destruct (Z.leb_spec (2 ^ 2150) (- Omega)); [lia|].
      destruct (Z.leb_spec (- Omega) (- 2 ^ 2150)); [done|lia].
    + destruct (Z.leb_spec (2 ^ 2150) Omega); [done|lia].
Qed.

Lemma is_nan_normalized v : is_nan (normalized v) = false.
Proof.
  unfold normalized. destruct (Z.eqb_spec v 0) as [Hv|Hv]; [done|].
  destruct (Z.ltb_spec 0 v) as [Hp|Hp].
  - destruct (rounded_shape false v) as [(m & e & ->)| ->]; [lia|done..].
  - destruct (rounded_shape true (- v)) as [(m & e & ->)| ->]; [lia|done..].
Qed.

Lemma is_nan_plus_zero x : is_nan (plus_zero x) = is_nan x.
Proof. by destruct x. Qed.

Lemma key_round_above v : 2 ^ 2150 ≤ v → key_round v = Omega.
Proof. intros Hv. unfold key_round. destruct (Z.leb_spec (2 ^ 2150) v); [done|lia]. Qed.

Lemma key_round_below v : v ≤ - 2 ^ 2150 → key_round v = - Omega.
Proof.
  intros Hv. unfold key_round. assert (0 < 2 ^ 2150) by (apply Z.pow_pos_nonneg; lia).
  destruct (Z.leb_spec (2 ^ 2150) v); [lia|].
  destruct (Z.leb_spec v (- 2 ^ 2150)); [done|lia].
Qed.

Lemma key_round_within v : - 2 ^ 2150 < v < 2 ^ 2150 → key_round v = key (normalized v).
Proof.
  intros Hv. unfold key_round.
  destruct (Z.leb_spec (2 ^ 2150) v); [lia|].
  destruct (Z.leb_spec v (- 2 ^ 2150)); [lia|done].
Qed.

Lemma key_infinity (s : bool) : key (S754_infinity s) = cond_Zopp s Omega.
Proof. done. Qed.

(** Subtraction, on keys. *)
Lemma SFsub_key x y :
  valid_binary x = true → valid_binary y = true →
  is_nan x = false → is_nan y = false →
  (is_nan (SFsub prec emax x y) = false
   ∧ key (SFsub prec emax x y) = key_round (key x - key y))
  ∨ (is_nan (SFsub prec emax x y) = true
     ∧ key x = key y ∧ (key x = Omega ∨ key x = - Omega)).
Proof.
  intros Hx Hy Hnx Hny. pose proof Omega_pos. pose proof Omega_above.
  destruct (is_finite x) eqn:Hfx, (is_finite y) eqn:Hfy.
  - left. pose proof (SFsub_finite x y Hx Hy Hfx Hfy) as Hs. split.
    + by rewrite <- is_nan_plus_zero, Hs, is_nan_normalized.
    + rewrite <- key_plus_zero, Hs.
      pose proof (key_finite_range x Hx Hfx). pose proof (key_finite_range y Hy Hfy).
      rewrite (key_value_of x Hfx), (key_value_of y Hfy) in *.
      rewrite key_round_within by lia. done.
  - left. pose proof (key_finite_range x Hx Hfx).
    destruct y as [s|s| |s m e]; try done.
    assert (Hs : SFsub prec emax x (S754_infinity s) = S754_infinity (negb s))
      by by destruct x.
    rewrite Hs, !key_infinity. split; [done|]. unfold cond_Zopp. destruct s; simpl.
    + rewrite key_round_above by lia. done.
    + rewrite key_round_below by lia. done.
  - left. pose proof (key_finite_range y Hy Hfy).
    destruct x as [s|s| |s m e]; try done.
    assert (Hs : SFsub prec emax (S754_infinity s) y = S754_infinity s)
      by by destruct y.
    rewrite Hs, !key_infinity. split; [done|]. unfold cond_Zopp. destruct s.
    + rewrite key_round_below by lia. done.
    + rewrite key_round_above by lia. done.
  - destruct x as [s|s| |s m e], y as [s'|s'| |s' m' e']; try done.
    rewrite !key_infinity. unfold cond_Zopp. destruct s, s'; simpl.
    + right. auto.
    + left. split; [done|]. rewrite key_round_below by lia. done.
    + left. split; [done|]. rewrite key_round_above by lia. done.
    + right. auto.
Qed.

(** Addition, on keys. *)
Lemma SFadd_key x y :
  valid_binary x = true → valid_binary y = true →
  is_nan x = false → is_nan y = false →
  (is_nan (SFadd prec emax x y) = false
   ∧ key (SFadd prec emax x y) = key_round (key x + key y))
  ∨ (is_nan (SFadd prec emax x y) = true
     ∧ key x = - key y ∧ (key x = Omega ∨ key x = - Omega)).
Proof.
  intros Hx Hy Hnx Hny. pose proof Omega_pos. pose proof Omega_above.
  destruct (is_finite x) eqn:Hfx, (is_finite y) eqn:Hfy.
  - left. pose proof (SFadd_finite x y Hx Hy Hfx Hfy) as Hs. split.
    + by rewrite <- is_nan_plus_zero, Hs, is_nan_normalized.
    + rewrite <- key_plus_zero, Hs.
      pose proof (key_finite_range x Hx Hfx). pose proof (key_finite_range y Hy Hfy).
      rewrite (key_value_of x Hfx), (key_value_of y Hfy) in *.
      rewrite key_round_within by lia. done.
  - left. pose proof (key_finite_range x Hx Hfx).
    destruct y as [s|s| |s m e]; try done.
    assert (Hs : SFadd prec emax x (S754_infinity s) = S754_infinity s)
      by by destruct x.
    rewrite Hs, !key_infinity. split; [done|]. unfold cond_Zopp. destruct s.
    + rewrite key_round_below by lia. done.
    + rewrite key_round_above by lia. done.
  - left. pose proof (key_finite_range y Hy Hfy).
    destruct x as [s|s| |s m e]; try done.
    assert (Hs : SFadd prec emax (S754_infinity s) y = S754_infinity s)
      by by destruct y.
    rewrite Hs, !key_infinity. split; [done|]. unfold cond_Zopp. destruct s.
    + rewrite key_round_below by lia. done.
    + rewrite key_round_above by lia. done.
  - destruct x as [s|s| |s m e], y as [s'|s'| |s' m' e']; try done.
    rewrite !key_infinity. unfold cond_Zopp. destruct s, s'; simpl.
    + left. split; [done|]. rewrite key_round_below by lia. done.
    + right. split; [done|]. split; [lia|auto].
    + right. split; [done|]. split; [lia|auto].
    + left. split; [done|]. rewrite key_round_above by lia. done.
Qed.

End Order.

Section Floats.
Local Open Scope Z_scope.

Lemma key_cases x :
  valid_binary x = true → is_nan x = false →
  x = S754_infinity false ∨ x = S754_infinity true
  ∨ (is_finite x = true ∧ - 2 ^ 2100 < key x < 2 ^ 2100).
Proof.
  intros Hv Hn. destruct x as [s|[|]| |s m e]; try done; auto.
  - right. right. split; [done|]. by apply key_finite_range.
  - right. right. split; [done|]. by apply key_finite_range.
Qed.

Lemma SFsub_nan x y :
  valid_binary x = true → valid_binary y = true →
  is_nan x = false → is_nan y = false →
  is_nan (SFsub prec emax x y) = cancels (key x) (key y).
Proof.
  intros Hx Hy Hnx Hny. pose proof Omega_pos. pose proof Omega_above.
  destruct (SFsub_key x y Hx Hy Hnx Hny) as [[Hn _]|(Hn & Hk & Ho)]; rewrite Hn.
  - symmetry. unfold cancels. apply andb_false_iff.
    destruct (Z.eqb_spec (key x) (key y)) as [Heq|]; [right|by left].
    apply orb_false_iff.
    destruct (key_cases x Hx Hnx) as [->|[->|[Hfx Hrx]]],
             (key_cases y Hy Hny) as [->|[->|[Hfy Hry]]];
      try done; rewrite ?key_infinity in *; unfold cond_Zopp in *;
      split; apply Z.eqb_neq; lia.
  - symmetry. unfold cancels. rewrite Hk, Z.eqb_refl. simpl. rewrite <- Hk.
    apply orb_true_iff. destruct Ho as [->| ->]; rewrite Z.eqb_refl; auto.
Qed.

Lemma SFadd_nan x y :
  valid_binary x = true → valid_binary y = true →
  is_nan x = false → is_nan y = false →
  is_nan (SFadd prec emax x y) = cancels (key x) (- key y).
Proof.
  intros Hx Hy Hnx Hny. pose proof Omega_pos. pose proof Omega_above.
  destruct (SFadd_key x y Hx Hy Hnx Hny) as [[Hn _]|(Hn & Hk & Ho)]; rewrite Hn.
  - symmetry. unfold cancels. apply andb_false_iff.
    destruct (Z.eqb_spec (key x) (- key y)) as [Heq|]; [right|by left].
    apply orb_false_iff.
    destruct (key_cases x Hx Hnx) as [->|[->|[Hfx Hrx]]],
             (key_cases y Hy Hny) as [->|[->|[Hfy Hry]]];
      try done; rewrite ?key_infinity in *; unfold cond_Zopp in *;
      split; apply Z.eqb_neq; lia.
  - symmetry. unfold cancels. rewrite <- Hk, Z.eqb_refl. simpl.
    apply orb_true_iff. destruct Ho as [->| ->]; rewrite Z.eqb_refl; auto.
Qed.

Lemma ltb_key (a b : float) :
  PrimFloat.ltb a b = true ↔ fnan a = false ∧ fnan b = false ∧ fkey a < fkey b.
Proof.
  rewrite ltb_spec. unfold SFltb, fnan, fkey.
  destruct (is_nan (Prim2SF a)) eqn:Ha.
  { destruct (Prim2SF a); try done. simpl. split; [done|]. by intros (? & _). }
  destruct (is_nan (Prim2SF b)) eqn:Hb.
  { destruct (Prim2SF b); try done. destruct (Prim2SF a); simpl;
      (split; [done|]); by intros (_ & ? & _). }
  rewrite SFcompare_key by auto using Prim2SF_valid.
  destruct (Z.compare_spec (key (Prim2SF a)) (key (Prim2SF b)));
    split; try done; try lia; intros (_ & _ & ?); lia.
Qed.

Lemma leb_key (a b : float) :
  PrimFloat.leb a b = true ↔ fnan a = false ∧ fnan b = false ∧ fkey a ≤ fkey b.
Proof.
  rewrite leb_spec. unfold SFleb, fnan, fkey.
  destruct (is_nan (Prim2SF a)) eqn:Ha.
  { destruct (Prim2SF a); try done. simpl. split; [done|]. by intros (? & _). }
  destruct (is_nan (Prim2SF b)) eqn:Hb.
  { destruct (Prim2SF b); try done. destruct (Prim2SF a); simpl;
      (split; [done|]); by intros (_ & ? & _). }
  rewrite SFcompare_key by auto using Prim2SF_valid.
  destruct (Z.compare_spec (key (Prim2SF a)) (key (Prim2SF b)));
    split; try done; try lia; intros (_ & _ & ?); lia.
Qed.

Lemma fnan_sub (a b : float) :
  fnan (a - b) = fnan a || fnan b || cancels (fkey a) (fkey b).
Proof.
  unfold fnan, fkey. rewrite sub_spec.
  destruct (is_nan (Prim2SF a)) eqn:Ha; [by destruct (Prim2SF a)|].
  destruct (is_nan (Prim2SF b)) eqn:Hb;
    [by destruct (Prim2SF b); try done; destruct (Prim2SF a)|].
  by apply SFsub_nan; auto using Prim2SF_valid.
Qed.

Lemma fnan_add (a b : float) :
  fnan (a + b) = fnan a || fnan b || cancels (fkey a) (- fkey b).
Proof.
  unfold fnan, fkey. rewrite add_spec.
  destruct (is_nan (Prim2SF a)) eqn:Ha; [by destruct (Prim2SF a)|].
  destruct (is_nan (Prim2SF b)) eqn:Hb;
    [by destruct (Prim2SF b); try done; destruct (Prim2SF a)|].
  by apply SFadd_nan; auto using Prim2SF_valid.
Qed.

Lemma fkey_sub (a b : float) :
  fnan (a - b) = false → fkey (a - b) = key_round (fkey a - fkey b).
Proof.
  intros Hn. pose proof Hn as Hn'. rewrite fnan_sub in Hn'.
  apply orb_false_iff in Hn' as [[Ha Hb]%orb_false_iff _].
  unfold fnan, fkey in *. rewrite sub_spec in *. unfold SF64sub in *.
  destruct (SFsub_key (Prim2SF a) (Prim2SF b)) as [[_ Hk]|[Hn'' _]];
    auto using Prim2SF_valid; congruence.
Qed.

Lemma fkey_add (a b : float) :
  fnan (a + b) = false → fkey (a + b) = key_round (fkey a + fkey b).
Proof.
  intros Hn. pose proof Hn as Hn'. rewrite fnan_add in Hn'.
  apply orb_false_iff in Hn' as [[Ha Hb]%orb_false_iff _].
  unfold fnan, fkey in *. rewrite add_spec in *. unfold SF64add in *.
  destruct (SFadd_key (Prim2SF a) (Prim2SF b)) as [[_ Hk]|[Hn'' _]];
    auto using Prim2SF_valid; congruence.
Qed.

Lemma fkey_cases (a : float) :
  fnan a = false →
  fkey a = Omega ∨ fkey a = - Omega ∨ - 2 ^ 2100 < fkey a < 2 ^ 2100.
Proof.
  intros Hn. unfold fkey.
  destruct (key_cases (Prim2SF a) (Prim2SF_valid a) Hn) as [->|[->|[_ ?]]]; auto.
Qed.

Lemma key_round_fkey (a : float) : fnan a = false → key_round (fkey a) = fkey a.
Proof. intros Hn. apply key_round_key; [apply Prim2SF_valid|done]. Qed.

Lemma cancels_false k1 k2 :
  cancels k1 k2 = false ↔ ¬ (k1 = k2 ∧ (k1 = Omega ∨ k1 = - Omega)).
Proof.
  unfold cancels.
  destruct (Z.eqb_spec k1 k2), (Z.eqb_spec k1 Omega), (Z.eqb_spec k1 (- Omega));
    simpl; split; try done; try tauto; intros Hc; exfalso; apply Hc; auto.
Qed.

(** The laws of order that the scan needs, on binary64. *)
Lemma float_ltb_leb_trans (a b c : float) :
  PrimFloat.ltb a b = true → PrimFloat.leb b c = true → PrimFloat.ltb a c = true.
Proof. rewrite !ltb_key, leb_key. intros (? & ? & ?) (? & ? & ?). repeat split; auto; lia. Qed.

Lemma float_sub_zero (p : float) : (p - 0)%float = p.
Proof.
  apply Prim2SF_inj. rewrite sub_spec.
  change (Prim2SF 0) with (S754_zero false). by destruct (Prim2SF p) as [[|]|[|]| |].
Qed.

Lemma float_sub_le_l (p p' b t : float) :
  PrimFloat.leb p' p = true →
  PrimFloat.ltb (p - b) t = true → PrimFloat.ltb (p' - b) t = true.
Proof.
  rewrite !ltb_key, leb_key. intros (Np' & Np & Hle) (Nd & Nt & Hlt).
  pose proof Omega_pos. pose proof Omega_above.
  pose proof (fkey_sub p b Nd) as Hd. rewrite fnan_sub in Nd.
  apply orb_false_iff in Nd as [[_ Nb]%orb_false_iff Hc%cancels_false].
  pose proof (fkey_cases p Np). pose proof (fkey_cases p' Np').
  pose proof (fkey_cases b Nb). pose proof (fkey_cases t Nt).
  assert (Nd' : fnan (p' - b) = false).
  { rewrite fnan_sub, Np', Nb. simpl. apply cancels_false. intros [Heq Hinf].
    destruct Hinf as [Hinf|Hinf].
    - apply Hc. lia.
    - rewrite key_round_above in Hd by lia. lia. }
  split; [done|]. split; [done|]. rewrite fkey_sub by done.
  pose proof (key_round_monotone (fkey p' - fkey b) (fkey p - fkey b) ltac:(lia)). lia.
Qed.

Lemma float_sub_add_nonneg (p b w t : float) :
  PrimFloat.leb 0 w = true →
  PrimFloat.ltb (p - b) t = true → PrimFloat.ltb (p - (b + w)) t = true.
Proof.
  rewrite !ltb_key, leb_key. intros (_ & Nw & Hw) (Nd & Nt & Hlt).
  change (fkey 0) with 0 in Hw.
  pose proof Omega_pos. pose proof Omega_above.
  pose proof (fkey_sub p b Nd) as Hd. rewrite fnan_sub in Nd.
  apply orb_false_iff in Nd as [[Np Nb]%orb_false_iff Hc%cancels_false].
  pose proof (fkey_cases p Np). pose proof (fkey_cases w Nw).
  pose proof (fkey_cases b Nb). pose proof (fkey_cases t Nt).
  assert (Nc : fnan (b + w) = false).
  { rewrite fnan_add, Nb, Nw. simpl. apply cancels_false. intros [Heq Hinf].
    assert (fkey p ≠ - Omega) by (intros ?; apply Hc; lia).
    rewrite key_round_above in Hd by lia. lia. }
  pose proof (fkey_add b w Nc) as Hkc.
  pose proof (key_round_monotone (fkey b) (fkey b + fkey w) ltac:(lia)) as Hmono.
  rewrite key_round_fkey in Hmono by done. rewrite <- Hkc in Hmono.
  pose proof (fkey_cases (b + w) Nc).
  assert (Nd' : fnan (p - (b + w)) = false).
  { rewrite fnan_sub, Np, Nc. simpl. apply cancels_false. intros [Heq Hinf].
    destruct Hinf as [Hinf|Hinf].
    - assert (fkey b ≠ Omega) by (intros ?; apply Hc; lia).
      rewrite key_round_above in Hd by lia. lia.
    - apply Hc. lia. }
  split; [done|]. split; [done|]. rewrite fkey_sub by done.
  pose proof (key_round_monotone (fkey p - fkey (b + w)) (fkey p - fkey b) ltac:(lia)). lia.
Qed.

End Floats.

#[export] Instance float_JSOrder : JSOrder float := {|
  num_leb := PrimFloat.leb;
  num_ltb_leb_trans := float_ltb_leb_trans;
  num_sub_zero := float_sub_zero;
  num_sub_le_l := float_sub_le_l;
  num_sub_add_nonneg := float_sub_add_nonneg
|}.

Section Scan.
Context {num : Type} `{JSNumber num}.
Implicit Types (this : Collapsible num) (s : state num).

Lemma scan_bounds pageWidth threshold dims pending :
  ∀ i amount width,
    amount ≤ scan pageWidth threshold dims pending i amount width
           ≤ amount + length pending.
Proof.
  induction pending as [|x rest IH]; intros i amount width; simpl; [lia|].
  destruct (dims !! i) as [w|]; [|lia].
  destruct (num_ltb _ _); [lia|].
  specialize (IH (S i) (S amount) (num_add width w)). lia.
Qed.

Lemma running_sum_step (dims : list num) i w :
  dims !! i = Some w →
  num_add (foldl num_add num_zero (take i dims)) w = running_sum dims i.
Proof.
  intros Hw. unfold running_sum.
  rewrite (take_S_r _ _ _ Hw), foldl_app. reflexivity.
Qed.

(** The loop, started at item [i] with the widths of the items before [i]
    summed, adds to [amount] the length of the longest run of fitting
    items from [i] on. *)
Lemma scan_run pageWidth threshold dims pending :
  ∀ i amount,
    i + length pending = length dims →
    ∃ run,
      scan pageWidth threshold dims pending i amount
           (foldl num_add num_zero (take i dims)) = amount + run
      ∧ run ≤ length pending
      ∧ (∀ j, i ≤ j < i + run → fits pageWidth threshold dims j = true)
      ∧ (run < length pending → fits pageWidth threshold dims (i + run) = false).
Proof.
  induction pending as [|x rest IH]; intros i amount Hlen; simpl in *.
  { exists 0. repeat split; intros; lia. }
  destruct (lookup_lt_is_Some_2 dims i) as [w Hw]; [lia|].
  rewrite Hw, (running_sum_step _ _ _ Hw).
  destruct (num_ltb (num_sub pageWidth (running_sum dims i)) threshold) eqn:Hlt.
  - exists 0. rewrite !Nat.add_0_r. repeat split; intros; try lia.
    unfold fits, available. rewrite Hlt. reflexivity.
  - unfold running_sum.
    destruct (IH (S i) (S amount)) as (run & Hrun & Hle & Hfit & Hstop); [lia|].
    exists (S run). rewrite Hrun. repeat split; try lia.
    + intros j Hj. destruct (decide (j = i)) as [->|Hne].
      * unfold fits, available. rewrite Hlt. reflexivity.
      * apply Hfit. lia.
    + intros Hlt'. replace (i + S run) with (S i + run) by lia.
      apply Hstop. lia.
Qed.

End Scan.

(** ** The count and the order of numbers *)

Section ScanOrder.
Context {num : Type} `{JSOrder num}.

(** A wider page, or a threshold that fewer numbers are below, lets at
    least as many items fit. *)
Lemma scan_monotone (dims : list num) (pending : list node) :
  ∀ (i amount : nat) (width pw pw' th th' : num),
    num_leb pw pw' = true →
    (∀ a, num_ltb a th' = true → num_ltb a th = true) →
    scan pw th dims pending i amount width ≤ scan pw' th' dims pending i amount width.
Proof.
  induction pending as [|x rest IH]; intros i amount width pw pw' th th' Hpw Hth;
    simpl; [lia|].
  destruct (dims !! i) as [w|]; [|lia].
  destruct (num_ltb (num_sub pw' (num_add width w)) th') eqn:Hwide.
  - rewrite (Hth _ (num_sub_le_l _ _ _ _ Hpw Hwide)). lia.
  - destruct (num_ltb (num_sub pw (num_add width w)) th).
    + pose proof (scan_bounds pw' th' dims rest (S i) (S amount) (num_add width w)). lia.
    + by apply IH.
Qed.

(** Once the space left is below the threshold it stays below, whatever
    widths that are not negative are added. *)
Lemma breach_persists (p t : num) (l : list num) :
  ∀ a,
    (∀ w, w ∈ l → num_leb num_zero w = true) →
    num_ltb (num_sub p a) t = true →
    num_ltb (num_sub p (foldl num_add a l)) t = true.
Proof.
  induction l as [|w l IH]; intros a Hl Ha; simpl; [done|].
  apply IH; [intros; apply Hl; by right|].
  apply num_sub_add_nonneg; [apply Hl; by left|done].
Qed.

Lemma running_sum_later (dims : list num) (j j' : nat) :
  j ≤ j' →
  running_sum dims j' = foldl num_add (running_sum dims j) (drop (S j) (take (S j') dims)).
Proof.
  intros Hj. unfold running_sum.
  rewrite <- (take_drop (S j) (take (S j') dims)) at 1.
  rewrite take_take, foldl_app.
  by replace (S j `min` S j') with (S j) by lia.
Qed.

Lemma breach_later (p t : num) (dims : list num) (j j' : nat) :
  (∀ w, w ∈ dims → num_leb num_zero w = true) → j ≤ j' →
  fits p t dims j = false → fits p t dims j' = false.
Proof.
  intros Hdims Hj. unfold fits, available. rewrite !negb_false_iff.
  rewrite (running_sum_later dims j j' Hj). apply breach_persists.
  intros w Hw. apply Hdims.
  apply list_elem_of_lookup_1 in Hw as [k Hk]. rewrite lookup_drop in Hk.
  apply lookup_take_Some in Hk as [Hk _]. eauto using list_elem_of_lookup_2.
Qed.

(** A threshold above the page width leaves no room for a first item
    whose width is not negative. *)
Lemma no_room_at_all (p t : num) (dims : list num) :
  (∀ w, w ∈ dims → num_leb num_zero w = true) →
  num_ltb p t = true → fits p t dims 0 = false.
Proof.
  intros Hdims Hover. unfold fits, available, running_sum.
  rewrite negb_false_iff. apply breach_persists.
  - intros w [k [Hk _]%lookup_take_Some]%list_elem_of_lookup_1.
    eauto using list_elem_of_lookup_2.
  - by rewrite num_sub_zero.
Qed.

End ScanOrder.

(** ** Class lists and the [hide] class *)

Section Hide.
Context {num : Type}.
Implicit Types (s : state num) (n m : node).


Lemma token_add_elem c x cl : x ∈ token_add c cl ↔ x = c ∨ x ∈ cl.
Proof.
  unfold token_add. case_bool_decide.
  - split; [auto|]. intros [->|]; done.
  - rewrite elem_of_app, list_elem_of_singleton. tauto.
Qed.

Lemma token_remove_elem c x cl : x ∈ token_remove c cl ↔ x ≠ c ∧ x ∈ cl.
Proof. unfold token_remove. by rewrite list_elem_of_filter. Qed.

Lemma classes_of_set n cl s m :
  classes_of (set_classes n cl s) m = if decide (m = n) then cl else classes_of s m.
Proof.
  unfold classes_of, set_classes; simpl. destruct (decide (m = n)) as [->|Hne].
  - rewrite lookup_insert_eq. reflexivity.
  - rewrite lookup_insert_ne by congruence. reflexivity.
Qed.

Lemma hidden_hide n s m :
  hidden (hide n s) m = if decide (m = n) then true else hidden s m.
Proof.
  unfold hidden, contains, hide. rewrite classes_of_set.
  destruct (decide (m = n)) as [->|]; [|reflexivity].
  apply bool_decide_eq_true. apply token_add_elem. auto.
Qed.

Lemma hidden_unhide n s m :
  hidden (unhide n s) m = if decide (m = n) then false else hidden s m.
Proof.
  unfold hidden, contains, unhide. rewrite classes_of_set.
  destruct (decide (m = n)) as [->|]; [|reflexivity].
  apply bool_decide_eq_false. rewrite token_remove_elem. tauto.
Qed.

Lemma same_but_hide_refl s : same_but_hide s s.
Proof. split; auto. Qed.

Lemma same_but_hide_trans s1 s2 s3 :
  same_but_hide s1 s2 → same_but_hide s2 s3 → same_but_hide s1 s3.
Proof.
  intros [? ? ? ? ? ? ? ? ? C12] [? ? ? ? ? ? ? ? ? C23].
  split; try congruence.
  intros n c Hc. rewrite (C23 n c Hc). apply (C12 n c Hc).
Qed.

Lemma same_but_hide_hide n s : same_but_hide s (hide n s).
Proof.
  split; try reflexivity. intros m c Hc. unfold hide.
  rewrite classes_of_set. destruct (decide (m = n)) as [->|]; [|reflexivity].
  rewrite token_add_elem. split; [intros [?|?]; [congruence|done] | auto].
Qed.

Lemma same_but_hide_unhide n s : same_but_hide s (unhide n s).
Proof.
  split; try reflexivity. intros m c Hc. unfold unhide.
  rewrite classes_of_set. destruct (decide (m = n)) as [->|]; [|reflexivity].
  rewrite token_remove_elem. tauto.
Qed.

(** Queries that do not ask for [hide] see the same elements. *)
Lemma matches_same_but_hide s s' selector n :
  same_but_hide s s' → selector ≠ ".hide" →
  matches s' selector n = matches s selector n.
Proof.
  intros Hs Hsel. unfold matches.
  destruct selector as [|a c]; [by rewrite (sbh_tag _ _ Hs)|].
  destruct (decide (a = "."%char)) as [->|Hdot].
  { apply bool_decide_ext, (sbh_classes _ _ Hs). congruence. }
  destruct (decide (a = "#"%char)) as [->|Hhash].
  { by rewrite (sbh_id _ _ Hs). }
  rewrite (sbh_tag _ _ Hs).
  destruct a as [[] [] [] [] [] [] [] []]; try reflexivity; congruence.
Qed.

Lemma descendants_same_but_hide s s' n :
  same_but_hide s s' → descendants s' n = descendants s n.
Proof.
  intros Hs. unfold descendants, subtree_of. by rewrite (sbh_forest _ _ Hs).
Qed.

Lemma select_all_same_but_hide s s' n selector :
  same_but_hide s s' → selector ≠ ".hide" →
  select_all s' n selector = select_all s n selector.
Proof.
  intros Hs Hsel. unfold select_all.
  rewrite (descendants_same_but_hide _ _ _ Hs).
  apply list_filter_iff. intros d.
  by rewrite (matches_same_but_hide _ _ _ _ Hs Hsel).
Qed.

End Hide.

(** ** The two loops of [collapse] *)

Section Loops.
Context {num : Type} `{JSNumber num}.
Implicit Types (s : state num) (n m : node).
Local Open Scope js_scope.

Lemma classList_remove_hide n s :
  classList_remove n "hide" s = (inr tt, unhide n s).
Proof. reflexivity. Qed.

Lemma classList_add_hide n s :
  classList_add n ["hide"] s = (inr tt, hide n s).
Proof. reflexivity. Qed.

Lemma bool_decide_elem_cons (m x : node) (l : list node) :
  bool_decide (m ∈ x :: l) = if decide (m = x) then true else bool_decide (m ∈ l).
Proof.
  destruct (decide (m = x)) as [->|Hne].
  - apply bool_decide_eq_true. by left.
  - apply bool_decide_ext. rewrite elem_of_cons. tauto.
Qed.

(** The [forEach] of [collapse] over the items [l] that start at [index],
    [cs] being the clones at the same indices: every item of [l] ends
    shown and every clone of [cs] hidden. *)
Lemma reset_loop (dropdownItems : list node) (l : list node) :
  ∀ (cs : list node) (index : nat) s,
    length cs = length l →
    (∀ j, j < length l → dropdownItems !! (index + j) = cs !! j) →
    (∀ c, c ∈ cs → c ∉ l) →
    ∃ s',
      forEach (λ item index,
                 let clone := dropdownItems !! index in
                 classList_remove item "hide" ;;
                 clone <- deref clone ;;
                 classList_add clone ["hide"]) l index s = (inr tt, s')
      ∧ same_but_hide s s'
      ∧ ∀ m, hidden s' m =
             if bool_decide (m ∈ cs) then true
             else if bool_decide (m ∈ l) then false else hidden s m.
Proof.
  induction l as [|x l IH]; intros cs index s Hlen Hat Hdisj.
  { destruct cs; [|done]. exists s. split; [done|]. split; [apply same_but_hide_refl|].
    intros m. rewrite !bool_decide_eq_false_2 by apply not_elem_of_nil. done. }
  destruct cs as [|c cs]; [done|]. simpl in Hlen.
  assert (Hc : dropdownItems !! index = Some c).
  { rewrite <- (Nat.add_0_r index). rewrite (Hat 0); [done | simpl; lia]. }
  destruct (IH cs (S index) (hide c (unhide x s))) as (s' & Hrun & Hsame & Hhid).
  - lia.
  - intros j Hj. replace (S index + j) with (index + S j) by lia.
    rewrite Hat; [done | simpl; lia].
  - intros c' Hc' Hin. apply (Hdisj c'); [by right | by right].
  - exists s'. split; [|split].
    + simpl. unfold bind at 1. unfold bind at 1.
      rewrite classList_remove_hide, Hc. simpl. exact Hrun.
    + eapply same_but_hide_trans; [|exact Hsame].
      eapply same_but_hide_trans; [apply same_but_hide_unhide | apply same_but_hide_hide].
    + intros m. rewrite Hhid, hidden_hide, hidden_unhide.
      assert (Hcl : c ∉ l) by (intros ?; apply (Hdisj c); [by left | by right]).
      rewrite !bool_decide_elem_cons.
      destruct (decide (m = c)) as [->|Hmc].
      * rewrite (bool_decide_eq_false_2 _ Hcl). by destruct (bool_decide (c ∈ cs)).
      * destruct (bool_decide (m ∈ cs)); [done|].
        destruct (decide (m = x)); [by destruct (bool_decide (m ∈ l)) | done].
Qed.

Lemma bool_decide_elem_snoc (m x : node) (l : list node) :
  bool_decide (m ∈ l ++ [x]) = if decide (m = x) then true else bool_decide (m ∈ l).
Proof.
  destruct (decide (m = x)) as [->|Hne].
  - apply bool_decide_eq_true. rewrite elem_of_app, list_elem_of_singleton. auto.
  - apply bool_decide_ext. rewrite elem_of_app, list_elem_of_singleton. tauto.
Qed.

Lemma at_index_nat {A} (l : list A) (i : nat) : at_index l (Z.of_nat i) = l !! i.
Proof.
  unfold at_index. rewrite (proj2 (Z.leb_le _ _)) by lia. by rewrite Nat2Z.id.
Qed.

(** The [for] loop of [collapse], entered at [i] with [count] rounds to
    go: the items at the [count] indices below [length - i] end hidden and
    the clones there shown. *)
Lemma apply_loop (its dropdownItems : list node) :
  length dropdownItems = length its →
  (∀ c, c ∈ dropdownItems → c ∉ its) →
  ∀ (count i : nat) s,
    i + count ≤ length its →
    ∃ s',
      for_loop count (Z.of_nat i)
        (λ i,
           let index := (Z.of_nat (length dropdownItems) - i - 1)%Z in
           let item := at_index its index in
           let clone := at_index dropdownItems index in
           item <- deref item ;;
           classList_add item ["hide"] ;;
           clone <- deref clone ;;
           classList_remove clone "hide") s = (inr tt, s')
      ∧ same_but_hide s s'
      ∧ ∀ m, hidden s' m =
             if bool_decide (m ∈ take count (drop (length its - i - count) its))
             then true
             else if bool_decide
                       (m ∈ take count (drop (length its - i - count) dropdownItems))
                  then false else hidden s m.
Proof.
  intros Hlen Hdisj count.
  induction count as [|count IH]; intros i s Hi.
  { exists s. split; [done|]. split; [apply same_but_hide_refl|].
    intros m. rewrite !take_0, !bool_decide_eq_false_2 by apply not_elem_of_nil. done. }
  set (a := length its - i - S count).
  assert (Hidx : (Z.of_nat (length dropdownItems) - Z.of_nat i - 1)%Z
                 = Z.of_nat (a + count)) by (unfold a; lia).
  destruct (lookup_lt_is_Some_2 its (a + count)) as [x Hx]; [unfold a; lia|].
  destruct (lookup_lt_is_Some_2 dropdownItems (a + count)) as [y Hy]; [unfold a; lia|].
  destruct (IH (S i) (unhide y (hide x s))) as (s' & Hrun & Hsame & Hhid); [lia|].
  replace (length its - S i - count) with a in Hhid by (unfold a; lia).
  exists s'. split; [|split].
  - simpl. unfold bind at 1. rewrite Hidx, !at_index_nat, Hx, Hy. simpl.
    replace (Z.of_nat i + 1)%Z with (Z.of_nat (S i)) by lia. exact Hrun.
  - eapply same_but_hide_trans; [|exact Hsame].
    eapply same_but_hide_trans; [apply same_but_hide_hide | apply same_but_hide_unhide].
  - intros m. rewrite Hhid, hidden_unhide, hidden_hide.
    rewrite (take_S_r (drop a its) count x) by (by rewrite lookup_drop).
    rewrite (take_S_r (drop a dropdownItems) count y) by (by rewrite lookup_drop).
    rewrite !bool_decide_elem_snoc.
    assert (Hxy : x ≠ y).
    { intros ->. apply (Hdisj y); eauto using list_elem_of_lookup_2. }
    assert (Hxc : x ∉ take count (drop a dropdownItems)).
    { intros Hin. apply (Hdisj x); [|eauto using list_elem_of_lookup_2].
      apply elem_of_take in Hin as (j & Hj & _). rewrite lookup_drop in Hj.
      eauto using list_elem_of_lookup_2. }
    assert (Hyi : y ∉ take count (drop a its)).
    { intros Hin. apply (Hdisj y); [eauto using list_elem_of_lookup_2|].
      apply elem_of_take in Hin as (j & Hj & _). rewrite lookup_drop in Hj.
      eauto using list_elem_of_lookup_2. }
    destruct (decide (m = x)) as [->|Hmx].
    + rewrite (bool_decide_eq_false_2 _ Hxc).
      destruct (decide (x = y)); [done|].
      by destruct (bool_decide (x ∈ take count (drop a its))).
    + destruct (bool_decide (m ∈ take count (drop a its))); [done|].
      destruct (decide (m = y)) as [->|];
        [by destruct (bool_decide (y ∈ take count (drop a dropdownItems))) | done].
Qed.

End Loops.

Section Collapse.
Context {num : Type} `{JSNumber num}.
Implicit Types (this : Collapsible num) (s : state num) (n m : node).
Local Open Scope js_scope.

Lemma bind_run {A B} (c : M num A) (k : A → M num B) s a s1 :
  c s = (inr a, s1) → bind c k s = k a s1.
Proof. intros Hc. unfold bind. by rewrite Hc. Qed.

Lemma bind_throw {A B} (c : M num A) (k : A → M num B) s e s1 :
  c s = (inl e, s1) → bind c k s = (inl e, s1).
Proof. intros Hc. unfold bind. by rewrite Hc. Qed.

Lemma mounted_inv this s menu clones :
  mounted this s = Some (menu, clones) →
  ∃ dropdown,
    head (select_all s (container this) ".collapsible-menu") = Some menu
    ∧ head (select_all s menu ".collapsible-dropdown") = Some dropdown
    ∧ select_all s dropdown "li" = clones
    ∧ length clones = length (items this)
    ∧ NoDup (menu :: items this ++ clones).
Proof.
  unfold mounted. intros Hm.
  destruct (head (select_all s (container this) ".collapsible-menu"))
    as [menu'|] eqn:Hmenu; simpl in Hm; [|done].
  destruct (head (select_all s menu' ".collapsible-dropdown"))
    as [dropdown|] eqn:Hdrop; simpl in Hm; [|done].
  case_bool_decide as Hwf; [|done]. destruct Hwf as [Hlen Hnd].
  injection Hm as -> <-. by exists dropdown.
Qed.

Lemma mounted_same_but_hide this s s' :
  same_but_hide s s' → mounted this s' = mounted this s.
Proof.
  intros Hs. unfold mounted.
  rewrite (select_all_same_but_hide _ _ _ _ Hs) by done.
  destruct (head (select_all s (container this) ".collapsible-menu")) as [menu|];
    simpl; [|done].
  rewrite (select_all_same_but_hide _ _ _ _ Hs) by done.
  destruct (head (select_all s menu ".collapsible-dropdown")) as [dropdown|];
    simpl; [|done].
  by rewrite (select_all_same_but_hide _ _ _ _ Hs) by done.
Qed.

Lemma elem_of_drop (x : node) (a : nat) (l : list node) : x ∈ drop a l → x ∈ l.
Proof.
  intros (j & Hj)%list_elem_of_lookup_1. rewrite lookup_drop in Hj.
  eauto using list_elem_of_lookup_2.
Qed.

Lemma elem_of_drop_NoDup (x : node) (a i : nat) (l : list node) :
  NoDup l → l !! i = Some x → x ∈ drop a l ↔ a ≤ i.
Proof.
  intros Hnd Hx. split.
  - intros (j & Hj)%list_elem_of_lookup_1. rewrite lookup_drop in Hj.
    rewrite <- (NoDup_lookup _ _ _ _ Hnd Hj Hx). lia.
  - intros Hle. apply (list_elem_of_lookup_2 _ (i - a)).
    rewrite lookup_drop. by replace (a + (i - a)) with i by lia.
Qed.

Lemma collapse_spec this s menu clones :
  mounted this s = Some (menu, clones) →
  let fit := scan (bodyWidth s) (threshold this) (itemsDimensions this)
                  (items this) 0 0 num_zero in
  ∃ s',
    collapse this s = (inr tt, s')
    ∧ same_but_hide s s'
    ∧ hidden s' menu = bool_decide (fit = length (items this))
    ∧ (∀ i x, items this !! i = Some x → hidden s' x = bool_decide (fit ≤ i))
    ∧ (∀ i c, clones !! i = Some c → hidden s' c = negb (bool_decide (fit ≤ i))).
Proof.
  intros Hm fit.
  destruct (mounted_inv _ _ _ _ Hm) as (dropdown & Hmenu & Hdrop & Hclones & Hlen & Hnd).
  assert (Hfit : fit ≤ length (items this)).
  { pose proof (scan_bounds (bodyWidth s) (threshold this) (itemsDimensions this)
                  (items this) 0 0 num_zero). subst fit. lia. }
  apply NoDup_cons in Hnd as [Hmenu_fresh Hnd].
  apply NoDup_app in Hnd as (Hnd_items & Hdisj & Hnd_clones).
  assert (Hdisj' : ∀ c, c ∈ clones → c ∉ items this) by (intros c ? ?; by eapply Hdisj).
  set (count := length (items this) - fit).
  set (s2 := if bool_decide (fit = length (items this))
             then hide menu (unhide menu s) else unhide menu s).
  assert (Hs2 : same_but_hide s s2).
  { subst s2. case_bool_decide;
      eauto using same_but_hide_trans, same_but_hide_unhide, same_but_hide_hide. }
  destruct (reset_loop clones (items this) clones 0 s2)
    as (s3 & Hreset & Hs3 & Hhid3); [done|done|done|].
  destruct (apply_loop (items this) clones Hlen Hdisj' count 0 s3)
    as (s4 & Happly & Hs4 & Hhid4); [subst count; lia|].
  replace (length (items this) - 0 - count) with fit in Hhid4 by (subst count; lia).
  rewrite (take_ge (drop fit (items this))) in Hhid4
    by (rewrite length_drop; subst count; lia).
  rewrite (take_ge (drop fit clones)) in Hhid4
    by (rewrite length_drop; subst count; lia).
  exists s4. split; [|split; [|split; [|split]]].
  - unfold collapse.
    erewrite bind_run by reflexivity; cbv beta. rewrite Hmenu.
    erewrite bind_run by reflexivity; cbv beta.
    erewrite bind_run by reflexivity; cbv beta. rewrite Hdrop.
    erewrite bind_run by reflexivity; cbv beta.
    erewrite bind_run by reflexivity; cbv beta. rewrite Hclones.
    erewrite bind_run by reflexivity; cbv beta.
    erewrite bind_run by reflexivity; cbv beta.
    erewrite (bind_run _ _ _ tt s2).
    + erewrite bind_run by exact Hreset. cbv beta.
      replace (Z.to_nat _) with count by (subst count fit; lia).
      exact Happly.
    + subst s2. fold fit. case_bool_decide as Hk.
      * rewrite (proj2 (Z.eqb_eq _ _)) by lia. reflexivity.
      * rewrite (proj2 (Z.eqb_neq _ _)) by lia. reflexivity.
  - eauto using same_but_hide_trans.
  - rewrite Hhid4, Hhid3.
    rewrite elem_of_app in Hmenu_fresh.
    rewrite (bool_decide_eq_false_2 (menu ∈ drop fit (items this)))
      by (intros Hin%elem_of_drop; tauto).
    rewrite (bool_decide_eq_false_2 (menu ∈ drop fit clones))
      by (intros Hin%elem_of_drop; tauto).
    rewrite (bool_decide_eq_false_2 (menu ∈ clones)) by tauto.
    rewrite (bool_decide_eq_false_2 (menu ∈ items this)) by tauto.
    subst s2. case_bool_decide.
    + by rewrite hidden_hide, decide_True.
    + by rewrite hidden_unhide, decide_True.
  - intros i x Hx. rewrite Hhid4, Hhid3.
    rewrite (bool_decide_ext _ _ (elem_of_drop_NoDup _ _ _ _ Hnd_items Hx)).
    destruct (bool_decide (fit ≤ i)); [done|].
    assert (x ∈ items this) by eauto using list_elem_of_lookup_2.
    rewrite (bool_decide_eq_false_2 (x ∈ drop fit clones))
      by (intros Hin%elem_of_drop; by eapply Hdisj).
    rewrite (bool_decide_eq_false_2 (x ∈ clones)) by (intros ?; by eapply Hdisj).
    by rewrite bool_decide_eq_true_2.
  - intros i c Hc. rewrite Hhid4, Hhid3.
    assert (c ∈ clones) by eauto using list_elem_of_lookup_2.
    rewrite (bool_decide_eq_false_2 (c ∈ drop fit (items this)))
      by (intros Hin%elem_of_drop; by eapply Hdisj).
    rewrite (bool_decide_ext _ _ (elem_of_drop_NoDup _ _ _ _ Hnd_clones Hc)).
    destruct (bool_decide (fit ≤ i)); [done|].
    by rewrite bool_decide_eq_true_2.
Qed.

(** ** The collapse count *)

Lemma getAmountOfItemsToCollapse_run this s :
  getAmountOfItemsToCollapse this s
  = (inr (Z.of_nat (length (items this))
          - Z.of_nat (scan (bodyWidth s) (threshold this) (itemsDimensions this)
                           (items this) 0 0 num_zero))%Z, s).
Proof. reflexivity. Qed.

(** C1. [getAmountOfItemsToCollapse] walks the items in order with a
    running width sum, counts the items up to (and not including) the
    first one whose inclusion leaves available space strictly below the
    threshold, and returns the number of items minus that count; an item
    that leaves exactly the threshold available still counts. *)
Theorem getAmountOfItemsToCollapse_counts_fitting_prefix this s :
  aligned this →
  ∃ fit : nat,
    getAmountOfItemsToCollapse this s
    = (inr (Z.of_nat (length (items this)) - Z.of_nat fit)%Z, s)
    ∧ fit ≤ length (items this)
    ∧ (∀ j, j < fit →
         fits (bodyWidth s) (threshold this) (itemsDimensions this) j = true)
    ∧ (fit < length (items this) →
         fits (bodyWidth s) (threshold this) (itemsDimensions this) fit = false)
    ∧ (∀ j, j < length (items this) →
         (∀ j', j' < j →
            fits (bodyWidth s) (threshold this) (itemsDimensions this) j' = true) →
         available (bodyWidth s) (itemsDimensions this) j = threshold this →
         j < fit).
Proof.
  intros Hal.
  destruct (scan_run (bodyWidth s) (threshold this) (itemsDimensions this)
              (items this) 0 0) as (fit & Hscan & Hle & Hfit & Hstop);
    [by rewrite Hal|].
  simpl in Hscan, Hstop. exists fit. rewrite getAmountOfItemsToCollapse_run, Hscan.
  repeat split; [done| |done|].
  - intros j Hj. apply Hfit. lia.
  - intros j Hj Hbefore Heq.
    destruct (decide (j < fit)) as [|Hge]; [done|]. exfalso.
    assert (Hj_fits : fits (bodyWidth s) (threshold this) (itemsDimensions this) j = true).
    { unfold fits. by rewrite Heq, num_ltb_irrefl. }
    destruct (decide (fit = j)) as [->|Hne].
    + rewrite Hstop in Hj_fits by lia. done.
    + rewrite Hbefore in Hstop by lia. discriminate Hstop. lia.
Qed.

(** C10. The collapse count lies between [0] and the number of items, so
    with one clone per item every index [length - i - 1] that the [for]
    loop of [collapse] computes is within both lists and both lookups
    find an element. *)
Theorem collapse_loop_indices_in_range this s (dropdownItems : list node) :
  length dropdownItems = length (items this) →
  ∃ k : Z,
    getAmountOfItemsToCollapse this s = (inr k, s)
    ∧ (0 ≤ k ≤ Z.of_nat (length (items this)))%Z
    ∧ ∀ i : Z, (0 ≤ i < k)%Z →
        let index := (Z.of_nat (length dropdownItems) - i - 1)%Z in
        (0 ≤ index < Z.of_nat (length (items this)))%Z
        ∧ is_Some (at_index (items this) index)
        ∧ is_Some (at_index dropdownItems index).
Proof.
  intros Hlen. eexists. split; [apply getAmountOfItemsToCollapse_run|].
  pose proof (scan_bounds (bodyWidth s) (threshold this) (itemsDimensions this)
                (items this) 0 0 num_zero) as Hb.
  split; [lia|]. intros i Hi index. subst index.
  replace (Z.of_nat (length dropdownItems) - i - 1)%Z
    with (Z.of_nat (length (items this) - Z.to_nat i - 1)) by lia.
  rewrite !at_index_nat. split; [lia|].
  split; apply lookup_lt_is_Some_2; lia.
Qed.

(** ** The partition that [collapse] leaves *)

(** C2, where the menu is in place with one clone per item.  Partition
    completeness: after [collapse], from any visibility the items and
    clones had before, exactly one of item [i] and clone [i] is visible,
    for every index [i]. *)
Theorem collapse_partition_complete this s menu clones :
  mounted this s = Some (menu, clones) →
  ∃ s',
    collapse this s = (inr tt, s')
    ∧ mounted this s' = Some (menu, clones)
    ∧ ∀ i item clone,
        items this !! i = Some item → clones !! i = Some clone →
        xorb (visible s' item) (visible s' clone) = true.
Proof.
  intros Hm.
  destruct (collapse_spec _ _ _ _ Hm) as (s' & Hrun & Hsame & _ & Hitems & Hclones).
  exists s'. split; [done|]. split; [by rewrite (mounted_same_but_hide _ _ _ Hsame)|].
  intros i item clone Hi Hc. unfold visible.
  rewrite (Hitems _ _ Hi), (Hclones _ _ Hc). by destruct (bool_decide _).
Qed.

(** C3, where the menu is in place with one clone per item.  Trailing
    policy: with collapse count [k], [collapse] hides exactly the items
    at the last [k] indices and shows their clones; every earlier item is
    visible and its clone hidden. *)
Theorem collapse_hides_trailing_items this s menu clones :
  mounted this s = Some (menu, clones) →
  ∃ (k : Z) s',
    getAmountOfItemsToCollapse this s = (inr k, s)
    ∧ collapse this s = (inr tt, s')
    ∧ ∀ i item clone,
        items this !! i = Some item → clones !! i = Some clone →
        if bool_decide (Z.of_nat (length (items this)) - k ≤ Z.of_nat i)%Z
        then hidden s' item = true ∧ visible s' clone = true
        else visible s' item = true ∧ hidden s' clone = true.
Proof.
  intros Hm.
  destruct (collapse_spec _ _ _ _ Hm) as (s' & Hrun & _ & _ & Hitems & Hclones).
  eexists _, s'. split; [apply getAmountOfItemsToCollapse_run|]. split; [done|].
  intros i item clone Hi Hc. unfold visible.
  rewrite (Hitems _ _ Hi), (Hclones _ _ Hc).
  set (fit := scan _ _ _ _ _ _ _).
  rewrite (bool_decide_ext (_ ≤ _)%Z (fit ≤ i)) by lia.
  by destruct (bool_decide (fit ≤ i)).
Qed.

(** C4. After [collapse] the overflow-menu control carries [hide] exactly
    when the collapse count is zero, whatever class it carried before. *)
Theorem collapse_menu_hidden_iff_count_zero this s menu clones :
  mounted this s = Some (menu, clones) →
  ∃ (k : Z) s',
    getAmountOfItemsToCollapse this s = (inr k, s)
    ∧ collapse this s = (inr tt, s')
    ∧ (hidden s' menu = true ↔ k = 0%Z).
Proof.
  intros Hm.
  destruct (collapse_spec _ _ _ _ Hm) as (s' & Hrun & _ & Hmenu & _).
  eexists _, s'. split; [apply getAmountOfItemsToCollapse_run|]. split; [done|].
  rewrite Hmenu, bool_decide_eq_true.
  pose proof (scan_bounds (bodyWidth s) (threshold this) (itemsDimensions this)
                (items this) 0 0 num_zero). lia.
Qed.

(** C7, where the menu is in place with one clone per item.  The
    partition that [collapse] leaves does not depend on the visibility
    the items, the clones and the menu had before the call; and a second
    call right after the first leaves the same partition. *)
Theorem collapse_forgets_previous_visibility this s1 s2 menu clones :
  mounted this s1 = Some (menu, clones) →
  mounted this s2 = Some (menu, clones) →
  bodyWidth s1 = bodyWidth s2 →
  ∃ s1' s2' s1'',
    collapse this s1 = (inr tt, s1')
    ∧ collapse this s2 = (inr tt, s2')
    ∧ collapse this s1' = (inr tt, s1'')
    ∧ ∀ n, n ∈ menu :: items this ++ clones →
        hidden s1' n = hidden s2' n ∧ hidden s1'' n = hidden s1' n.
Proof.
  intros Hm1 Hm2 Hw.
  destruct (collapse_spec _ _ _ _ Hm1) as (s1' & Hrun1 & Hsame & Hmenu1 & Hitems1 & Hclones1).
  destruct (collapse_spec _ _ _ _ Hm2) as (s2' & Hrun2 & _ & Hmenu2 & Hitems2 & Hclones2).
  assert (Hm1' : mounted this s1' = Some (menu, clones))
    by by rewrite (mounted_same_but_hide _ _ _ Hsame).
  destruct (collapse_spec _ _ _ _ Hm1') as (s1'' & Hrun3 & _ & Hmenu3 & Hitems3 & Hclones3).
  rewrite (sbh_body _ _ Hsame) in Hmenu3, Hitems3, Hclones3.
  rewrite <- Hw in Hmenu2, Hitems2, Hclones2.
  exists s1', s2', s1''. repeat (split; [done|]).
  intros n [->|[Hin|Hin]%elem_of_app]%elem_of_cons.
  - by rewrite Hmenu1, Hmenu2, Hmenu3.
  - apply list_elem_of_lookup_1 in Hin as [i Hi].
    by rewrite (Hitems1 _ _ Hi), (Hitems2 _ _ Hi), (Hitems3 _ _ Hi).
  - apply list_elem_of_lookup_1 in Hin as [i Hi].
    by rewrite (Hclones1 _ _ Hi), (Hclones2 _ _ Hi), (Hclones3 _ _ Hi).
Qed.

End Collapse.

(** ** Construction *)

Section Construction.
Context {num : Type} `{JSNumber num}.
Implicit Types (this : Collapsible num) (s : state num).
Local Open Scope js_scope.

Lemma getItemsDimensions_from_run (pending : list node) :
  ∀ (dimensions : list num) s,
    getItemsDimensions_from pending dimensions s
    = (inr (dimensions
            ++ map (λ item, default num_zero (rectWidth s !! item)) pending), s).
Proof.
  induction pending as [|item rest IH]; intros dimensions s; simpl.
  - by rewrite app_nil_r.
  - erewrite bind_run by reflexivity. rewrite IH. by rewrite <- app_assoc.
Qed.

(** C8. A selector that resolves to no element makes the constructor
    throw the error of [queryContainer], from the very first statement:
    no instance is made and the host is left as it was.  A selector that
    resolves makes [queryContainer] return the element found, and the
    constructor an instance whose container is that element. *)
Theorem constructor_container_lookup (selector : string) (minimum : num) s :
  document_querySelector selector s = (inr (locate s selector), s)
  ∧ match locate s selector with
    | None =>
        let e := Error ("Collapsible: No element find using " +:+ dquote
                          +:+ selector +:+ dquote +:+ " selector") in
        queryContainer selector s = (inl e, s)
        ∧ constructor selector minimum s = (inl e, s)
    | Some c =>
        queryContainer selector s = (inr c, s)
        ∧ ∃ this,
            constructor selector minimum s = (inr this, s)
            ∧ container this = c
            ∧ threshold this = minimum
            ∧ items this = select_all s c "li"
            ∧ aligned this
    end.
Proof.
  split; [reflexivity|].
  assert (Hq : ∀ o, locate s selector = o →
                    document_querySelector selector s = (inr o, s))
    by (by intros o <-).
  destruct (locate s selector) as [c|] eqn:Hloc.
  - assert (Hc : queryContainer selector s = (inr c, s)).
    { unfold queryContainer. by erewrite bind_run by (apply Hq; reflexivity). }
    split; [done|].
    exists {| container := c; threshold := minimum;
              items := select_all s c "li";
              itemsDimensions :=
                map (λ item, default num_zero (rectWidth s !! item))
                    (select_all s c "li") |}.
    split; [|repeat split].
    + unfold constructor. erewrite bind_run by exact Hc.
      erewrite bind_run by reflexivity.
      erewrite bind_run by apply getItemsDimensions_from_run. reflexivity.
    + unfold aligned; simpl. apply length_map.
  - assert (He : queryContainer selector s
                 = (inl (Error ("Collapsible: No element find using " +:+ dquote
                                  +:+ selector +:+ dquote +:+ " selector")), s)).
    { unfold queryContainer. by erewrite bind_run by (apply Hq; reflexivity). }
    split; [done|]. unfold constructor. by erewrite bind_throw by exact He.
Qed.

End Construction.

(** ** Rendering and resize notifications *)

Section Render.
Context {num : Type} `{JSNumber num}.
Implicit Types (this : Collapsible num) (s : state num).
Local Open Scope js_scope.


Lemma returns_bind {A B} (c : M num A) (k : A → M num B) :
  returns c → (∀ a, returns (k a)) → returns (bind c k).
Proof.
  intros Hc Hk s. unfold bind. destruct (Hc s) as [a Ha].
  destruct (c s) as [[e|a'] s1]; simpl in Ha; [done|]. apply Hk.
Qed.

Lemma keeps_sensors_bind {A B} (c : M num A) (k : A → M num B) :
  keeps_sensors c → (∀ a, keeps_sensors (k a)) → keeps_sensors (bind c k).
Proof.
  intros Hc Hk s. unfold bind. specialize (Hc s).
  destruct (c s) as [[e|a] s1]; simpl in *; [done|]. by rewrite Hk.
Qed.

Lemma returns_forEach {A} (body : A → nat → M num unit) (l : list A) :
  (∀ x i, returns (body x i)) → ∀ i, returns (forEach body l i).
Proof.
  intros Hbody. induction l as [|x l IH]; intros i; simpl.
  - intros s. by exists tt.
  - apply returns_bind; auto.
Qed.

Lemma keeps_sensors_forEach {A} (body : A → nat → M num unit) (l : list A) :
  (∀ x i, keeps_sensors (body x i)) → ∀ i, keeps_sensors (forEach body l i).
Proof.
  intros Hbody. induction l as [|x l IH]; intros i; simpl.
  - done.
  - apply keeps_sensors_bind; auto.
Qed.

Lemma keeps_sensors_for_loop (body : Z → M num unit) (n : nat) :
  (∀ i, keeps_sensors (body i)) → ∀ i, keeps_sensors (for_loop n i body).
Proof.
  intros Hbody. induction n as [|n IH]; intros i; simpl.
  - done.
  - apply keeps_sensors_bind; auto.
Qed.

Lemma keeps_sensors_deref {A} (x : option A) :
  keeps_sensors (deref x : M num A).
Proof. by destruct x. Qed.

Lemma returns_cloneNode n : returns (cloneNode n : M num node).
Proof.
  intros s. unfold cloneNode.
  destruct (copy (fresh s) (default (El n []) (subtree_of s n))) as [[next t'] pairs].
  by eexists.
Qed.

Lemma keeps_sensors_cloneNode n : keeps_sensors (cloneNode n : M num node).
Proof.
  intros s. unfold cloneNode.
  by destruct (copy (fresh s) (default (El n []) (subtree_of s n))) as [[next t'] pairs].
Qed.

Ltac step_returns :=
  repeat first
    [ apply returns_bind; [|intros ?]
    | apply returns_forEach; intros ? ?
    | apply returns_cloneNode
    | by (intros ?; eexists) ].

Ltac step_keeps :=
  repeat first
    [ apply keeps_sensors_bind; [|intros ?]
    | apply keeps_sensors_forEach; intros ? ?
    | apply keeps_sensors_for_loop; intros ?
    | apply keeps_sensors_cloneNode
    | apply keeps_sensors_deref
    | by intros ? ].

(** [inject] has no failing step. *)
Lemma inject_returns this : returns (inject this).
Proof. unfold inject. step_returns. Qed.

Lemma inject_keeps_sensors this : keeps_sensors (inject this).
Proof. unfold inject. step_keeps. Qed.

Lemma collapse_keeps_sensors this : keeps_sensors (collapse this).
Proof.
  unfold collapse. step_keeps.
  destruct (_ =? _)%Z; step_keeps.
Qed.

Lemma notify_app (element : node) (l l' : list (option node * Collapsible num)) s :
  notify element (l ++ l') s = (notify element l ;; notify element l') s.
Proof.
  revert s. induction l as [|[observed this] l IH]; intros s.
  - reflexivity.
  - change (notify element (((observed, this) :: l) ++ l'))
      with ((if bool_decide (observed = Some element) then collapse this else ret tt) ;;
            notify element (l ++ l')).
    change (notify element ((observed, this) :: l))
      with ((if bool_decide (observed = Some element) then collapse this else ret tt) ;;
            notify element l).
    unfold bind.
    destruct ((if bool_decide (observed = Some element) then collapse this else ret tt) s)
      as [[e|[]] s1]; [done|].
    apply IH.
Qed.

(** C9, as the code has it.  [render] runs [inject], which cannot fail,
    then [collapse] on the state [inject] leaves; when [collapse] throws,
    [render] ends there with its exception; when [collapse] returns,
    [render] makes one [ResizeSensor] whose callback is [collapse] bound
    to the instance and whose observed element is the parent element of
    the container, read after the two calls.  A later resize notification
    runs the handlers subscribed before [render], and then [collapse]
    exactly when it is for that parent element; on a page with no other
    sensor it runs [collapse] and nothing else. *)
Theorem render_injects_collapses_then_observes_parent this s :
  ∃ s1,
    inject this s = (inr tt, s1)
    ∧ match collapse this s1 with
      | (inl e, s2) => render this s = (inl e, s2)
      | (inr _, s2) =>
          let parent := parent_of s2 (container this) in
          ∃ s',
            render this s = (inr tt, s')
            ∧ new_ResizeSensor parent this s2 = (inr tt, s')
            ∧ sensors s' = sensors s ++ [(parent, this)]
            ∧ (∀ element st,
                 sensors st = sensors s' →
                 resized element st
                 = (notify element (sensors s) ;;
                    (if bool_decide (parent = Some element)
                     then collapse this else ret tt) ;;
                    ret tt) st)
            ∧ (sensors s = [] →
               ∀ element st,
                 sensors st = sensors s' →
                 resized element st
                 = if bool_decide (parent = Some element)
                   then (collapse this ;; ret tt) st
                   else (inr tt, st))
      end.
Proof.
  destruct (inject_returns this s) as [a Ha].
  pose proof (inject_keeps_sensors this s) as Hs1.
  destruct (inject this s) as [[e|[]] s1] eqn:Hinj; simpl in Ha, Hs1; [done|].
  exists s1. split; [done|].
  pose proof (collapse_keeps_sensors this s1) as Hs2.
  destruct (collapse this s1) as [[e|[]] s2] eqn:Hcol; simpl in Hs2.
  - unfold render. erewrite bind_run by exact Hinj.
    by erewrite bind_throw by exact Hcol.
  - eexists. split; [|split; [reflexivity|split; [|split]]].
    + unfold render. erewrite bind_run by exact Hinj.
      erewrite bind_run by exact Hcol.
      erewrite bind_run by reflexivity. reflexivity.
    + simpl. by rewrite Hs2, Hs1.
    + intros element st Hst. unfold resized.
      erewrite bind_run by reflexivity. cbv beta. rewrite Hst.
      change (sensors (new_ResizeSensor (parent_of s2 (container this)) this s2).2)
        with (sensors s2 ++ [(parent_of s2 (container this), this)]).
      rewrite Hs2, Hs1. apply notify_app.
    + intros Hnone element st Hst. unfold resized.
      erewrite bind_run by reflexivity. rewrite Hst. simpl.
      rewrite Hs2, Hs1, Hnone. simpl.
      by destruct (bool_decide (parent_of s2 (container this) = Some element)).
Qed.

End Render.

(** ** Edge cases of the count *)

Section Edges.
Context {num : Type} `{JSNumber num}.
Implicit Types (this : Collapsible num) (s : state num).


Lemma scan_all_fit this s :
  aligned this →
  (∀ j, j < length (items this) →
        fits (bodyWidth s) (threshold this) (itemsDimensions this) j = true) →
  scan (bodyWidth s) (threshold this) (itemsDimensions this) (items this) 0 0 num_zero
  = length (items this).
Proof.
  intros Hal Hall.
  destruct (scan_run (bodyWidth s) (threshold this) (itemsDimensions this)
              (items this) 0 0) as (run & Hscan & Hle & _ & Hstop);
    [by rewrite Hal|].
  simpl in Hscan, Hstop. rewrite Hscan.
  destruct (decide (run < length (items this))) as [Hlt|]; [|lia].
  rewrite Hall in Hstop by done. discriminate Hstop. done.
Qed.

Lemma scan_first_breach this s :
  aligned this →
  fits (bodyWidth s) (threshold this) (itemsDimensions this) 0 = false →
  scan (bodyWidth s) (threshold this) (itemsDimensions this) (items this) 0 0 num_zero
  = 0.
Proof.
  intros Hal Hbreach.
  destruct (scan_run (bodyWidth s) (threshold this) (itemsDimensions this)
              (items this) 0 0) as (run & Hscan & _ & Hfit & _);
    [by rewrite Hal|].
  simpl in Hscan. rewrite Hscan.
  destruct run as [|run]; [done|].
  rewrite Hfit in Hbreach by lia. done.
Qed.

Lemma collapse_everything this s menu clones :
  0 < length (items this) →
  mounted this s = Some (menu, clones) →
  getAmountOfItemsToCollapse this s = (inr (Z.of_nat (length (items this))), s) →
  ∃ s', collapse this s = (inr tt, s') ∧ all_collapsed this s' menu clones.
Proof.
  intros Hpos Hm Hcount. rewrite getAmountOfItemsToCollapse_run in Hcount.
  assert (Hscan : scan (bodyWidth s) (threshold this) (itemsDimensions this)
                    (items this) 0 0 num_zero = 0) by (injection Hcount; lia).
  destruct (collapse_spec _ _ _ _ Hm) as (s' & Hrun & _ & Hmenu & Hitems & Hclones).
  rewrite Hscan in Hmenu, Hitems, Hclones.
  exists s'. split; [done|]. split.
  - unfold visible. rewrite Hmenu, bool_decide_eq_false_2 by lia. done.
  - intros i item clone Hi Hc. unfold visible.
    rewrite (Hitems _ _ Hi), (Hclones _ _ Hc), bool_decide_eq_true_2 by lia. done.
Qed.

Lemma count_all this s :
  aligned this →
  fits (bodyWidth s) (threshold this) (itemsDimensions this) 0 = false →
  getAmountOfItemsToCollapse this s = (inr (Z.of_nat (length (items this))), s).
Proof.
  intros Hal Hbreach.
  rewrite getAmountOfItemsToCollapse_run, (scan_first_breach _ _ Hal Hbreach).
  f_equal. f_equal. lia.
Qed.
End Edges.

(** C5, as the code has it.  If every item fits, the count is [0].  If
    the first item already leaves less than the threshold available, the
    count is the number of items; with widths that are not negative this
    is so whenever the threshold is larger than the page width, on the
    integers and on binary64 alike.  On a page with the menu in place and
    at least one item, [collapse] then hides every item, shows every
    clone and shows the menu. *)
Theorem collapse_count_edge_cases :
  (∀ (num : Type) (N : JSNumber num) (this : Collapsible num) (s : state num),
     aligned this →
     (∀ j, j < length (items this) →
           fits (bodyWidth s) (threshold this) (itemsDimensions this) j = true) →
     getAmountOfItemsToCollapse this s = (inr 0%Z, s))
  ∧ (∀ (num : Type) (N : JSNumber num) (this : Collapsible num) (s : state num),
     aligned this →
     fits (bodyWidth s) (threshold this) (itemsDimensions this) 0 = false →
     getAmountOfItemsToCollapse this s = (inr (Z.of_nat (length (items this))), s))
  ∧ (∀ (num : Type) (N : JSNumber num) (O : JSOrder num)
       (this : Collapsible num) (s : state num),
     aligned this →
     (∀ w, w ∈ itemsDimensions this → num_leb num_zero w = true) →
     num_ltb (bodyWidth s) (threshold this) = true →
     getAmountOfItemsToCollapse this s = (inr (Z.of_nat (length (items this))), s))
  ∧ (∀ (num : Type) (N : JSNumber num) (this : Collapsible num) (s : state num)
       (menu : node) (clones : list node),
     0 < length (items this) →
     mounted this s = Some (menu, clones) →
     getAmountOfItemsToCollapse this s = (inr (Z.of_nat (length (items this))), s) →
     ∃ s', collapse this s = (inr tt, s') ∧ all_collapsed this s' menu clones).
Proof.
  split; [|split; [|split]].
  - intros num N this s Hal Hall.
    rewrite getAmountOfItemsToCollapse_run, (scan_all_fit _ _ Hal Hall).
    f_equal. f_equal. lia.
  - intros num N this s. apply count_all.
  - intros num N O this s Hal Hnonneg Hover. apply count_all; [done|].
    by apply no_room_at_all.
  - intros num N this s menu clones. apply collapse_everything.
Qed.

(** C6. Scenario B: five items of width 100, page width 350, threshold
    50.  The available space after items 1 to 4 is 250, 150, 50 and -50;
    the first three fit (50 is not below 50), the fourth does not; the
    count is 2; [collapse] hides exactly the fourth and fifth item, shows
    exactly their clones, and shows the menu. *)
Theorem scenario_B (this : Collapsible Z) (s : state Z) (menu : node) (clones : list node) :
  itemsDimensions this = [100; 100; 100; 100; 100]%Z →
  length (items this) = 5 →
  bodyWidth s = 350%Z →
  threshold this = 50%Z →
  mounted this s = Some (menu, clones) →
  map (available (bodyWidth s) (itemsDimensions this)) [0; 1; 2; 3]
  = [250; 150; 50; -50]%Z
  ∧ map (fits (bodyWidth s) (threshold this) (itemsDimensions this)) [0; 1; 2; 3]
    = [true; true; true; false]
  ∧ getAmountOfItemsToCollapse this s = (inr 2%Z, s)
  ∧ ∃ s',
      collapse this s = (inr tt, s')
      ∧ visible s' menu = true
      ∧ ∀ i item clone,
          items this !! i = Some item → clones !! i = Some clone →
          hidden s' item = bool_decide (3 ≤ i)
          ∧ visible s' clone = bool_decide (3 ≤ i).
Proof.
  intros Hdims Hlen Hpw Hth Hm.
  assert (Hscan : scan (bodyWidth s) (threshold this) (itemsDimensions this)
                    (items this) 0 0 num_zero = 3).
  { rewrite Hdims, Hpw, Hth.
    destruct (items this) as [|? [|? [|? [|? [|? [|]]]]]]; try done. }
  rewrite Hdims, Hpw, Hth. split; [done|]. split; [done|].
  split.
  { rewrite getAmountOfItemsToCollapse_run, Hscan, Hlen. done. }
  destruct (collapse_spec _ _ _ _ Hm) as (s' & Hrun & _ & Hmenu & Hitems & Hclones).
  rewrite Hscan in Hmenu, Hitems, Hclones.
  exists s'. split; [done|]. split.
  - unfold visible. rewrite Hmenu, Hlen. done.
  - intros i item clone Hi Hc. unfold visible.
    rewrite (Hitems _ _ Hi), (Hclones _ _ Hc). by rewrite negb_involutive.
Qed.


(** ** The navbar page at work *)

Example constructor_navbar (pageWidth : Z) :
  constructor "#menu" 50%Z (navbar 100%Z pageWidth)
  = (inr nav100, navbar 100%Z pageWidth).
Proof. reflexivity. Qed.

Example constructor_navbar_missing (pageWidth : Z) :
  constructor "#nav" 50%Z (navbar 100%Z pageWidth)
  = (inl (Error ("Collapsible: No element find using " +:+ dquote +:+ "#nav"
                   +:+ dquote +:+ " selector")), navbar 100%Z pageWidth).
Proof. reflexivity. Qed.

Example injected_mounted (pageWidth : Z) :
  mounted nav100 (injected pageWidth) = Some (menu9, clones14).
Proof. vm_compute. reflexivity. Qed.

Example widened_mounted :
  mounted nav100 (widened 350%Z) = Some (menu9, clones14)
  ∧ map (hidden (widened 350%Z)) (items nav100) = [false; true; true; true; true].
Proof. vm_compute. done. Qed.

(** Scenario A: at page width 600 all five items fit; nothing is
    collapsed and the menu is hidden. *)
Example scenario_A :
  map (available 600%Z (itemsDimensions nav100)) [0; 1; 2; 3; 4]
  = [500; 400; 300; 200; 100]%Z
  ∧ getAmountOfItemsToCollapse nav100 (injected 600%Z) = (inr 0%Z, injected 600%Z)
  ∧ let s' := (collapse nav100 (injected 600%Z)).2 in
    (collapse nav100 (injected 600%Z)).1 = inr tt
    ∧ hidden s' menu9 = true
    ∧ map (hidden s') (items nav100) = [false; false; false; false; false]
    ∧ map (hidden s') clones14 = [true; true; true; true; true].
Proof. vm_compute. done. Qed.

(** Scenario B again, on binary64 numbers, from the constructor on. *)
Example scenario_B_binary64 :
  let page := navbar 100%float 350%float in
  ∃ this s',
    constructor "#menu" 50%float page = (inr this, page)
    ∧ itemsDimensions this = [100; 100; 100; 100; 100]%float
    ∧ (bind (inject this) (λ _, getAmountOfItemsToCollapse this) page).1 = inr 2%Z
    ∧ render this page = (inr tt, s')
    ∧ map (hidden s') (items this) = [false; false; false; true; true]
    ∧ map (hidden s') clones14 = [true; true; true; false; false]
    ∧ hidden s' menu9 = false.
Proof.
  eexists _, _. split; [reflexivity|]. split; [reflexivity|].
  split; [vm_compute; reflexivity|]. split; [vm_compute; reflexivity|].
  vm_compute. done.
Qed.

(** ** The theorems at work on the navbar *)

Lemma counts_fitting_prefix_on_navbar :
  aligned nav100
  ∧ ∃ fit : nat,
      getAmountOfItemsToCollapse nav100 (navbar 100%Z 350%Z)
      = (inr (Z.of_nat (length (items nav100)) - Z.of_nat fit)%Z, navbar 100%Z 350%Z)
      ∧ fit ≤ length (items nav100)
      ∧ (∀ j, j < fit →
           fits (bodyWidth (navbar 100%Z 350%Z)) (threshold nav100)
                (itemsDimensions nav100) j = true)
      ∧ (fit < length (items nav100) →
           fits (bodyWidth (navbar 100%Z 350%Z)) (threshold nav100)
                (itemsDimensions nav100) fit = false)
      ∧ (∀ j, j < length (items nav100) →
           (∀ j', j' < j →
              fits (bodyWidth (navbar 100%Z 350%Z)) (threshold nav100)
                   (itemsDimensions nav100) j' = true) →
           available (bodyWidth (navbar 100%Z 350%Z)) (itemsDimensions nav100) j
           = threshold nav100 →
           j < fit).
Proof.
  split; [reflexivity|].
  apply (getAmountOfItemsToCollapse_counts_fitting_prefix nav100 (navbar 100%Z 350%Z)).
  reflexivity.
Defined.

Lemma loop_indices_in_range_on_navbar :
  length clones14 = length (items nav100)
  ∧ ∃ k : Z,
      getAmountOfItemsToCollapse nav100 (injected 350%Z) = (inr k, injected 350%Z)
      ∧ (0 ≤ k ≤ Z.of_nat (length (items nav100)))%Z
      ∧ ∀ i : Z, (0 ≤ i < k)%Z →
          let index := (Z.of_nat (length clones14) - i - 1)%Z in
          (0 ≤ index < Z.of_nat (length (items nav100)))%Z
          ∧ is_Some (at_index (items nav100) index)
          ∧ is_Some (at_index clones14 index).
Proof.
  split; [reflexivity|].
  apply (collapse_loop_indices_in_range nav100 (injected 350%Z) clones14).
  reflexivity.
Defined.

Lemma partition_complete_on_navbar :
  mounted nav100 (widened 350%Z) = Some (menu9, clones14)
  ∧ ∃ s',
      collapse nav100 (widened 350%Z) = (inr tt, s')
      ∧ mounted nav100 s' = Some (menu9, clones14)
      ∧ ∀ i item clone,
          items nav100 !! i = Some item → clones14 !! i = Some clone →
          xorb (visible s' item) (visible s' clone) = true.
Proof.
  split; [vm_compute; reflexivity|].
  apply (collapse_partition_complete nav100 (widened 350%Z) menu9 clones14).
  vm_compute; reflexivity.
Defined.

Lemma hides_trailing_items_on_navbar :
  mounted nav100 (injected 350%Z) = Some (menu9, clones14)
  ∧ ∃ (k : Z) s',
      getAmountOfItemsToCollapse nav100 (injected 350%Z) = (inr k, injected 350%Z)
      ∧ collapse nav100 (injected 350%Z) = (inr tt, s')
      ∧ ∀ i item clone,
          items nav100 !! i = Some item → clones14 !! i = Some clone →
          if bool_decide (Z.of_nat (length (items nav100)) - k ≤ Z.of_nat i)%Z
          then hidden s' item = true ∧ visible s' clone = true
          else visible s' item = true ∧ hidden s' clone = true.
Proof.
  split; [vm_compute; reflexivity|].
  apply (collapse_hides_trailing_items nav100 (injected 350%Z) menu9 clones14).
  vm_compute; reflexivity.
Defined.

Lemma menu_hidden_iff_count_zero_on_navbar :
  mounted nav100 (widened 600%Z) = Some (menu9, clones14)
  ∧ ∃ (k : Z) s',
      getAmountOfItemsToCollapse nav100 (widened 600%Z) = (inr k, widened 600%Z)
      ∧ collapse nav100 (widened 600%Z) = (inr tt, s')
      ∧ (hidden s' menu9 = true ↔ k = 0%Z).
Proof.
  split; [vm_compute; reflexivity|].
  apply (collapse_menu_hidden_iff_count_zero nav100 (widened 600%Z) menu9 clones14).
  vm_compute; reflexivity.
Defined.

Lemma forgets_previous_visibility_on_navbar :
  (mounted nav100 (injected 350%Z) = Some (menu9, clones14)
   ∧ mounted nav100 (widened 350%Z) = Some (menu9, clones14)
   ∧ bodyWidth (injected 350%Z) = bodyWidth (widened 350%Z))
  ∧ ∃ s1' s2' s1'',
      collapse nav100 (injected 350%Z) = (inr tt, s1')
      ∧ collapse nav100 (widened 350%Z) = (inr tt, s2')
      ∧ collapse nav100 s1' = (inr tt, s1'')
      ∧ ∀ n, n ∈ menu9 :: items nav100 ++ clones14 →
          hidden s1' n = hidden s2' n ∧ hidden s1'' n = hidden s1' n.
Proof.
  split; [repeat split; vm_compute; reflexivity|].
  apply (collapse_forgets_previous_visibility
           nav100 (injected 350%Z) (widened 350%Z) menu9 clones14);
    vm_compute; reflexivity.
Defined.

Lemma scenario_B_on_navbar :
  (itemsDimensions nav100 = [100; 100; 100; 100; 100]%Z
   ∧ length (items nav100) = 5
   ∧ bodyWidth (injected 350%Z) = 350%Z
   ∧ threshold nav100 = 50%Z
   ∧ mounted nav100 (injected 350%Z) = Some (menu9, clones14))
  ∧ getAmountOfItemsToCollapse nav100 (injected 350%Z) = (inr 2%Z, injected 350%Z)
  ∧ ∃ s',
      collapse nav100 (injected 350%Z) = (inr tt, s')
      ∧ visible s' menu9 = true
      ∧ ∀ i item clone,
          items nav100 !! i = Some item → clones14 !! i = Some clone →
          hidden s' item = bool_decide (3 ≤ i)
          ∧ visible s' clone = bool_decide (3 ≤ i).
Proof.
  split; [repeat split; vm_compute; reflexivity|].
  apply (scenario_B nav100 (injected 350%Z) menu9 clones14);
    vm_compute; reflexivity.
Defined.

Lemma edge_cases_on_navbar :
  getAmountOfItemsToCollapse nav100 (injected 600%Z) = (inr 0%Z, injected 600%Z)
  ∧ (fits (bodyWidth (injected 120%Z)) (threshold nav100) (itemsDimensions nav100) 0
     = false
     ∧ getAmountOfItemsToCollapse nav100 (injected 120%Z) = (inr 5%Z, injected 120%Z))
  ∧ ((∀ w, w ∈ itemsDimensions nav_half → num_leb num_zero w = true)
     ∧ num_ltb (bodyWidth (injected_half 40.5%float)) (threshold nav_half) = true
     ∧ getAmountOfItemsToCollapse nav_half (injected_half 40.5%float)
       = (inr 5%Z, injected_half 40.5%float))
  ∧ (mounted nav100 (injected 120%Z) = Some (menu9, clones14)
     ∧ ∃ s', collapse nav100 (injected 120%Z) = (inr tt, s')
             ∧ all_collapsed nav100 s' menu9 clones14).
Proof.
  destruct collapse_count_edge_cases as (Hfit & Hfirst & Hover & Hall).
  assert (Hwidths : ∀ w, w ∈ itemsDimensions nav_half → num_leb num_zero w = true).
  { apply Forall_forall. repeat constructor. }
  split; [|split; [|split]].
  - apply (Hfit Z _ nav100 (injected 600%Z)); [reflexivity|].
    intros j Hj. do 5 (destruct j as [|j]; [reflexivity|]). simpl in Hj. lia.
  - split; [reflexivity|].
    apply (Hfirst Z _ nav100 (injected 120%Z)); reflexivity.
  - split; [exact Hwidths|]. split; [reflexivity|].
    apply (Hover float _ _ nav_half (injected_half 40.5%float));
      [reflexivity | exact Hwidths | reflexivity].
  - split; [vm_compute; reflexivity|].
    apply (Hall Z _ nav100 (injected 120%Z) menu9 clones14);
      [simpl; lia | vm_compute; reflexivity | reflexivity].
Defined.

(** C9 as stated fails: on the navbar page [render] observes element 2,
    the [nav] that is the parent of the container, and not the container
    (element 3).  When the viewport then shrinks to 150, a resize
    notification for the container runs nothing and the partition made at
    350 stays; the notification for the parent re-applies it.  And on the
    nested page, where [collapse] throws, [render] ends with that
    exception and subscribes nothing at all. *)
Lemma render_leaves_container_unobserved :
  (∃ s',
     render nav100 (navbar 100%Z 350%Z) = (inr tt, s')
     ∧ container nav100 = 3
     ∧ sensors s' = [(Some 2, nav100)]
     ∧ ((Some (container nav100), nav100) ∉ sensors s')
     ∧ (let narrow := (set_bodyWidth 150%Z s').2 in
        resized (container nav100) narrow = (inr tt, narrow)
        ∧ map (hidden narrow) (items nav100) = [false; false; false; true; true]
        ∧ map (hidden (resized 2 narrow).2) (items nav100)
          = [false; true; true; true; true]))
  ∧ (constructor "#menu" 50%Z nested_navbar = (inr nested_nav, nested_navbar)
     ∧ ∃ s', render nested_nav nested_navbar = (inl TypeError, s')
             ∧ sensors s' = []).
Proof.
  split.
  - eexists. split; [vm_compute; reflexivity|]. split; [reflexivity|].
    split; [reflexivity|]. split.
    + simpl. rewrite list_elem_of_singleton. discriminate.
    + vm_compute. done.
  - split; [reflexivity|]. eexists. split; [vm_compute; reflexivity|]. reflexivity.
Qed.

Lemma render_on_navbar :
  ∃ s1,
    inject nav100 (navbar 100%Z 350%Z) = (inr tt, s1)
    ∧ match collapse nav100 s1 with
      | (inl e, s2) => render nav100 (navbar 100%Z 350%Z) = (inl e, s2)
      | (inr _, s2) =>
          let parent := parent_of s2 (container nav100) in
          ∃ s',
            render nav100 (navbar 100%Z 350%Z) = (inr tt, s')
            ∧ new_ResizeSensor parent nav100 s2 = (inr tt, s')
            ∧ sensors s' = sensors (navbar 100%Z 350%Z) ++ [(parent, nav100)]
            ∧ (∀ element st,
                 sensors st = sensors s' →
                 resized element st
                 = bind (notify element (sensors (navbar 100%Z 350%Z)))
                     (λ _, bind (if bool_decide (parent = Some element)
                                 then collapse nav100 else ret tt)
                             (λ _, ret tt)) st)
            ∧ (sensors (navbar 100%Z 350%Z) = [] →
               ∀ element st,
                 sensors st = sensors s' →
                 resized element st
                 = if bool_decide (parent = Some element)
                   then (bind (collapse nav100) (λ _, ret tt)) st
                   else (inr tt, st))
      end.
Proof.
  apply (render_injects_collapses_then_observes_parent nav100 (navbar 100%Z 350%Z)).
Defined.

(** ** Where an item holds a list of its own *)

(** C2 as stated fails on the nested page.  There [inject] copies the
    first item with the inner [li] inside, so the dropdown list (element
    9) holds the clones 13, 16 and 17 of the items 4, 6 and 7, while the
    dropdown lists the four [li] 13, 15, 16 and 17.  The [forEach] of
    [collapse] resets the first three of these and never the clone of the
    last item: started with that clone shown, on a page wide enough for
    every item, [collapse] returns and leaves the last item and its clone
    both visible. *)
Lemma partition_fails_on_nested_navbar :
  constructor "#menu" 50%Z nested_navbar = (inr nested_nav, nested_navbar)
  ∧ inject nested_nav nested_navbar = (inr tt, nested_injected)
  ∧ items nested_nav = [4; 6; 7]
  ∧ subtree_of nested_injected 9
    = Some (El 9 [El 13 [El 14 [El 15 []]]; El 16 []; El 17 []])
  ∧ ∃ s',
      collapse nested_nav (nested_shown 400%Z) = (inr tt, s')
      ∧ visible s' 7 = true ∧ visible s' 17 = true.
Proof.
  split; [reflexivity|]. split; [vm_compute; reflexivity|]. split; [reflexivity|].
  split; [vm_compute; reflexivity|].
  eexists. split; [vm_compute; reflexivity|]. vm_compute. done.
Qed.

(** C3 as stated fails on the nested page as [inject] leaves it: the
    count is 1, the [for] loop of [collapse] reads [items[3]], which is
    [undefined], and throws; no item is hidden, the last one included,
    and no clone is shown. *)
Lemma trailing_item_stays_on_nested_navbar :
  constructor "#menu" 50%Z nested_navbar = (inr nested_nav, nested_navbar)
  ∧ inject nested_nav nested_navbar = (inr tt, nested_injected)
  ∧ getAmountOfItemsToCollapse nested_nav nested_injected = (inr 1%Z, nested_injected)
  ∧ ∃ s',
      collapse nested_nav nested_injected = (inl TypeError, s')
      ∧ map (hidden s') (items nested_nav) = [false; false; false]
      ∧ map (hidden s') [13; 16; 17] = [true; true; true].
Proof.
  split; [reflexivity|]. split; [vm_compute; reflexivity|].
  split; [vm_compute; reflexivity|].
  eexists. split; [vm_compute; reflexivity|]. vm_compute. done.
Qed.

(** C7 as stated fails on the nested page: of two starting states of the
    same page, equally wide, that differ in whether the clone of the last
    item (element 17) is shown, [collapse] leaves that clone hidden in
    the one and shown in the other; it is never reset. *)
Lemma stale_clone_on_nested_navbar :
  forest (nested_at 400%Z) = forest (nested_shown 400%Z)
  ∧ bodyWidth (nested_at 400%Z) = bodyWidth (nested_shown 400%Z)
  ∧ subtree_of nested_injected 9
    = Some (El 9 [El 13 [El 14 [El 15 []]]; El 16 []; El 17 []])
  ∧ ∃ s1' s2',
      collapse nested_nav (nested_at 400%Z) = (inr tt, s1')
      ∧ collapse nested_nav (nested_shown 400%Z) = (inr tt, s2')
      ∧ hidden s1' 17 = true ∧ hidden s2' 17 = false.
Proof.
  split; [vm_compute; reflexivity|]. split; [vm_compute; reflexivity|].
  split; [vm_compute; reflexivity|].
  eexists _, _. split; [vm_compute; reflexivity|].
  split; [vm_compute; reflexivity|]. vm_compute. done.
Qed.

(** C5 as stated fails in its last part.  With no item at all the
    threshold is above the page width, the count is 0, the number of
    items, and [collapse] hides the menu.  On the nested page, 120 wide,
    the count is 3, the number of items, and [collapse] throws: no item
    is hidden and no clone shown.  And a first width below zero, which no
    layout gives but the claim does not exclude, leaves room under a
    threshold above the page width: the count is then 0, not 5. *)
Lemma edge_cases_fail_off_the_flat_list :
  (constructor "#menu" 50%Z empty_navbar = (inr empty_nav, empty_navbar)
   ∧ inject empty_nav empty_navbar = (inr tt, empty_injected)
   ∧ (bodyWidth empty_injected < threshold empty_nav)%Z
   ∧ getAmountOfItemsToCollapse empty_nav empty_injected
     = (inr (Z.of_nat (length (items empty_nav))), empty_injected)
   ∧ ∃ s', collapse empty_nav empty_injected = (inr tt, s')
           ∧ head (select_all s' (container empty_nav) ".collapsible-menu") = Some 4
           ∧ hidden s' 4 = true)
  ∧ (constructor "#menu" 50%Z nested_navbar = (inr nested_nav, nested_navbar)
     ∧ fits (bodyWidth (nested_at 120%Z)) (threshold nested_nav)
            (itemsDimensions nested_nav) 0 = false
     ∧ getAmountOfItemsToCollapse nested_nav (nested_at 120%Z)
       = (inr (Z.of_nat (length (items nested_nav))), nested_at 120%Z)
     ∧ ∃ s', collapse nested_nav (nested_at 120%Z) = (inl TypeError, s')
             ∧ map (hidden s') (items nested_nav) = [false; false; false]
             ∧ map (hidden s') [13; 16; 17] = [true; true; true])
  ∧ ((bodyWidth (navbar (-100)%Z 0%Z) < threshold (nav (-100)%Z 50%Z))%Z
     ∧ length (items (nav (-100)%Z 50%Z)) = 5
     ∧ getAmountOfItemsToCollapse (nav (-100)%Z 50%Z) (navbar (-100)%Z 0%Z)
       = (inr 0%Z, navbar (-100)%Z 0%Z)).
Proof.
  split; [|split].
  - split; [reflexivity|]. split; [vm_compute; reflexivity|].
    split; [reflexivity|]. split; [vm_compute; reflexivity|].
    eexists. split; [vm_compute; reflexivity|]. vm_compute. done.
  - split; [reflexivity|]. split; [vm_compute; reflexivity|].
    split; [vm_compute; reflexivity|].
    eexists. split; [vm_compute; reflexivity|]. vm_compute. done.
  - split; [reflexivity|]. split; [reflexivity|]. reflexivity.
Qed.

(** ** Beyond the menu in place *)

(** The constructor keeps, for every [li] under the container in document
    order, the width the layout gives it. *)
Theorem constructor_captures_item_widths {num : Type} `{JSNumber num}
    (selector : string) (minimum : num) (s : state num) (c : node) :
  locate s selector = Some c →
  constructor selector minimum s
  = (inr {| container := c; threshold := minimum;
            items := select_all s c "li";
            itemsDimensions :=
              map (λ item, default num_zero (rectWidth s !! item))
                  (select_all s c "li") |}, s).
Proof.
  intros Hloc. unfold constructor, queryContainer.
  erewrite bind_run by (erewrite bind_run by reflexivity; rewrite Hloc; reflexivity).
  erewrite bind_run by reflexivity.
  erewrite bind_run by apply getItemsDimensions_from_run. reflexivity.
Qed.

Lemma constructor_captures_item_widths_on_navbar :
  locate (navbar 100%Z 350%Z) "#menu" = Some 3
  ∧ constructor "#menu" 50%Z (navbar 100%Z 350%Z)
    = (inr {| container := 3; threshold := 50%Z;
              items := select_all (navbar 100%Z 350%Z) 3 "li";
              itemsDimensions :=
                map (λ item, default num_zero (rectWidth (navbar 100%Z 350%Z) !! item))
                    (select_all (navbar 100%Z 350%Z) 3 "li") |}, navbar 100%Z 350%Z).
Proof.
  split; [reflexivity|].
  apply (constructor_captures_item_widths "#menu" 50%Z (navbar 100%Z 350%Z) 3).
  reflexivity.
Defined.

(** One clone per item is not a consequence of [inject] alone.  On the
    nested page the constructor takes the inner [li] for an item too;
    [inject] copies the first item with the inner one inside and then the
    inner one again, so the dropdown lists four [li] for three items.
    With one item to collapse, the [for] loop of [collapse] reads
    [items[3]], which is [undefined], and throws; the three items stay
    visible. *)
Example nested_item_breaks_alignment :
  ∃ this s1,
    constructor "#menu" 50%Z nested_navbar = (inr this, nested_navbar)
    ∧ items this = [4; 6; 7]
    ∧ inject this nested_navbar = (inr tt, s1)
    ∧ head (select_all s1 (container this) ".collapsible-menu") = Some 8
    ∧ head (select_all s1 8 ".collapsible-dropdown") = Some 11
    ∧ select_all s1 11 "li" = [13; 15; 16; 17]
    ∧ mounted this s1 = None
    ∧ getAmountOfItemsToCollapse this s1 = (inr 1%Z, s1)
    ∧ (collapse this s1).1 = inl TypeError
    ∧ map (hidden (collapse this s1).2) (items this) = [false; false; false].
Proof.
  eexists _, _. split; [reflexivity|]. split; [reflexivity|].
  split; [vm_compute; reflexivity|]. vm_compute. done.
Qed.

(** * More of the class *)

(** ** The count as the page narrows *)

Section Narrowing.
Context {num : Type} `{JSOrder num}.
Implicit Types (this : Collapsible num) (s : state num).

(** The count never grows when the page widens or the threshold drops,
    and of the page nothing but [document.body.offsetWidth] enters it:
    the widths are those captured at construction. *)
Theorem getAmountOfItemsToCollapse_monotone this this' s s' :
  items this' = items this →
  itemsDimensions this' = itemsDimensions this →
  num_leb (threshold this') (threshold this) = true →
  num_leb (bodyWidth s) (bodyWidth s') = true →
  ∃ k k' : Z,
    getAmountOfItemsToCollapse this s = (inr k, s)
    ∧ getAmountOfItemsToCollapse this' s' = (inr k', s')
    ∧ (0 ≤ k' ≤ k)%Z.
Proof.
  intros Hitems Hdims Hth Hpw. eexists _, _.
  split; [apply getAmountOfItemsToCollapse_run|].
  split; [apply getAmountOfItemsToCollapse_run|].
  rewrite Hitems, Hdims.
  pose proof (scan_monotone (itemsDimensions this) (items this) 0 0 num_zero
                _ _ (threshold this) (threshold this') Hpw
                (λ a Ha, num_ltb_leb_trans _ _ _ Ha Hth)).
  pose proof (scan_bounds (bodyWidth s') (threshold this') (itemsDimensions this)
                (items this) 0 0 num_zero).
  lia.
Qed.

(** Of two pages with the menu in place, [collapse] on the narrower one
    hides every item it hides on the wider one, shows every clone it
    shows there, and shows the menu whenever it shows it there. *)
Theorem collapse_narrower_hides_more this s1 s2 menu clones :
  mounted this s1 = Some (menu, clones) →
  mounted this s2 = Some (menu, clones) →
  num_leb (bodyWidth s2) (bodyWidth s1) = true →
  ∃ s1' s2',
    collapse this s1 = (inr tt, s1')
    ∧ collapse this s2 = (inr tt, s2')
    ∧ (∀ item, item ∈ items this → hidden s1' item = true → hidden s2' item = true)
    ∧ (∀ clone, clone ∈ clones → visible s1' clone = true → visible s2' clone = true)
    ∧ (visible s1' menu = true → visible s2' menu = true).
Proof.
  intros Hm1 Hm2 Hpw.
  destruct (collapse_spec _ _ _ _ Hm1) as (s1' & Hrun1 & _ & Hmenu1 & Hitems1 & Hclones1).
  destruct (collapse_spec _ _ _ _ Hm2) as (s2' & Hrun2 & _ & Hmenu2 & Hitems2 & Hclones2).
  pose proof (scan_monotone (itemsDimensions this) (items this) 0 0 num_zero
                _ _ (threshold this) (threshold this) Hpw (λ a Ha, Ha)) as Hmono.
  exists s1', s2'. split; [done|]. split; [done|]. split; [|split].
  - intros item [i Hi]%list_elem_of_lookup_1.
    rewrite (Hitems1 _ _ Hi), (Hitems2 _ _ Hi), !bool_decide_eq_true. lia.
  - intros clone [i Hi]%list_elem_of_lookup_1. unfold visible.
    rewrite (Hclones1 _ _ Hi), (Hclones2 _ _ Hi), !negb_involutive, !bool_decide_eq_true.
    lia.
  - unfold visible. rewrite Hmenu1, Hmenu2, !negb_true_iff, !bool_decide_eq_false.
    pose proof (scan_bounds (bodyWidth s1) (threshold this) (itemsDimensions this)
                  (items this) 0 0 num_zero).
    lia.
Qed.

(** With widths that are not negative the running sum only grows, so the
    items that do not fit are the trailing ones: on a page with the menu
    in place [collapse] hides an item exactly when the space left once
    it is included is below the threshold. *)
Theorem collapse_hides_items_without_room this s menu clones :
  aligned this →
  (∀ w, w ∈ itemsDimensions this → num_leb num_zero w = true) →
  mounted this s = Some (menu, clones) →
  ∃ s',
    collapse this s = (inr tt, s')
    ∧ ∀ i item,
        items this !! i = Some item →
        hidden s' item
        = num_ltb (available (bodyWidth s) (itemsDimensions this) i) (threshold this).
Proof.
  intros Hal Hdims Hm.
  destruct (collapse_spec _ _ _ _ Hm) as (s' & Hrun & _ & _ & Hitems & _).
  exists s'. split; [done|]. intros i item Hi. rewrite (Hitems _ _ Hi).
  destruct (scan_run (bodyWidth s) (threshold this) (itemsDimensions this)
              (items this) 0 0) as (fit & Hscan & Hle & Hfit & Hstop);
    [by rewrite Hal|].
  change (scan (bodyWidth s) (threshold this) (itemsDimensions this)
            (items this) 0 0 num_zero = fit) in Hscan.
  simpl in Hstop. rewrite Hscan.
  apply lookup_lt_Some in Hi.
  case_bool_decide as Hge.
  - specialize (Hstop ltac:(lia)).
    pose proof (breach_later _ _ _ fit i Hdims Hge Hstop) as Hlater.
    unfold fits in Hlater. by apply negb_false_iff in Hlater.
  - specialize (Hfit i ltac:(lia)). unfold fits in Hfit.
    by apply negb_true_iff in Hfit.
Qed.

End Narrowing.

(** The three theorems at work on binary64 numbers with widths that are
    not whole. *)
Lemma monotone_on_navbar :
  (items (nav 100.5%float 30.125%float) = items nav_half
   ∧ itemsDimensions (nav 100.5%float 30.125%float) = itemsDimensions nav_half
   ∧ num_leb (threshold (nav 100.5%float 30.125%float)) (threshold nav_half) = true
   ∧ num_leb (bodyWidth (navbar_half 250.25%float))
             (bodyWidth (navbar_half 350.75%float)) = true)
  ∧ ∃ k k' : Z,
      getAmountOfItemsToCollapse nav_half (navbar_half 250.25%float)
      = (inr k, navbar_half 250.25%float)
      ∧ getAmountOfItemsToCollapse (nav 100.5%float 30.125%float)
          (navbar_half 350.75%float)
        = (inr k', navbar_half 350.75%float)
      ∧ (0 ≤ k' ≤ k)%Z.
Proof.
  split; [repeat split; reflexivity|].
  apply (getAmountOfItemsToCollapse_monotone
           nav_half (nav 100.5%float 30.125%float)
           (navbar_half 250.25%float) (navbar_half 350.75%float));
    reflexivity.
Defined.

Lemma narrower_hides_more_on_navbar :
  (mounted nav_half (injected_half 350.75%float) = Some (menu9, clones14)
   ∧ mounted nav_half (widened_half 250.25%float) = Some (menu9, clones14)
   ∧ num_leb (bodyWidth (widened_half 250.25%float))
             (bodyWidth (injected_half 350.75%float)) = true)
  ∧ ∃ s1' s2',
      collapse nav_half (injected_half 350.75%float) = (inr tt, s1')
      ∧ collapse nav_half (widened_half 250.25%float) = (inr tt, s2')
      ∧ (∀ item, item ∈ items nav_half → hidden s1' item = true → hidden s2' item = true)
      ∧ (∀ clone, clone ∈ clones14 →
           visible s1' clone = true → visible s2' clone = true)
      ∧ (visible s1' menu9 = true → visible s2' menu9 = true).
Proof.
  split; [split; [|split]; vm_compute; reflexivity|].
  apply (collapse_narrower_hides_more
           nav_half (injected_half 350.75%float) (widened_half 250.25%float)
           menu9 clones14);
    vm_compute; reflexivity.
Defined.

Lemma hides_items_without_room_on_navbar :
  (aligned nav_half
   ∧ (∀ w, w ∈ itemsDimensions nav_half → num_leb num_zero w = true)
   ∧ mounted nav_half (injected_half 350.75%float) = Some (menu9, clones14))
  ∧ ∃ s',
      collapse nav_half (injected_half 350.75%float) = (inr tt, s')
      ∧ ∀ i item,
          items nav_half !! i = Some item →
          hidden s' item
          = num_ltb (available (bodyWidth (injected_half 350.75%float))
                               (itemsDimensions nav_half) i)
                    (threshold nav_half).
Proof.
  assert (Hwidths : ∀ w, w ∈ itemsDimensions nav_half → num_leb num_zero w = true)
    by (apply Forall_forall; repeat constructor).
  split; [split; [reflexivity | split; [exact Hwidths | vm_compute; reflexivity]]|].
  apply (collapse_hides_items_without_room
           nav_half (injected_half 350.75%float) menu9 clones14);
    [reflexivity | exact Hwidths | vm_compute; reflexivity].
Defined.

(** ** A threshold that is not a number *)

Section NotANumber.
Implicit Types (this : Collapsible float) (s : state float).

Lemma float_ltb_nan (x : float) : PrimFloat.ltb x nan = false.
Proof.
  rewrite ltb_spec. unfold SFltb, SFcompare.
  replace (Prim2SF nan) with S754_nan by (vm_compute; reflexivity).
  by destruct (Prim2SF x) as [[]| [] | | [] ? ?].
Qed.

(** In binary64 no number is below NaN: with a NaN threshold the test of
    the loop never holds, every item counts as fitting and the count is
    [0], whatever the widths and the page; [collapse] then shows every
    item and hides the menu. *)
Theorem nan_threshold_collapses_nothing this s :
  aligned this →
  threshold this = nan →
  getAmountOfItemsToCollapse this s = (inr 0%Z, s)
  ∧ ∀ menu clones,
      mounted this s = Some (menu, clones) →
      ∃ s',
        collapse this s = (inr tt, s')
        ∧ hidden s' menu = true
        ∧ ∀ item, item ∈ items this → visible s' item = true.
Proof.
  intros Hal Hnan.
  assert (Hscan : scan (bodyWidth s) (threshold this) (itemsDimensions this)
                    (items this) 0 0 num_zero = length (items this)).
  { apply (scan_all_fit _ _ Hal). intros j _. unfold fits. rewrite Hnan. simpl.
    by rewrite float_ltb_nan. }
  split.
  - rewrite getAmountOfItemsToCollapse_run, Hscan. do 2 f_equal. lia.
  - intros menu clones Hm.
    destruct (collapse_spec _ _ _ _ Hm) as (s' & Hrun & _ & Hmenu & Hitems & _).
    rewrite Hscan in Hmenu, Hitems.
    exists s'. split; [done|]. split; [by rewrite Hmenu, bool_decide_eq_true_2|].
    intros item [i Hi]%list_elem_of_lookup_1. unfold visible.
    rewrite (Hitems _ _ Hi), bool_decide_eq_false_2; [done|].
    apply lookup_lt_Some in Hi. lia.
Qed.

Lemma nan_threshold_on_navbar :
  (aligned (nav 100%float nan) ∧ threshold (nav 100%float nan) = nan)
  ∧ getAmountOfItemsToCollapse (nav 100%float nan) (navbar 100%float 40%float)
    = (inr 0%Z, navbar 100%float 40%float)
  ∧ ∀ menu clones,
      mounted (nav 100%float nan) (navbar 100%float 40%float) = Some (menu, clones) →
      ∃ s',
        collapse (nav 100%float nan) (navbar 100%float 40%float) = (inr tt, s')
        ∧ hidden s' menu = true
        ∧ ∀ item, item ∈ items (nav 100%float nan) → visible s' item = true.
Proof.
  split; [split; reflexivity|].
  apply (nan_threshold_collapses_nothing (nav 100%float nan) (navbar 100%float 40%float));
    reflexivity.
Defined.

End NotANumber.

(** ** Where [collapse] throws *)

Section Throwing.
Context {num : Type} `{JSNumber num}.
Implicit Types (this : Collapsible num) (s : state num).
Local Open Scope js_scope.

Lemma bind_throws {A B} (c : M num A) (k : A → M num B) s e :
  (c s).1 = inl e → (bind c k s).1 = inl e.
Proof. unfold bind. by destruct (c s) as [[?|?] ?]; simpl; [intros [= ->]|]. Qed.

(** Past its queries, [collapse] runs [collapse_with]. *)
Lemma collapse_after_queries this s menu dropdown :
  head (select_all s (container this) ".collapsible-menu") = Some menu →
  head (select_all s menu ".collapsible-dropdown") = Some dropdown →
  collapse this s = collapse_with this menu (select_all s dropdown "li") s.
Proof.
  intros Hmenu Hdrop. unfold collapse, collapse_with.
  erewrite bind_run by reflexivity. cbv beta. rewrite Hmenu.
  erewrite bind_run by reflexivity. cbv beta.
  erewrite bind_run by reflexivity. cbv beta. rewrite Hdrop.
  erewrite bind_run by reflexivity. cbv beta.
  erewrite bind_run by reflexivity. reflexivity.
Qed.

(** The [forEach] of [collapse] reads past the end of a list of clones
    that is shorter than the list of items. *)
Lemma reset_loop_throws (dropdownItems : list node) (l : list node) :
  ∀ (index : nat) s,
    index ≤ length dropdownItems → length dropdownItems < index + length l →
    (forEach (λ item index,
                let clone := dropdownItems !! index in
                classList_remove item "hide" ;;
                clone <- deref clone ;;
                classList_add clone ["hide"]) l index s).1 = inl TypeError.
Proof.
  induction l as [|x l IH]; intros index s Hle Hlt; simpl in *; [lia|].
  destruct (dropdownItems !! index) as [c|] eqn:Hc.
  - erewrite bind_run; [apply IH|].
    + apply lookup_lt_Some in Hc. lia.
    + lia.
    + erewrite bind_run by reflexivity. erewrite bind_run by reflexivity. reflexivity.
  - apply bind_throws. erewrite bind_run by reflexivity. reflexivity.
Qed.

Lemma reset_loop_returns (dropdownItems : list node) (l : list node) :
  ∀ (index : nat) s,
    index + length l ≤ length dropdownItems →
    ∃ s',
      forEach (λ item index,
                 let clone := dropdownItems !! index in
                 classList_remove item "hide" ;;
                 clone <- deref clone ;;
                 classList_add clone ["hide"]) l index s = (inr tt, s').
Proof.
  induction l as [|x l IH]; intros index s Hle; simpl in *; [by eexists|].
  destruct (lookup_lt_is_Some_2 dropdownItems index) as [c Hc]; [lia|].
  rewrite Hc.
  erewrite bind_run;
    [|erewrite bind_run by reflexivity; erewrite bind_run by reflexivity; reflexivity].
  apply IH. lia.
Qed.

(** [collapse] before [inject]: with no [.collapsible-menu] under the
    container, or a menu that holds no [.collapsible-dropdown], the
    second or third statement reads a property of [null]; the call throws
    and the page is as it was. *)
Theorem collapse_without_menu_throws this s :
  (head (select_all s (container this) ".collapsible-menu") = None →
   collapse this s = (inl TypeError, s))
  ∧ (∀ menu,
       head (select_all s (container this) ".collapsible-menu") = Some menu →
       head (select_all s menu ".collapsible-dropdown") = None →
       collapse this s = (inl TypeError, s)).
Proof.
  split.
  - intros Hnone. unfold collapse.
    erewrite bind_run by reflexivity. cbv beta. rewrite Hnone.
    by erewrite bind_throw by reflexivity.
  - intros menu Hmenu Hnone. unfold collapse.
    erewrite bind_run by reflexivity. cbv beta. rewrite Hmenu.
    erewrite bind_run by reflexivity. cbv beta.
    erewrite bind_run by reflexivity. cbv beta. rewrite Hnone.
    by erewrite bind_throw by reflexivity.
Qed.

(** A dropdown that does not list one [li] per item.  With fewer [li]
    than items the [forEach] reads [undefined] for a clone and [collapse]
    throws.  With more [li] than items the [for] loop starts from the
    last [li], where there is no item: [collapse] throws exactly when the
    count is not [0]. *)
Theorem collapse_throws_on_misaligned_dropdown this s menu dropdown (k : Z) :
  head (select_all s (container this) ".collapsible-menu") = Some menu →
  head (select_all s menu ".collapsible-dropdown") = Some dropdown →
  getAmountOfItemsToCollapse this s = (inr k, s) →
  (length (select_all s dropdown "li") < length (items this) →
   (collapse this s).1 = inl TypeError)
  ∧ (length (items this) < length (select_all s dropdown "li") →
     if (k =? 0)%Z then ∃ s', collapse this s = (inr tt, s')
     else (collapse this s).1 = inl TypeError).
Proof.
  intros Hmenu Hdrop Hk.
  assert (Hbounds : (0 ≤ k)%Z).
  { rewrite getAmountOfItemsToCollapse_run in Hk. injection Hk as <-.
    pose proof (scan_bounds (bodyWidth s) (threshold this) (itemsDimensions this)
                  (items this) 0 0 num_zero). lia. }
  rewrite (collapse_after_queries _ _ _ _ Hmenu Hdrop). unfold collapse_with.
  set (dropdownItems := select_all s dropdown "li").
  erewrite bind_run by exact Hk.
  erewrite bind_run by reflexivity.
  set (s1 := unhide menu s).
  assert (Hs2 : ∃ s2, (if (k =? 0)%Z then classList_add menu ["hide"] else ret tt) s1
                      = (inr tt, s2)) by (destruct (k =? 0)%Z; by eexists).
  destruct Hs2 as [s2 Hs2]. erewrite bind_run by exact Hs2.
  split.
  - intros Hfew. apply bind_throws, reset_loop_throws; lia.
  - intros Hmany.
    destruct (reset_loop_returns dropdownItems (items this) 0 s2) as [s3 Hs3]; [simpl; lia|].
    erewrite bind_run by exact Hs3.
    destruct (Z.eqb_spec k 0) as [->|Hne]; [by eexists|].
    destruct (Z.to_nat k) as [|n] eqn:Hn; [lia|]. simpl.
    apply bind_throws.
    replace (Z.of_nat (length dropdownItems) - 0 - 1)%Z
      with (Z.of_nat (length dropdownItems - 1)) by lia.
    rewrite at_index_nat, lookup_ge_None_2 by lia. reflexivity.
Qed.

End Throwing.

Lemma without_menu_throws_on_navbar :
  (head (select_all (navbar 100%Z 350%Z) (container nav100) ".collapsible-menu") = None
   ∧ collapse nav100 (navbar 100%Z 350%Z) = (inl TypeError, navbar 100%Z 350%Z))
  ∧ (head (select_all navbar_bare_menu (container nav100) ".collapsible-menu") = Some 4
     ∧ head (select_all navbar_bare_menu 4 ".collapsible-dropdown") = None
     ∧ collapse nav100 navbar_bare_menu = (inl TypeError, navbar_bare_menu)).
Proof.
  split.
  - split; [reflexivity|].
    apply (proj1 (collapse_without_menu_throws nav100 (navbar 100%Z 350%Z))).
    reflexivity.
  - split; [reflexivity|]. split; [reflexivity|].
    apply (proj2 (collapse_without_menu_throws nav100 navbar_bare_menu) 4);
      reflexivity.
Defined.

Lemma misaligned_dropdown_on_nested_navbar :
  (head (select_all nested_injected (container nested_nav) ".collapsible-menu") = Some 8
   ∧ head (select_all nested_injected 8 ".collapsible-dropdown") = Some 11
   ∧ getAmountOfItemsToCollapse nested_nav nested_injected = (inr 1%Z, nested_injected))
  ∧ (length (select_all nested_injected 11 "li") < length (items nested_nav) →
     (collapse nested_nav nested_injected).1 = inl TypeError)
  ∧ (length (items nested_nav) < length (select_all nested_injected 11 "li") →
     if (1 =? 0)%Z then ∃ s', collapse nested_nav nested_injected = (inr tt, s')
     else (collapse nested_nav nested_injected).1 = inl TypeError).
Proof.
  split; [split; [|split]; vm_compute; reflexivity|].
  apply (collapse_throws_on_misaligned_dropdown nested_nav nested_injected 8 11 1%Z);
    vm_compute; reflexivity.
Defined.

(** ** What [collapse] leaves alone *)

Section Frame.
Context {num : Type} `{JSNumber num}.
Implicit Types (this : Collapsible num) (s : state num) (E : list node).
Local Open Scope js_scope.

Lemma hide_within_refl E s : hide_within E s s.
Proof. split; [apply same_but_hide_refl | done]. Qed.

Lemma hide_within_trans E s1 s2 s3 :
  hide_within E s1 s2 → hide_within E s2 s3 → hide_within E s1 s3.
Proof.
  intros [H12 K12] [H23 K23]. split; [by eapply same_but_hide_trans|].
  intros n Hn. by rewrite K23, K12.
Qed.

#[local] Instance hide_within_preorder E : PreOrder (hide_within (num:=num) E).
Proof. split; [intros s; apply hide_within_refl | intros ? ? ?; apply hide_within_trans]. Qed.

Lemma hide_within_hide E n s : n ∈ E → hide_within E s (hide n s).
Proof.
  intros Hn. split; [apply same_but_hide_hide|].
  intros m Hm. unfold hide, set_classes. simpl.
  rewrite lookup_insert_ne; [done | by intros ->].
Qed.

Lemma hide_within_unhide E n s : n ∈ E → hide_within E s (unhide n s).
Proof.
  intros Hn. split; [apply same_but_hide_unhide|].
  intros m Hm. unfold unhide, set_classes. simpl.
  rewrite lookup_insert_ne; [done | by intros ->].
Qed.

Lemma edits_bind (R : relation (state num)) `{!Transitive R} {A B}
    (c : M num A) (k : A → M num B) :
  edits R c → (∀ a, edits R (k a)) → edits R (bind c k).
Proof.
  intros Hc Hk s. unfold bind. specialize (Hc s).
  destruct (c s) as [[e|a] s1]; simpl in *; [done|]. etrans; [done | apply Hk].
Qed.

Lemma edits_forEach (R : relation (state num)) `{!PreOrder R} {A}
    (body : A → nat → M num unit) (l : list A) :
  (∀ x i, x ∈ l → edits R (body x i)) → ∀ i, edits R (forEach body l i).
Proof.
  induction l as [|x l IH]; intros Hbody i; simpl; [by intros s|].
  apply edits_bind; [apply _ | apply Hbody; by left|].
  intros _. apply IH. intros y j Hy. apply Hbody. by right.
Qed.

Lemma edits_for_loop (R : relation (state num)) `{!PreOrder R}
    (body : Z → M num unit) (n : nat) :
  (∀ i, edits R (body i)) → ∀ i, edits R (for_loop n i body).
Proof.
  intros Hbody. induction n as [|n IH]; intros i; simpl; [by intros s|].
  apply edits_bind; [apply _ | done | auto].
Qed.

Lemma at_index_elem {A} (l : list A) (i : Z) (x : A) : at_index l i = Some x → x ∈ l.
Proof.
  unfold at_index. destruct (0 <=? i)%Z; [|done]. apply list_elem_of_lookup_2.
Qed.

(** A query of [collapse] that finds nothing ends the call there. *)
Lemma collapse_stops this s :
  match head (select_all s (container this) ".collapsible-menu") with
  | None => True
  | Some menu => head (select_all s menu ".collapsible-dropdown") = None
  end →
  (collapse this s).2 = s.
Proof.
  unfold collapse. erewrite bind_run by reflexivity. cbv beta.
  destruct (head (select_all s (container this) ".collapsible-menu")) as [menu|];
    [|by erewrite bind_throw by reflexivity].
  intros Hnone.
  erewrite bind_run by reflexivity. cbv beta.
  erewrite bind_run by reflexivity. cbv beta. rewrite Hnone.
  by erewrite bind_throw by reflexivity.
Qed.

Lemma collapse_with_within E this menu (dropdownItems : list node) :
  menu ∈ E → (∀ x, x ∈ items this → x ∈ E) → (∀ x, x ∈ dropdownItems → x ∈ E) →
  edits (hide_within E) (collapse_with this menu dropdownItems).
Proof.
  intros Hmenu Hitems Hclones. unfold collapse_with.
  apply (edits_bind (hide_within E)); [by intros s0|]. intros k.
  apply (edits_bind (hide_within E)); [intros s0; by apply hide_within_unhide|].
  intros _. apply (edits_bind (hide_within E)).
  { destruct (k =? 0)%Z; intros s0; [by apply hide_within_hide | done]. }
  intros _. apply (edits_bind (hide_within E)).
  - apply (edits_forEach (hide_within E)). intros x i Hx.
    apply (edits_bind (hide_within E));
      [intros s0; apply hide_within_unhide; auto|].
    intros _ s0. destruct (dropdownItems !! i) as [c|] eqn:Hc; [|reflexivity].
    apply (hide_within_hide E c s0). eauto using list_elem_of_lookup_2.
  - intros _. apply (edits_for_loop (hide_within E)). intros i s0. cbv zeta.
    destruct (at_index (items this) _) as [x|] eqn:Hx; [|reflexivity].
    apply at_index_elem in Hx.
    destruct (at_index dropdownItems _) as [c|] eqn:Hc.
    + apply at_index_elem in Hc.
      trans (hide x s0); [apply hide_within_hide | apply (hide_within_unhide E c)]; auto.
    + apply (hide_within_hide E x s0). auto.
Qed.

(** Whatever the page, and also when it throws, [collapse] edits class
    lists only, there the class [hide] only, and only on the items, on
    the menu and on the [li] of the dropdown that its queries found. *)
Theorem collapse_edits_only_hide this s :
  same_but_hide s (collapse this s).2
  ∧ ∀ n, classList (collapse this s).2 !! n ≠ classList s !! n →
      n ∈ items this
      ∨ ∃ menu,
          head (select_all s (container this) ".collapsible-menu") = Some menu
          ∧ (n = menu
             ∨ ∃ dropdown,
                 head (select_all s menu ".collapsible-dropdown") = Some dropdown
                 ∧ n ∈ select_all s dropdown "li").
Proof.
  destruct (head (select_all s (container this) ".collapsible-menu")) as [menu|] eqn:Hmenu;
    [|rewrite (collapse_stops this s) by (by rewrite Hmenu);
      split; [apply same_but_hide_refl | done]].
  destruct (head (select_all s menu ".collapsible-dropdown")) as [dropdown|] eqn:Hdrop;
    [|rewrite (collapse_stops this s) by (by rewrite Hmenu);
      split; [apply same_but_hide_refl | done]].
  destruct (collapse_with_within (menu :: items this ++ select_all s dropdown "li")
              this menu (select_all s dropdown "li")) with (s := s) as [Hsame Helse].
  { by left. }
  { intros x Hx. right. apply elem_of_app. by left. }
  { intros x Hx. right. apply elem_of_app. by right. }
  rewrite (collapse_after_queries _ _ _ _ Hmenu Hdrop).
  split; [done|]. intros n Hn.
  destruct (decide (n ∈ menu :: items this ++ select_all s dropdown "li")) as [Hin|Hout];
    [|by destruct Hn; apply Helse].
  apply elem_of_cons in Hin as [->|[Hin|Hin]%elem_of_app].
  - right. exists menu. split; [done|]. by left.
  - by left.
  - right. exists menu. split; [done|]. right. by exists dropdown.
Qed.

End Frame.

(** * The menu that [inject] puts in place *)

(** ** Trees *)

Section Trees.

Lemma dom_rect' (P : dom → Prop) :
  (∀ id ks, Forall P ks → P (El id ks)) → ∀ t, P t.
Proof.
  intros Hstep. fix rec 1. intros [id ks]. apply Hstep.
  induction ks as [|k ks IH]; constructor; [apply rec | apply IH].
Qed.

Lemma subtree_unfold n id ks :
  subtree n (El id ks)
  = if decide (id = n) then Some (El id ks) else first_some (subtree n) ks.
Proof.
  simpl. destruct (decide (id = n)); [done|].
  induction ks as [|k ks IH]; simpl; [done|]. by rewrite IH.
Qed.

Lemma first_some_None {A B} (f : A → option B) l :
  (∀ x, x ∈ l → f x = None) → first_some f l = None.
Proof.
  induction l as [|x l IH]; intros Hall; simpl; [done|].
  rewrite Hall by left. apply IH. intros y Hy. apply Hall. by right.
Qed.

Lemma first_some_app {A B} (f : A → option B) l1 l2 :
  first_some f (l1 ++ l2)
  = match first_some f l1 with Some r => Some r | None => first_some f l2 end.
Proof.
  induction l1 as [|x l1 IH]; simpl; [done|]. by destruct (f x).
Qed.

Lemma list_find_first_some {A B} (f : A → option B) l :
  list_find (λ o, is_Some o) (map f l) ≫= snd = first_some f l.
Proof.
  induction l as [|x l IH]; simpl; [done|].
  destruct (f x) as [r|] eqn:Hx.
  - rewrite decide_True by eauto. done.
  - rewrite decide_False by (intros [? ?]; done).
    rewrite <- IH. by destruct (list_find _ _) as [[? ?]|].
Qed.

Lemma root_in_preorder t : root t ∈ preorder t.
Proof. destruct t. simpl. by left. Qed.

Lemma elem_of_flat_map_preorder n ks :
  n ∈ flat_map preorder ks ↔ ∃ k, k ∈ ks ∧ n ∈ preorder k.
Proof.
  induction ks as [|k ks IH]; simpl.
  - split; [by intros ?%not_elem_of_nil | by intros (? & ?%not_elem_of_nil & _)].
  - rewrite elem_of_app, IH. split.
    + intros [?|(k' & ? & ?)]; [exists k | exists k']; split; try done; by constructor.
    + intros (k' & [->|?]%elem_of_cons & ?); [by left | right; eauto].
Qed.

Lemma subtree_notin n t : n ∉ preorder t → subtree n t = None.
Proof.
  induction t as [id ks IH] using dom_rect'. intros Hn.
  rewrite subtree_unfold. simpl in Hn. rewrite not_elem_of_cons in Hn.
  destruct Hn as [Hne Hks]. rewrite decide_False by done.
  apply first_some_None. intros k Hk. rewrite Forall_forall in IH. apply IH; [done|].
  intros Hin. apply Hks, elem_of_flat_map_preorder. eauto.
Qed.

Lemma prune_notin n t : n ∉ preorder t → prune n t = t.
Proof.
  induction t as [id ks IH] using dom_rect'. intros Hn. simpl in *.
  rewrite not_elem_of_cons in Hn. destruct Hn as [_ Hks]. f_equal.
  induction ks as [|k ks IHks]; simpl; [done|].
  apply Forall_cons in IH as [Hk IH].
  assert (Hnk : n ∉ preorder k).
  { intros Hin. apply Hks. simpl. apply elem_of_app. by left. }
  rewrite (Hk Hnk). rewrite filter_cons_True.
  - f_equal. apply IHks; [done|]. intros Hin. apply Hks. simpl. apply elem_of_app. by right.
  - intros <-. apply Hnk, root_in_preorder.
Qed.

Lemma graft_notin p c t : p ∉ preorder t → graft p c t = t.
Proof.
  induction t as [id ks IH] using dom_rect'. intros Hp. simpl in *.
  rewrite not_elem_of_cons in Hp. destruct Hp as [Hne Hks].
  rewrite decide_False by done. f_equal.
  induction ks as [|k ks IHks]; simpl; [done|].
  apply Forall_cons in IH as [Hk IH]. f_equal.
  - apply Hk. intros Hin. apply Hks. simpl. apply elem_of_app. by left.
  - apply IHks; [done|]. intros Hin. apply Hks. simpl. apply elem_of_app. by right.
Qed.

End Trees.

(** ** Deep copies *)

Section Copies.

Lemma copy_unfold next id ks :
  copy next (El id ks)
  = let '(next', ks', pairs) := copy_each (S next) ks in
    (next', El next ks', (id, next) :: pairs).
Proof.
  simpl.
  assert (Heach : ∀ l n,
    (fix each (n : node) (l : list dom) : node * list dom * list (node * node) :=
       match l with
       | [] => (n, [], [])
       | k :: l' =>
           let '(n1, k', p1) := copy n k in
           let '(n2, l'', p2) := each n1 l' in
           (n2, k' :: l'', p1 ++ p2)
       end) n l = copy_each n l).
  { induction l as [|k l IH]; intros n; simpl; [done|].
    destruct (copy n k) as [[n1 k'] p1]. by rewrite IH. }
  by rewrite Heach.
Qed.

Lemma copy_spec t :
  ∀ next, ∃ t',
    copy next t = (next + size t, t', zip (preorder t) (seq next (size t)))
    ∧ preorder t' = seq next (size t).
Proof.
  induction t as [id ks IH] using dom_rect'. intros next.
  assert (Heach : ∀ n, ∃ ks',
    copy_each n ks
    = (n + length (flat_map preorder ks), ks',
       zip (flat_map preorder ks) (seq n (length (flat_map preorder ks))))
    ∧ flat_map preorder ks' = seq n (length (flat_map preorder ks))).
  { clear next. induction ks as [|k ks IHks]; intros n; simpl.
    - exists []. by rewrite Nat.add_0_r.
    - apply Forall_cons in IH as [Hk IH].
      destruct (Hk n) as (k' & Hcopy & Hpre). rewrite Hcopy.
      destruct (IHks IH (n + size k)) as (ks' & Heach & Hpres). rewrite Heach.
      exists (k' :: ks'). unfold size in *. simpl.
      rewrite length_app, seq_app, Hpre, Hpres.
      rewrite zip_with_app by by rewrite length_seq.
      split; [|done]. do 2 f_equal. lia. }
  rewrite copy_unfold. destruct (Heach (S next)) as (ks' & Hcopy & Hpre).
  rewrite Hcopy. exists (El next ks'). unfold size. simpl. rewrite Hpre.
  split; [|done]. do 2 f_equal. lia.
Qed.

Lemma copy_root next t t' n' pairs : copy next t = (n', t', pairs) → root t' = next.
Proof.
  destruct t as [id ks]. rewrite copy_unfold.
  destruct (copy_each (S next) ks) as [[? ?] ?]. intros Heq. injection Heq as _ <- _. done.
Qed.

(** The attributes given to fresh copies. *)
Lemma copy_attr_fold_notin {V} (pairs : list (node * node)) (m acc : gmap node V) x :
  x ∉ pairs.*2 →
  foldl (λ acc '(old, new),
           match m !! old with Some v => <[new := v]> acc | None => acc end)
        acc pairs !! x
  = acc !! x.
Proof.
  revert acc. induction pairs as [|[old new] pairs IH]; intros acc Hx; simpl in *; [done|].
  rewrite not_elem_of_cons in Hx. destruct Hx as [Hne Hx].
  rewrite IH by done. destruct (m !! old); [|done].
  by rewrite lookup_insert_ne.
Qed.

Lemma copy_attr_notin {V} (pairs : list (node * node)) (m : gmap node V) x :
  x ∉ pairs.*2 → copy_attr pairs m !! x = m !! x.
Proof. apply copy_attr_fold_notin. Qed.

Lemma copy_attr_in {V} (pairs : list (node * node)) (m : gmap node V) old new :
  NoDup pairs.*2 → (old, new) ∈ pairs → m !! new = None →
  copy_attr pairs m !! new = m !! old.
Proof.
  unfold copy_attr. intros Hnd Hin Hnew.
  assert (Hgen : ∀ acc : gmap node V,
    foldl (λ acc '(old, new),
             match m !! old with Some v => <[new := v]> acc | None => acc end)
          acc pairs !! new
    = match m !! old with Some v => Some v | None => acc !! new end).
  { revert Hnd Hin. induction pairs as [|[o n] pairs IH]; intros Hnd Hin acc; simpl in *.
    { by apply not_elem_of_nil in Hin. }
    apply NoDup_cons in Hnd as [Hn Hnd].
    apply elem_of_cons in Hin as [[= <- <-]|Hin].
    - rewrite copy_attr_fold_notin by done.
      destruct (m !! old); [by rewrite lookup_insert_eq | done].
    - rewrite IH by done. destruct (m !! old) as [v|] eqn:Hold; [done|].
      destruct (m !! o); [|done]. rewrite lookup_insert_ne; [done|].
      intros ->. apply Hn. apply list_elem_of_fmap. by exists (old, new). }
  rewrite Hgen. by destruct (m !! old); rewrite ?Hnew.
Qed.

End Copies.

(** ** Subtrees and grafting *)

Section Grafting.

Lemma first_some_Some {A B} (f : A → option B) l r :
  first_some f l = Some r →
  ∃ l1 x l2, l = l1 ++ x :: l2 ∧ (∀ y, y ∈ l1 → f y = None) ∧ f x = Some r.
Proof.
  induction l as [|x l IH]; simpl; [done|].
  destruct (f x) as [r'|] eqn:Hx.
  - intros [= ->]. exists [], x, l. split; [done|]. split; [|done].
    by intros y ?%not_elem_of_nil.
  - intros (l1 & y & l2 & -> & Hnone & Hy)%IH. exists (x :: l1), y, l2.
    split; [done|]. split; [|done]. by intros z [->|?]%elem_of_cons; auto.
Qed.

Lemma subtree_root n t r : subtree n t = Some r → root r = n.
Proof.
  revert r. induction t as [id ks IH] using dom_rect'. intros r.
  rewrite subtree_unfold. destruct (decide (id = n)) as [->|Hne]; [by intros [= <-]|].
  intros (l1 & k & l2 & -> & _ & Hk)%first_some_Some.
  rewrite Forall_forall in IH. eapply IH; [|done]. set_solver.
Qed.

Lemma subtree_sublist n t r :
  subtree n t = Some r → preorder r `sublist_of` preorder t.
Proof.
  revert r. induction t as [id ks IH] using dom_rect'. intros r.
  rewrite subtree_unfold. destruct (decide (id = n)) as [->|Hne]; [by intros [= <-]|].
  intros (l1 & k & l2 & -> & _ & Hk)%first_some_Some. simpl.
  apply sublist_cons. rewrite flat_map_app. simpl.
  apply sublist_inserts_l, sublist_inserts_r.
  rewrite Forall_forall in IH. apply IH; [|done]. set_solver.
Qed.

Lemma subtree_in n t : n ∈ preorder t → is_Some (subtree n t).
Proof.
  induction t as [id ks IH] using dom_rect'. intros Hn.
  rewrite subtree_unfold. destruct (decide (id = n)) as [->|Hne]; [by eexists|].
  simpl in Hn. apply elem_of_cons in Hn as [->|Hn]; [done|].
  apply elem_of_flat_map_preorder in Hn as (k & Hk & Hn).
  rewrite Forall_forall in IH. specialize (IH k Hk Hn).
  clear -Hk IH. induction ks as [|k' ks IHks]; simpl.
  { by apply not_elem_of_nil in Hk. }
  destruct (subtree n k') eqn:Hk'; [by eexists|].
  apply elem_of_cons in Hk as [->|Hk]; [|by apply IHks].
  rewrite Hk' in IH. by destruct IH.
Qed.

Lemma subtree_None n t : subtree n t = None → n ∉ preorder t.
Proof. intros Hnone Hin. apply subtree_in in Hin as [r Hr]. congruence. Qed.

Lemma first_some_subtree_notin n (G : list dom) :
  n ∉ flat_map preorder G → first_some (subtree n) G = None.
Proof.
  intros Hn. apply first_some_None. intros t Ht. apply subtree_notin.
  intros Hin. apply Hn, elem_of_flat_map_preorder. eauto.
Qed.

Lemma map_prune_notin n (G : list dom) :
  n ∉ flat_map preorder G → map (prune n) G = G.
Proof.
  induction G as [|t G IH]; simpl; [done|]. rewrite elem_of_app.
  intros Hn. rewrite prune_notin by tauto. rewrite IH by tauto. done.
Qed.

Lemma map_graft_notin p c (G : list dom) :
  p ∉ flat_map preorder G → map (graft p c) G = G.
Proof.
  induction G as [|t G IH]; simpl; [done|]. rewrite elem_of_app.
  intros Hn. rewrite graft_notin by tauto. rewrite IH by tauto. done.
Qed.

Lemma filter_root_notin n (G : list dom) :
  n ∉ flat_map preorder G → filter (λ r, root r ≠ n) G = G.
Proof.
  induction G as [|t G IH]; simpl; [done|]. rewrite elem_of_app.
  intros Hn. rewrite filter_cons_True.
  - rewrite IH by tauto. done.
  - intros <-. apply Hn. left. apply root_in_preorder.
Qed.

Lemma graft_unfold p c id ks :
  graft p c (El id ks)
  = El id (if decide (id = p) then map (graft p c) ks ++ [c] else map (graft p c) ks).
Proof. reflexivity. Qed.

Lemma graft_root p c ks :
  p ∉ flat_map preorder ks → graft p c (El p ks) = El p (ks ++ [c]).
Proof. intros Hp. simpl. by rewrite decide_True, map_graft_notin. Qed.

(** Grafting under [c] shows in the subtree of [c]. *)
Lemma subtree_graft_self c M t ks :
  NoDup (preorder t) → subtree c t = Some (El c ks) →
  subtree c (graft c M t) = Some (El c (ks ++ [M])).
Proof.
  revert ks. induction t as [id kids IH] using dom_rect'. intros ks Hnd.
  rewrite subtree_unfold. destruct (decide (id = c)) as [->|Hne].
  - intros [= ->]. simpl in Hnd. apply NoDup_cons in Hnd as [Hc _].
    rewrite graft_root by done. rewrite (subtree_unfold c c (ks ++ [M])). by rewrite decide_True.
  - intros Hsub. rewrite graft_unfold, decide_False by done.
    rewrite subtree_unfold, decide_False by done.
    simpl in Hnd. apply NoDup_cons in Hnd as [_ Hnd].
    induction kids as [|k kids IHkids]; simpl in *; [done|].
    apply Forall_cons in IH as [Hk IH]. apply NoDup_app in Hnd as (Hndk & _ & Hndks).
    destruct (subtree c k) as [r|] eqn:Hck.
    + injection Hsub as ->. by rewrite (Hk ks Hndk eq_refl).
    + rewrite graft_notin by by apply subtree_None. rewrite Hck. by apply IHkids.
Qed.

(** Elements of the grafted tree are found in it. *)
Lemma subtree_graft_new x c M t :
  NoDup (preorder t) → c ∈ preorder t → x ∉ preorder t →
  subtree x (graft c M t) = subtree x M.
Proof.
  induction t as [id kids IH] using dom_rect'. intros Hnd Hc Hx. simpl in Hnd, Hc, Hx.
  apply NoDup_cons in Hnd as [Hid Hnd].
  rewrite not_elem_of_cons in Hx. destruct Hx as [Hxid Hx].
  assert (Hkids : ∀ l, (∀ k, k ∈ l → k ∈ kids) → c ∉ flat_map preorder l →
                       first_some (subtree x) (map (graft c M) l) = None).
  { intros l Hl Hcl. rewrite map_graft_notin by done.
    apply first_some_subtree_notin. intros Hin. apply Hx.
    apply elem_of_flat_map_preorder in Hin as (k & Hk & Hin).
    apply elem_of_flat_map_preorder. eauto. }
  rewrite graft_unfold.
  destruct (decide (id = c)) as [->|Hne].
  - rewrite subtree_unfold, decide_False by done.
    rewrite first_some_app, Hkids by done. simpl. by destruct (subtree x M).
  - rewrite subtree_unfold, decide_False by done.
    apply elem_of_cons in Hc as [->|Hc]; [done|].
    clear Hkids Hid. induction kids as [|k kids IHkids]; simpl in *.
    { by apply not_elem_of_nil in Hc. }
    apply Forall_cons in IH as [Hk IH]. apply NoDup_app in Hnd as (Hndk & Hdisj & Hndks).
    rewrite elem_of_app in Hx.
    apply elem_of_app in Hc as [Hc|Hc].
    + rewrite Hk by tauto. destruct (subtree x M) as [r|] eqn:HM; [done|].
      rewrite map_graft_notin by (intros ?; by eapply Hdisj).
      apply first_some_subtree_notin. tauto.
    + rewrite graft_notin by (intros ?; by eapply Hdisj).
      rewrite subtree_notin by tauto. apply IHkids; tauto.
Qed.

End Grafting.

(** ** Appending in a forest *)

Section Forests.

Lemma subtree_at_root c ks : subtree c (El c ks) = Some (El c ks).
Proof. rewrite subtree_unfold. by rewrite decide_True. Qed.

(** Moving among detached trees leaves the trees that hold neither element. *)
Lemma append_in_detached p c (G D : list dom) :
  c ∉ flat_map preorder G → p ∉ flat_map preorder G →
  append_in p c (G ++ D) = G ++ append_in p c D.
Proof.
  intros Hc Hp. unfold append_in.
  rewrite first_some_app, first_some_subtree_notin by done.
  rewrite map_app, filter_app, map_app.
  rewrite map_prune_notin, filter_root_notin, map_graft_notin by done.
  done.
Qed.

Local Arguments subtree : simpl never.
Local Arguments prune : simpl never.
Local Arguments graft : simpl never.

Ltac decide_ids :=
  repeat match goal with
    | |- context [decide (?a ≠ ?b)] =>
        first [ rewrite (decide_True (P := a ≠ b)) by lia
              | rewrite (decide_False (P := a ≠ b)) by lia ]
    end.

Ltac notin_ids HCs :=
  simpl; rewrite ?not_elem_of_cons, ?elem_of_app; repeat split; try lia;
  try (apply not_elem_of_nil);
  try (intros Hin; apply HCs in Hin; lia);
  try (intros [Hin|Hin]; [apply HCs in Hin; lia | ]).

Lemma subtree_leaf a x : a ≠ x → subtree a (El x []) = None.
Proof. intros Hne. rewrite subtree_unfold. by rewrite decide_False. Qed.

Lemma prune_leaf a x : prune a (El x []) = El x [].
Proof. reflexivity. Qed.

Lemma graft_leaf p c x : p ≠ x → graft p c (El x []) = El x [].
Proof. intros Hne. rewrite graft_unfold. by rewrite decide_False. Qed.

Lemma root_prune a t : root (prune a t) = root t.
Proof. by destruct t. Qed.

(** A clone, once made, goes under the dropdown list. *)
Lemma append_in_clone f a (Cs : list dom) (T' : dom) :
  (∀ y, y ∈ flat_map preorder Cs → 5 + f ≤ y < a) →
  5 + f ≤ a → root T' = a →
  append_in (S f) a
    ([El f []; El (S f) Cs; El (2 + f) []; El (3 + f) []; El (4 + f) []] ++ [T'])
  = [El f []; El (S f) (Cs ++ [T']); El (2 + f) []; El (3 + f) []; El (4 + f) []].
Proof.
  intros HCs Ha Hroot. destruct T' as [a' ks']. simpl in Hroot. subst a'.
  assert (Hin1 : a ∉ preorder (El (S f) Cs)).
  { simpl. rewrite not_elem_of_cons. split; [lia|]. intros Hin%HCs. lia. }
  assert (Hin2 : S f ∉ flat_map preorder Cs) by (intros Hin%HCs; lia).
  unfold append_in. simpl.
  rewrite !subtree_leaf by lia. rewrite (subtree_notin a (El (S f) Cs)) by done.
  rewrite subtree_at_root. simpl.
  rewrite !prune_leaf. rewrite (prune_notin a (El (S f) Cs)) by done.
  rewrite !filter_cons, root_prune. simpl. decide_ids. rewrite filter_nil. simpl.
  rewrite graft_root by done. rewrite !graft_leaf by lia.
  done.
Qed.

Lemma notin_Forall (x : node) (l : list node) : Forall (λ y, y ≠ x) l → x ∉ l.
Proof. rewrite Forall_forall. intros Hall Hin. by apply (Hall x). Qed.

Ltac ids_differ HCs :=
  apply notin_Forall; simpl;
  repeat first
    [ apply Forall_nil_2
    | apply Forall_cons_2; [lia|]
    | apply Forall_app_2
    | (apply Forall_forall; intros ? ?%HCs; lia) ].

Lemma append_in_assemble f (Cs : list dom) :
  (∀ y, y ∈ flat_map preorder Cs → 5 + f ≤ y) →
  append_in f (3 + f)
    (append_in (3 + f) (S f)
       (append_in (3 + f) (4 + f)
          (append_in (4 + f) (2 + f)
             [El f []; El (S f) Cs; El (2 + f) []; El (3 + f) []; El (4 + f) []])))
  = [menu_tree f Cs].
Proof.
  intros HCs.
  assert (H1 : append_in (4 + f) (2 + f)
                 [El f []; El (S f) Cs; El (2 + f) []; El (3 + f) []; El (4 + f) []]
               = [El f []; El (S f) Cs; El (3 + f) []; El (4 + f) [El (2 + f) []]]).
  { unfold append_in. simpl.
    rewrite !subtree_leaf by lia.
    rewrite (subtree_notin _ (El (S f) Cs)) by ids_differ HCs.
    rewrite subtree_at_root. simpl.
    rewrite !prune_leaf. rewrite (prune_notin _ (El (S f) Cs)) by ids_differ HCs.
    rewrite !filter_cons. simpl. decide_ids. rewrite filter_nil. simpl.
    rewrite !graft_leaf by lia. rewrite (graft_notin _ _ (El (S f) Cs)) by ids_differ HCs.
    rewrite graft_root by apply not_elem_of_nil. done. }
  assert (H2 : append_in (3 + f) (4 + f)
                 [El f []; El (S f) Cs; El (3 + f) []; El (4 + f) [El (2 + f) []]]
               = [El f []; El (S f) Cs; El (3 + f) [El (4 + f) [El (2 + f) []]]]).
  { unfold append_in. simpl.
    rewrite !subtree_leaf by lia.
    rewrite (subtree_notin _ (El (S f) Cs)) by ids_differ HCs.
    rewrite subtree_at_root. simpl.
    rewrite !prune_leaf. rewrite (prune_notin _ (El (S f) Cs)) by ids_differ HCs.
    rewrite !filter_cons, !root_prune. simpl. decide_ids. rewrite filter_nil. simpl.
    rewrite !graft_leaf by lia. rewrite (graft_notin _ _ (El (S f) Cs)) by ids_differ HCs.
    rewrite graft_root by apply not_elem_of_nil. done. }
  assert (H3 : append_in (3 + f) (S f)
                 [El f []; El (S f) Cs; El (3 + f) [El (4 + f) [El (2 + f) []]]]
               = [El f []; El (3 + f) [El (4 + f) [El (2 + f) []]; El (S f) Cs]]).
  { unfold append_in. simpl.
    rewrite !subtree_leaf by lia. rewrite subtree_at_root. simpl.
    rewrite !prune_leaf.
    rewrite (prune_notin _ (El (S (S (S f))) _)) by ids_differ HCs.
    rewrite !filter_cons, !root_prune. simpl. decide_ids. rewrite filter_nil. simpl.
    rewrite !graft_leaf by lia.
    rewrite graft_root by ids_differ HCs. done. }
  assert (H4 : append_in f (3 + f)
                 [El f []; El (3 + f) [El (4 + f) [El (2 + f) []]; El (S f) Cs]]
               = [menu_tree f Cs]).
  { unfold append_in. simpl.
    rewrite !subtree_leaf by lia. rewrite subtree_at_root. simpl.
    rewrite !prune_leaf.
    rewrite !filter_cons, !root_prune. simpl. decide_ids. rewrite filter_nil. simpl.
    rewrite graft_root by apply not_elem_of_nil. done. }
  by rewrite H1, H2, H3, H4.
Qed.

(** The assembled menu goes under the container. *)
Lemma append_in_container f c (G : list dom) (Cs : list dom) :
  f ∉ flat_map preorder G →
  append_in c f (G ++ [menu_tree f Cs]) = map (graft c (menu_tree f Cs)) G.
Proof.
  intros Hf. unfold append_in.
  rewrite first_some_app, first_some_subtree_notin by done. simpl.
  unfold menu_tree at 1. rewrite subtree_at_root. simpl.
  rewrite map_app, filter_app, map_prune_notin, filter_root_notin by done.
  simpl. rewrite filter_cons, root_prune. simpl.
  rewrite decide_False by (intros Hne; by apply Hne). rewrite filter_nil.
  by rewrite app_nil_r.
Qed.

End Forests.

(** ** What [inject] builds *)

Section Inject.
Context {num : Type} `{JSNumber num}.
Implicit Types (this : Collapsible num) (s st : state num).
Local Open Scope js_scope.

Lemma subtree_of_first_some s n : subtree_of s n = first_some (subtree n) (forest s).
Proof. apply list_find_first_some. Qed.

Lemma append_forest p c st : forest (append p c st).2 = append_in p c (forest st).
Proof. unfold append, modify, append_in. simpl. by rewrite subtree_of_first_some. Qed.

Lemma first_some_subtree_Some x (G : list dom) T :
  first_some (subtree x) G = Some T →
  root T = x ∧ ∀ y, y ∈ preorder T → y ∈ flat_map preorder G.
Proof.
  intros (G1 & t & G2 & -> & _ & Ht)%first_some_Some. split; [by eapply subtree_root|].
  intros y Hy. apply elem_of_flat_map_preorder. exists t. split; [set_solver|].
  eapply elem_of_sublist; [done | by eapply subtree_sublist].
Qed.

Lemma first_some_subtree_in x (G : list dom) :
  x ∈ flat_map preorder G → is_Some (first_some (subtree x) G).
Proof.
  intros (t & Ht & Hx)%elem_of_flat_map_preorder.
  destruct (first_some (subtree x) G) eqn:Hnone; [by eexists|].
  exfalso. induction G as [|t' G IH]; simpl in *; [by apply not_elem_of_nil in Ht|].
  destruct (subtree x t') eqn:Ht'; [done|].
  apply elem_of_cons in Ht as [->|Ht]; [|by apply IH].
  apply subtree_None in Ht'. done.
Qed.

Lemma matches_li st d : matches st "li" d = bool_decide (tagName st !! d = Some "li").
Proof. reflexivity. Qed.

Lemma filter_none {A} (P : A → Prop) `{∀ x, Decision (P x)} (l : list A) :
  (∀ x, x ∈ l → ¬ P x) → filter P l = [].
Proof.
  induction l as [|x l IH]; intros Hall; [done|].
  rewrite filter_cons_False by (apply Hall; by left).
  apply IH. intros y Hy. apply Hall. by right.
Qed.

Lemma filter_ext_in {A} (P Q : A → Prop) `{∀ x, Decision (P x)} `{∀ x, Decision (Q x)}
    (l : list A) :
  (∀ x, x ∈ l → P x ↔ Q x) → filter P l = filter Q l.
Proof.
  induction l as [|x l IH]; intros Hext; [done|].
  rewrite !filter_cons. rewrite IH by (intros y Hy; apply Hext; by right).
  destruct (decide (P x)) as [HP|HP], (decide (Q x)) as [HQ|HQ]; try done.
  - by apply Hext in HP; [|left].
  - by apply Hext in HQ; [|left].
Qed.

Lemma zip_seq_partner (l : list node) (b n : nat) (d : node) :
  length l = n → d ∈ seq b n → ∃ old, old ∈ l ∧ (old, d) ∈ zip l (seq b n).
Proof.
  intros Hlen Hd. apply list_elem_of_lookup_1 in Hd as [k Hk].
  assert (k < n) by (apply lookup_lt_Some in Hk; by rewrite length_seq in Hk).
  destruct (lookup_lt_is_Some_2 l k) as [old Hold]; [lia|].
  exists old. split; [by eapply list_elem_of_lookup_2|].
  apply (list_elem_of_lookup_2 _ k). apply lookup_zip_with_Some. eauto.
Qed.

(** One round of the loop of [inject]. *)
Lemma clone_step s st (its : list node) (Cs : list dom) (x : node) (index : nat) :
  well_formed s → injecting s st Cs → furnished s st its Cs →
  x ∈ flat_map preorder (forest s) →
  tagName s !! x = Some "li" →
  select_all s x "li" = [] →
  ∃ st' T',
    (clone <- cloneNode x ;;
     classList_add clone ["hide"] ;;
     append (S (fresh s)) clone) st = (inr tt, st')
    ∧ injecting s st' (Cs ++ [T'])
    ∧ furnished s st' (its ++ [x]) (Cs ++ [T']).
Proof.
  intros Hwf Hinj Hfu Hx Hli Hflat.
  pose proof (inj_fresh _ _ _ Hinj) as Hfa.
  (* the subtree to copy is the one the page had *)
  destruct (first_some_subtree_in x _ Hx) as [T HT].
  assert (Hsub : subtree_of st x = Some T).
  { rewrite subtree_of_first_some, (inj_forest _ _ _ Hinj), first_some_app. by rewrite HT. }
  destruct (first_some_subtree_Some _ _ _ HT) as [Hroot Hids].
  assert (Hold : ∀ y, y ∈ preorder T → y < (fresh s)).
  { intros y Hy. apply (wf_fresh _ Hwf), Hids, Hy. }
  assert (Hx_old : x < fresh s) by (by apply (wf_fresh _ Hwf)).
  destruct (copy_spec T (fresh st)) as (T' & Hcopy & Hpre).
  remember (zip (preorder T) (seq (fresh st) (size T))) as pairs eqn:Hpairs.
  assert (Hnews : pairs.*2 = seq (fresh st) (size T)).
  { rewrite Hpairs, snd_zip; [done|]. rewrite length_seq. done. }
  assert (Hsize : 0 < size T) by (destruct T; unfold size; simpl; lia).
  assert (Hpair : (x, fresh st) ∈ pairs).
  { rewrite Hpairs. destruct T as [x' ks]. simpl in Hroot. subst x'.
    unfold size. simpl. by left. }
  set (st1 := {| forest := forest st ++ [T'];
                 documentElement := documentElement st;
                 tagName := copy_attr pairs (tagName st);
                 idAttr := copy_attr pairs (idAttr st);
                 classList := copy_attr pairs (classList st);
                 fresh := (fresh st) + size T; rectWidth := rectWidth st;
                 bodyWidth := bodyWidth st;
                 listeners := listeners st; sensors := sensors st |}).
  assert (Hclone : cloneNode x st = (inr (fresh st), st1)).
  { unfold cloneNode. rewrite Hsub. simpl. rewrite Hcopy. reflexivity. }
  set (st3 := (append (S (fresh s)) (fresh st) (set_classes (fresh st)
                 (foldl (λ cl c, token_add c cl) (classes_of st1 (fresh st)) ["hide"]) st1)).2).
  exists st3, T'. split.
  { erewrite bind_run by exact Hclone. erewrite bind_run by reflexivity. reflexivity. }
  assert (HT'root : root T' = (fresh st)) by (eapply copy_root; exact Hcopy).
  assert (Htag3 : tagName st3 = copy_attr pairs (tagName st)) by reflexivity.
  assert (Hid3 : idAttr st3 = copy_attr pairs (idAttr st)) by reflexivity.
  assert (Hfresh3 : fresh st3 = (fresh st) + size T) by reflexivity.
  assert (Hcl3 : ∀ y, y ≠ (fresh st) → classList st3 !! y = copy_attr pairs (classList st) !! y).
  { intros y Hy. change (classList st3) with (classList (set_classes (fresh st)
      (foldl (λ cl c, token_add c cl) (classes_of st1 (fresh st)) ["hide"]) st1)).
    unfold set_classes. simpl. by rewrite lookup_insert_ne. }
  assert (Hclone3 : classes_of st3 (fresh st)
                    = token_add "hide" (default [] (copy_attr pairs (classList st) !! fresh st))).
  { unfold classes_of.
    change (classList st3) with (classList (set_classes (fresh st)
      (foldl (λ cl c, token_add c cl) (classes_of st1 (fresh st)) ["hide"]) st1)).
    unfold set_classes. simpl. by rewrite lookup_insert_eq. }
  assert (Hkeep : ∀ y, y < (fresh st) → tagName st3 !! y = tagName st !! y).
  { intros y Hy. rewrite Htag3. apply copy_attr_notin. rewrite Hnews, elem_of_seq. lia. }
  assert (Hkeepi : ∀ y, y < (fresh st) → idAttr st3 !! y = idAttr st !! y).
  { intros y Hy. rewrite Hid3. apply copy_attr_notin. rewrite Hnews, elem_of_seq. lia. }
  assert (Hkeepc : ∀ y, y < (fresh st) → classes_of st3 y = classes_of st y).
  { intros y Hy. unfold classes_of. rewrite Hcl3 by lia.
    rewrite copy_attr_notin; [done|]. rewrite Hnews, elem_of_seq. lia. }
  split; [split|split].
  - unfold st3. rewrite append_forest. simpl. rewrite (inj_forest _ _ _ Hinj).
    rewrite <- app_assoc.
    rewrite append_in_detached.
    + f_equal. apply append_in_clone; [|lia|done].
      intros y Hy. apply (inj_ids _ _ _ Hinj) in Hy. lia.
    + intros Hin%(wf_fresh _ Hwf). lia.
    + intros Hin%(wf_fresh _ Hwf). lia.
  - intros y. rewrite Hfresh3, flat_map_app, elem_of_app. simpl.
    rewrite app_nil_r, Hpre, elem_of_seq.
    intros [Hy%(inj_ids _ _ _ Hinj)|Hy]; lia.
  - rewrite Hfresh3. lia.
  - rewrite map_app. simpl. apply NoDup_app. split; [apply (inj_roots _ _ _ Hinj)|].
    split; [|apply NoDup_singleton].
    intros r Hr. rewrite list_elem_of_singleton, HT'root. intros ->.
    apply list_elem_of_fmap in Hr as (c & Hc & Hin).
    assert (Hlt : (fresh st) ∈ flat_map preorder Cs).
    { apply elem_of_flat_map_preorder. exists c. split; [done|].
      rewrite Hc. apply root_in_preorder. }
    apply (inj_ids _ _ _ Hinj) in Hlt. lia.
  - intros y Hy. rewrite Hkeep by lia. by apply (inj_old_tag _ _ _ Hinj).
  - destruct (inj_new_tags _ _ _ Hinj) as (H1 & H2 & H3).
    rewrite !Hkeep by lia. done.
  - intros y Hy. rewrite Hkeepc by lia. by apply (inj_old_class _ _ _ Hinj).
  - rewrite Hkeepc by lia. apply (inj_menu_class _ _ _ Hinj).
  - rewrite Hkeepc by lia. apply (inj_dropdown_class _ _ _ Hinj).
  - intros y Hy. rewrite Hfresh3 in Hy. rewrite Htag3, copy_attr_notin.
    + apply (inj_beyond _ _ _ Hinj). lia.
    + rewrite Hnews, elem_of_seq. lia.
  - rewrite flat_map_app, filter_app, map_app. simpl. rewrite app_nil_r. f_equal.
    + rewrite <- (inj_li _ _ _ Hinj). apply filter_ext_in. intros d Hd.
      rewrite !matches_li. apply (inj_ids _ _ _ Hinj) in Hd.
      rewrite Hkeep by lia. done.
    + destruct T as [x' ks]. simpl in Hroot. subst x'.
      unfold size in *. simpl in Hpre, Hpairs, Hnews, Hold.
      rewrite Hpre, HT'root.
      assert (Hdesc : descendants s x = flat_map preorder ks).
      { unfold descendants. by rewrite subtree_of_first_some, HT. }
      rewrite filter_cons_True.
      * f_equal. apply filter_none. intros d Hd.
        destruct (zip_seq_partner (flat_map preorder ks) (S (fresh st)) _ d eq_refl Hd)
          as (old & Hold_in & Hpair').
        assert (Htag : copy_attr pairs (tagName st) !! d = tagName s !! old).
        { rewrite (copy_attr_in pairs _ old d).
          - apply (inj_old_tag _ _ _ Hinj), Hold. by right.
          - rewrite Hnews. apply (NoDup_seq (fresh st) (S _)).
          - rewrite Hpairs. by right.
          - apply (inj_beyond _ _ _ Hinj). apply elem_of_seq in Hd. lia. }
        cbv beta. rewrite Htag, bool_decide_eq_true. intros Hold_li.
        eapply (filter_nil_not_elem_of _ _ old Hflat).
        -- rewrite matches_li. by apply bool_decide_eq_true.
        -- by rewrite Hdesc.
      * assert (Htag : copy_attr pairs (tagName st) !! fresh st = tagName s !! x).
        { rewrite (copy_attr_in pairs _ x (fresh st)).
          - apply (inj_old_tag _ _ _ Hinj), Hold. by left.
          - rewrite Hnews. apply (NoDup_seq (fresh st) (S _)).
          - rewrite Hpairs. by left.
          - by apply (inj_beyond _ _ _ Hinj). }
        cbv beta. rewrite Htag, bool_decide_eq_true. done.
  - rewrite flat_map_app. simpl. rewrite app_nil_r, Hpre.
    apply NoDup_app. split; [apply (fu_unique _ _ _ _ Hfu)|]. split; [|apply NoDup_seq].
    intros y Hy%(inj_ids _ _ _ Hinj) Hy'%elem_of_seq. lia.
  - intros y Hy. rewrite Hkeepi by lia. by apply (fu_id _ _ _ _ Hfu).
  - destruct (fu_tags _ _ _ _ Hfu) as [H1 H2]. rewrite !Hkeep by lia. done.
  - apply (fu_listeners _ _ _ _ Hfu).
  - apply (fu_host _ _ _ _ Hfu).
  - intros Hp.
    destruct (fu_exact _ _ _ _ Hfu Hp) as (Hpst & C0 & C1 & C2 & C3 & C4 & Hnoid & Hall).
    assert (Hnd : NoDup pairs.*2) by (rewrite Hnews; apply NoDup_seq).
    split; [split|].
    { intros n Hn. rewrite Hfresh3 in Hn. rewrite Hid3, copy_attr_notin.
      - apply (pr_id _ Hpst). lia.
      - rewrite Hnews, elem_of_seq. lia. }
    { intros n Hn. rewrite Hfresh3 in Hn. rewrite Hcl3 by lia. rewrite copy_attr_notin.
      - apply (pr_class _ Hpst). lia.
      - rewrite Hnews, elem_of_seq. lia. }
    rewrite !Hkeepc by lia. do 5 (split; [done|]). split.
    { intros k Hk. rewrite Hkeepi by lia. by apply Hnoid. }
    apply Forall2_app.
    + apply Forall2_same_length_lookup.
      apply Forall2_same_length_lookup in Hall as [Hlen Hall]. split; [done|].
      intros i item c Hi Hc. destruct (Hall i item c Hi Hc) as [Hci Hcc].
      assert (root c < fresh st).
      { apply (inj_ids _ _ _ Hinj), elem_of_flat_map_preorder. exists c.
        split; [by eapply list_elem_of_lookup_2 | apply root_in_preorder]. }
      by rewrite Hkeepi, Hkeepc.
    + constructor; [|constructor]. rewrite HT'root. split.
      * rewrite Hid3, (copy_attr_in pairs _ x (fresh st) Hnd Hpair).
        -- by apply (fu_id _ _ _ _ Hfu).
        -- by apply (pr_id _ Hpst).
      * rewrite Hclone3, (copy_attr_in pairs _ x (fresh st) Hnd Hpair).
        -- fold (classes_of st x). by rewrite (inj_old_class _ _ _ Hinj).
        -- by apply (pr_class _ Hpst).
Qed.

(** The loop of [inject]. *)
Lemma clone_loop s (l : list node) :
  well_formed s →
  (∀ x, x ∈ l →
        x ∈ flat_map preorder (forest s)
        ∧ tagName s !! x = Some "li" ∧ select_all s x "li" = []) →
  ∀ (index : nat) st (its : list node) (Cs : list dom),
    injecting s st Cs → furnished s st its Cs →
    ∃ st' Cs',
      forEach (λ item _,
                 clone <- cloneNode item ;;
                 classList_add clone ["hide"] ;;
                 append (S (fresh s)) clone) l index st = (inr tt, st')
      ∧ injecting s st' Cs'
      ∧ furnished s st' (its ++ l) Cs'
      ∧ length Cs' = length Cs + length l.
Proof.
  intros Hwf. induction l as [|x l IH]; intros Hl index st its Cs Hinj Hfu.
  { exists st, Cs. split; [done|]. split; [done|]. rewrite app_nil_r. split; [done|].
    simpl. lia. }
  destruct (Hl x) as (Hx & Hli & Hflat); [by left|].
  destruct (clone_step s st its Cs x index Hwf Hinj Hfu Hx Hli Hflat)
    as (st1 & T' & Hrun & Hinj1 & Hfu1).
  destruct (IH (λ y Hy, Hl y (list_elem_of_further _ _ _ Hy)) (S index) st1
              (its ++ [x]) (Cs ++ [T']) Hinj1 Hfu1)
    as (st' & Cs' & Hrun' & Hinj' & Hfu' & Hlen).
  exists st', Cs'. split; [|split; [done|split]].
  - simpl. erewrite bind_run by exact Hrun. exact Hrun'.
  - by rewrite <- app_assoc in Hfu'.
  - rewrite Hlen, length_app. simpl. lia.
Qed.

End Inject.

Section Creating.
Context {num : Type} `{JSNumber num}.
Implicit Types (this : Collapsible num) (s st : state num).
Local Open Scope js_scope.

Lemma creating_start s : well_formed s → creating s s [].
Proof.
  intros Hwf. split; try done.
  - by rewrite app_nil_r.
  - apply (wf_tags _ Hwf).
Qed.

Lemma foldl_token_add_elem (cs cl : list string) c :
  c ∈ cs → c ∈ foldl (λ cl c, token_add c cl) cl cs.
Proof.
  revert cl. induction cs as [|c' cs IH]; intros cl Hc; simpl.
  { by apply not_elem_of_nil in Hc. }
  apply elem_of_cons in Hc as [->|Hc]; [|by apply IH].
  assert (Hkeep : ∀ l x, x ∈ l → x ∈ foldl (λ cl c, token_add c cl) l cs).
  { clear. induction cs as [|c cs IH]; intros l x Hx; simpl; [done|].
    apply IH, token_add_elem. by right. }
  apply Hkeep, token_add_elem. by left.
Qed.

(** [createElement(tag)] followed by [classList.add(cs)] on the result. *)
Lemma create_step (tag : string) (cs : list string) s st (D : list dom) :
  creating s st D →
  ∃ st1 st',
    createElement tag st = (inr (fresh st), st1)
    ∧ classList_add (fresh st) cs st1 = (inr tt, st')
    ∧ creating s st' (D ++ [El (fresh st) []])
    ∧ fresh st' = S (fresh st)
    ∧ tagName st' !! fresh st = Some tag
    ∧ (∀ c, c ∈ cs → c ∈ classes_of st' (fresh st))
    ∧ (∀ x, x < fresh st →
         tagName st' !! x = tagName st !! x ∧ classes_of st' x = classes_of st x).
Proof.
  intros Hcr.
  set (st1 := (createElement tag st).2).
  set (st' := (classList_add (fresh st) cs st1).2).
  exists st1, st'. split; [reflexivity|]. split; [reflexivity|].
  assert (Htag : tagName st' = <[fresh st := tag]> (tagName st)) by reflexivity.
  assert (Hcl : classList st'
                = <[fresh st := foldl (λ cl c, token_add c cl) (classes_of st1 (fresh st)) cs]>
                    (classList st)) by reflexivity.
  assert (Hkeep : ∀ x, x < fresh st →
            tagName st' !! x = tagName st !! x ∧ classes_of st' x = classes_of st x).
  { intros x Hx. unfold classes_of. rewrite Htag, Hcl, !lookup_insert_ne by lia. done. }
  pose proof (cr_fresh _ _ _ Hcr).
  split; [split|].
  - change (forest st') with (forest st ++ [El (fresh st) []]).
    by rewrite (cr_forest _ _ _ Hcr), app_assoc.
  - change (fresh st') with (S (fresh st)). lia.
  - intros x Hx. rewrite (proj1 (Hkeep x ltac:(lia))). by apply (cr_old_tag _ _ _ Hcr).
  - intros x Hx. rewrite (proj2 (Hkeep x ltac:(lia))). by apply (cr_old_class _ _ _ Hcr).
  - intros x Hx. change (fresh st') with (S (fresh st)) in Hx.
    rewrite Htag, lookup_insert_ne by lia. apply (cr_beyond _ _ _ Hcr). lia.
  - split; [reflexivity|]. split; [by rewrite Htag, lookup_insert_eq|].
    split; [|done]. intros c Hc. unfold classes_of. rewrite Hcl, lookup_insert_eq. simpl.
    by apply foldl_token_add_elem.
Qed.

(** What the two steps leave alone, and what they give a pristine page. *)
Lemma create_step_exact (tag : string) (cs : list string) st st1 st' :
  createElement tag st = (inr (fresh st), st1) →
  classList_add (fresh st) cs st1 = (inr tt, st') →
  idAttr st' = idAttr st
  ∧ listeners st' = listeners st
  ∧ (documentElement st' = documentElement st ∧ rectWidth st' = rectWidth st
     ∧ bodyWidth st' = bodyWidth st ∧ sensors st' = sensors st)
  ∧ (pristine st →
     pristine st'
     ∧ classes_of st' (fresh st) = foldl (λ cl c, token_add c cl) [] cs
     ∧ idAttr st' !! fresh st = None).
Proof.
  intros [= <-] [= <-]. split; [done|]. split; [done|]. split; [done|].
  intros [Hid Hcl]. split; [split|split].
  - intros n Hn. simpl in *. apply Hid. lia.
  - intros n Hn. simpl in *. rewrite lookup_insert_ne by lia. apply Hcl. lia.
  - unfold classes_of. simpl. rewrite lookup_insert_eq. simpl.
    by rewrite Hcl.
  - simpl. by apply Hid.
Qed.

End Creating.

Section Mounted.
Context {num : Type} `{JSNumber num}.
Implicit Types (this : Collapsible num) (s st : state num).
Local Open Scope js_scope.

Lemma first_some_graft_self c M (G : list dom) ks :
  NoDup (flat_map preorder G) →
  first_some (subtree c) G = Some (El c ks) →
  first_some (subtree c) (map (graft c M) G) = Some (El c (ks ++ [M])).
Proof.
  induction G as [|t G IH]; simpl; [done|]. intros (Ht & _ & HG)%NoDup_app.
  destruct (subtree c t) as [r|] eqn:Hct.
  - intros [= ->]. by rewrite (subtree_graft_self c M t ks Ht Hct).
  - intros Hrest. rewrite graft_notin by by apply subtree_None.
    rewrite Hct. by apply IH.
Qed.

Lemma first_some_graft_new x c M (G : list dom) :
  NoDup (flat_map preorder G) →
  c ∈ flat_map preorder G → x ∉ flat_map preorder G →
  first_some (subtree x) (map (graft c M) G) = subtree x M.
Proof.
  induction G as [|t G IH]; simpl.
  { by intros _ ?%not_elem_of_nil. }
  intros (Ht & Hdisj & HG)%NoDup_app Hc Hx. rewrite elem_of_app in Hx.
  destruct (decide (c ∈ preorder t)) as [Hct|Hct].
  - rewrite subtree_graft_new by tauto.
    destruct (subtree x M) as [r|] eqn:HM; [done|].
    rewrite map_graft_notin by (by apply Hdisj).
    apply first_some_subtree_notin. tauto.
  - rewrite graft_notin by done. rewrite subtree_notin by tauto.
    apply IH; [done| |tauto]. apply elem_of_app in Hc as [?|?]; done.
Qed.

Lemma descendants_sublist s n :
  descendants s n `sublist_of` flat_map preorder (forest s).
Proof.
  unfold descendants. rewrite subtree_of_first_some.
  destruct (first_some (subtree n) (forest s)) as [T|] eqn:HT; [|apply sublist_nil_l].
  apply first_some_Some in HT as (G1 & t & G2 & -> & _ & Ht).
  rewrite flat_map_app. simpl. apply sublist_inserts_l, sublist_inserts_r.
  etransitivity; [|by eapply subtree_sublist]. destruct T. simpl. by apply sublist_cons.
Qed.

Lemma first_some_cons {A B} (f : A → option B) x l :
  first_some f (x :: l) = match f x with Some r => Some r | None => first_some f l end.
Proof. reflexivity. Qed.

Lemma matches_same_attrs st st' selector d :
  tagName st' = tagName st → classList st' = classList st →
  (∀ c, selector = String "#"%char c → False) →
  matches st' selector d = matches st selector d.
Proof.
  intros Htag Hcl Hsel. unfold matches, classes_of. rewrite Htag, Hcl.
  destruct selector as [|a c]; [done|].
  destruct (decide (a = "#"%char)) as [->|Hne]; [by destruct (Hsel c)|].
  destruct a as [[] [] [] [] [] [] [] []]; try done.
Qed.

(** The [li] of the page are below the identities [inject] hands out. *)
Lemma descendants_old s n d :
  well_formed s → d ∈ descendants s n → d < fresh s.
Proof.
  intros Hwf Hd. apply (wf_fresh _ Hwf).
  eapply elem_of_sublist; [done | apply descendants_sublist].
Qed.

Lemma mounted_after this s sB sF (Cs : list dom) :
  well_formed s → flat_list this s → injecting s sB Cs →
  length Cs = length (items this) →
  forest sF = map (graft (container this) (menu_tree (fresh s) Cs)) (forest s) →
  tagName sF = tagName sB → classList sF = classList sB →
  mounted this sF = Some (fresh s, map root Cs).
Proof.
  intros Hwf Hfl Hinj Hlen Hforest Htag Hcl.
  pose proof (wf_unique _ Hwf) as Hnd.
  assert (Hnew : ∀ x, fresh s ≤ x → x ∉ flat_map preorder (forest s)).
  { intros x Hx Hin%(wf_fresh _ Hwf). lia. }
  assert (Hclasses : ∀ x, classes_of sF x = classes_of sB x).
  { intros x. unfold classes_of. by rewrite Hcl. }
  destruct (first_some_subtree_in _ _ (fl_container _ _ Hfl)) as [T HT].
  destruct (first_some_subtree_Some _ _ _ HT) as [Hroot _].
  destruct T as [c ks]. simpl in Hroot. subst c.
  assert (Hdesc_s : descendants s (container this) = flat_map preorder ks).
  { unfold descendants. by rewrite subtree_of_first_some, HT. }
  (* the menu is the first match under the container *)
  assert (Hmenu : head (select_all sF (container this) ".collapsible-menu")
                  = Some (fresh s)).
  { unfold select_all, descendants.
    rewrite subtree_of_first_some, Hforest.
    rewrite (first_some_graft_self _ _ _ ks Hnd HT). simpl.
    rewrite flat_map_app, filter_app. simpl. rewrite app_nil_r.
    rewrite (filter_ext_in _ (λ d, matches s ".collapsible-menu" d = true)).
    - rewrite <- Hdesc_s. fold (select_all s (container this) ".collapsible-menu").
      rewrite (fl_no_menu _ _ Hfl). simpl.
      rewrite filter_cons_True; [done|].
      apply bool_decide_eq_true. rewrite Hclasses. apply (inj_menu_class _ _ _ Hinj).
    - intros d Hd. rewrite <- Hdesc_s in Hd. apply (descendants_old _ _ _ Hwf) in Hd.
      unfold matches. rewrite Hclasses, (inj_old_class _ _ _ Hinj) by done. done. }
  assert (Hdropdown : head (select_all sF (fresh s) ".collapsible-dropdown")
                      = Some (3 + fresh s)).
  { unfold select_all, descendants.
    rewrite subtree_of_first_some, Hforest.
    rewrite first_some_graft_new by (auto using fl_container).
    unfold menu_tree. rewrite subtree_at_root. simpl.
    rewrite filter_cons_True; [done|].
    apply bool_decide_eq_true. rewrite Hclasses. apply (inj_dropdown_class _ _ _ Hinj). }
  assert (Hclones : select_all sF (3 + fresh s) "li" = map root Cs).
  { unfold select_all, descendants.
    rewrite subtree_of_first_some, Hforest.
    rewrite first_some_graft_new by (auto using fl_container with lia).
    unfold menu_tree. rewrite subtree_unfold, decide_False by lia.
    rewrite first_some_cons, subtree_at_root. simpl.
    destruct (inj_new_tags _ _ _ Hinj) as (Hul & Hspan & Hbutton).
    rewrite app_nil_r.
    rewrite !filter_cons_False
      by (cbv beta; rewrite ?matches_li, Htag, bool_decide_eq_true; simpl in *; congruence).
    rewrite <- (inj_li _ _ _ Hinj). apply filter_ext_in. intros d _.
    by rewrite ?matches_li, Htag. }
  unfold mounted. rewrite Hmenu. simpl. rewrite Hdropdown. simpl.
  change (S (S (S (fresh s)))) with (3 + fresh s). rewrite Hclones.
  rewrite bool_decide_eq_true_2; [done|].
  split; [by rewrite length_map|].
  assert (Hitems_old : ∀ x, x ∈ items this → x < fresh s).
  { intros x Hx. rewrite (fl_items _ _ Hfl) in Hx.
    apply list_elem_of_filter in Hx as [_ Hx]. by eapply descendants_old. }
  assert (Hroots_new : ∀ r, r ∈ map root Cs → 5 + fresh s ≤ r).
  { intros r (c & -> & Hc)%list_elem_of_fmap.
    apply (inj_ids _ _ _ Hinj), elem_of_flat_map_preorder.
    exists c. split; [done|]. apply root_in_preorder. }
  apply NoDup_cons. split.
  - rewrite elem_of_app. intros [Hin%Hitems_old|Hin%Hroots_new]; lia.
  - apply NoDup_app. split; [|split; [|apply (inj_roots _ _ _ Hinj)]].
    + rewrite (fl_items _ _ Hfl). apply NoDup_filter.
      exact (sublist_NoDup _ _ Hnd (descendants_sublist _ _)).
    + intros x Hx%Hitems_old Hr%Hroots_new. lia.
Qed.

End Mounted.

Section Injecting.
Context {num : Type} `{JSNumber num}.
Implicit Types (this : Collapsible num) (s st : state num).
Local Open Scope js_scope.

Lemma same_but_forest_trans st1 st2 st3 :
  same_but_forest st1 st2 → same_but_forest st2 st3 → same_but_forest st1 st3.
Proof. intros [] []. split; congruence. Qed.

Lemma append_spec (p c : node) st :
  ∃ st', append p c st = (inr tt, st')
         ∧ forest st' = append_in p c (forest st)
         ∧ same_but_forest st st'.
Proof.
  exists (append p c st).2. split; [reflexivity|].
  split; [apply append_forest|]. by split.
Qed.

Lemma classes_of_same_but_forest st st' x :
  same_but_forest st st' → classes_of st' x = classes_of st x.
Proof. intros Hs. unfold classes_of. by rewrite (sbf_class _ _ Hs). Qed.

Lemma pristine_same_but_forest st st' :
  same_but_forest st st' → pristine st → pristine st'.
Proof.
  intros Hs [Hid Hcl]. split; intros n;
    rewrite (sbf_fresh _ _ Hs), ?(sbf_id _ _ Hs), ?(sbf_class _ _ Hs); auto.
Qed.

Lemma furnished_same_but_forest s st st' (its : list node) (Cs : list dom) :
  same_but_forest st st' → furnished s st its Cs → furnished s st' its Cs.
Proof.
  intros Hs Hfu. split.
  - apply (fu_unique _ _ _ _ Hfu).
  - intros x Hx. rewrite (sbf_id _ _ Hs). by apply (fu_id _ _ _ _ Hfu).
  - rewrite (sbf_tag _ _ Hs). apply (fu_tags _ _ _ _ Hfu).
  - rewrite (sbf_listeners _ _ Hs). apply (fu_listeners _ _ _ _ Hfu).
  - rewrite (sbf_root _ _ Hs), (sbf_rect _ _ Hs), (sbf_body _ _ Hs), (sbf_sensors _ _ Hs).
    apply (fu_host _ _ _ _ Hfu).
  - intros Hp.
    destruct (fu_exact _ _ _ _ Hfu Hp) as (Hpst & C0 & C1 & C2 & C3 & C4 & Hnoid & Hall).
    rewrite !(classes_of_same_but_forest _ _ _ Hs), (sbf_id _ _ Hs).
    split; [by eapply pristine_same_but_forest|]. do 6 (split; [done|]).
    eapply Forall2_impl; [exact Hall|]. intros item c.
    by rewrite (classes_of_same_but_forest _ _ _ Hs).
Qed.

(** The first eleven statements of [inject]: the five elements are made
    and dressed and the button has its listener; [rest] stands for the
    statements that follow. *)
Lemma elements_made s (rest : node → node → node → node → node → M num unit) :
  well_formed s →
  ∃ st,
    (menu <- createElement "li" ;;
     classList_add menu ["collapsible-menu"] ;;
     dropdownList <- createElement "ul" ;;
     classList_add dropdownList ["dropdown-menu"; "collapsible-dropdown-list"] ;;
     icon <- createElement "span" ;;
     classList_add icon ["fas"; "fa-bars"] ;;
     dropdown <- createElement "div" ;;
     classList_add dropdown ["dropdown"; "collapsible-dropdown"] ;;
     button <- createElement "button" ;;
     classList_add button ["btn"; "dropdown-toggle"; "collapsible-toggle"] ;;
     addEventListener button "click" (ToggleOpen dropdown) ;;
     rest menu dropdownList icon dropdown button) s
    = rest (fresh s) (S (fresh s)) (2 + fresh s) (3 + fresh s) (4 + fresh s) st
    ∧ injecting s st []
    ∧ furnished s st [] [].
Proof.
  intros Hwf.
  destruct (create_step "li" ["collapsible-menu"] s s [] (creating_start s Hwf))
    as (a1 & s1 & Hc1 & Ha1 & Hcr1 & Hf1 & Ht1 & Hcl1 & Hk1).
  destruct (create_step_exact _ _ _ _ _ Hc1 Ha1) as (Hi1 & Hl1 & Hh1 & Hx1).
  destruct (create_step "ul" ["dropdown-menu"; "collapsible-dropdown-list"] s s1 _ Hcr1)
    as (a2 & s2 & Hc2 & Ha2 & Hcr2 & Hf2 & Ht2 & Hcl2 & Hk2).
  destruct (create_step_exact _ _ _ _ _ Hc2 Ha2) as (Hi2 & Hl2 & Hh2 & Hx2).
  destruct (create_step "span" ["fas"; "fa-bars"] s s2 _ Hcr2)
    as (a3 & s3 & Hc3 & Ha3 & Hcr3 & Hf3 & Ht3 & Hcl3 & Hk3).
  destruct (create_step_exact _ _ _ _ _ Hc3 Ha3) as (Hi3 & Hl3 & Hh3 & Hx3).
  destruct (create_step "div" ["dropdown"; "collapsible-dropdown"] s s3 _ Hcr3)
    as (a4 & s4 & Hc4 & Ha4 & Hcr4 & Hf4 & Ht4 & Hcl4 & Hk4).
  destruct (create_step_exact _ _ _ _ _ Hc4 Ha4) as (Hi4 & Hl4 & Hh4 & Hx4).
  destruct (create_step "button" ["btn"; "dropdown-toggle"; "collapsible-toggle"] s s4 _ Hcr4)
    as (a5 & s5 & Hc5 & Ha5 & Hcr5 & Hf5 & Ht5 & Hcl5 & Hk5).
  destruct (create_step_exact _ _ _ _ _ Hc5 Ha5) as (Hi5 & Hl5 & Hh5 & Hx5).
  rewrite Hf1 in *. rewrite Hf2 in *. rewrite Hf3 in *. rewrite Hf4 in *.
  set (s6 := (addEventListener (4 + fresh s) "click" (ToggleOpen (3 + fresh s)) s5).2).
  assert (Hclasses6 : ∀ x, classes_of s6 x = classes_of s5 x) by done.
  exists s6. split; [|split].
  - erewrite bind_run by exact Hc1. cbv beta.
    erewrite bind_run by exact Ha1. cbv beta.
    erewrite bind_run by exact Hc2. cbv beta.
    erewrite bind_run by exact Ha2. cbv beta.
    erewrite bind_run by exact Hc3. cbv beta.
    erewrite bind_run by exact Ha3. cbv beta.
    erewrite bind_run by exact Hc4. cbv beta.
    erewrite bind_run by exact Ha4. cbv beta.
    erewrite bind_run by exact Hc5. cbv beta.
    erewrite bind_run by exact Ha5. cbv beta.
    erewrite bind_run by reflexivity. reflexivity.
  - split.
    + change (forest s6) with (forest s5). rewrite (cr_forest _ _ _ Hcr5). reflexivity.
    + intros y Hy. by apply not_elem_of_nil in Hy.
    + change (fresh s6) with (fresh s5). rewrite Hf5. simpl. lia.
    + constructor.
    + intros x Hx. change (tagName s6) with (tagName s5).
      by apply (cr_old_tag _ _ _ Hcr5).
    + change (tagName s6) with (tagName s5). repeat split.
      * rewrite (proj1 (Hk5 (S (fresh s)) ltac:(lia))),
          (proj1 (Hk4 (S (fresh s)) ltac:(lia))),
          (proj1 (Hk3 (S (fresh s)) ltac:(lia))). exact Ht2.
      * rewrite (proj1 (Hk5 (2 + fresh s) ltac:(lia))),
          (proj1 (Hk4 (2 + fresh s) ltac:(lia))). exact Ht3.
      * exact Ht5.
    + intros x Hx. rewrite Hclasses6. by apply (cr_old_class _ _ _ Hcr5).
    + rewrite Hclasses6, (proj2 (Hk5 (fresh s) ltac:(lia))),
        (proj2 (Hk4 (fresh s) ltac:(lia))), (proj2 (Hk3 (fresh s) ltac:(lia))),
        (proj2 (Hk2 (fresh s) ltac:(lia))).
      apply Hcl1. by left.
    + rewrite Hclasses6, (proj2 (Hk5 (3 + fresh s) ltac:(lia))).
      apply Hcl4. right. by left.
    + intros x Hx. change (tagName s6) with (tagName s5).
      apply (cr_beyond _ _ _ Hcr5). exact Hx.
    + reflexivity.
  - assert (Hid6 : idAttr s6 = idAttr s).
    { change (idAttr s6) with (idAttr s5). congruence. }
    split.
    + constructor.
    + intros x Hx. by rewrite Hid6.
    + change (tagName s6) with (tagName s5). split.
      * rewrite (proj1 (Hk5 (fresh s) ltac:(lia))), (proj1 (Hk4 (fresh s) ltac:(lia))),
          (proj1 (Hk3 (fresh s) ltac:(lia))), (proj1 (Hk2 (fresh s) ltac:(lia))).
        exact Ht1.
      * rewrite (proj1 (Hk5 (3 + fresh s) ltac:(lia))). exact Ht4.
    + change (listeners s6)
        with (listeners s5 ++ [(4 + fresh s, "click", ToggleOpen (3 + fresh s))]).
      congruence.
    + change (documentElement s6) with (documentElement s5).
      change (rectWidth s6) with (rectWidth s5).
      change (bodyWidth s6) with (bodyWidth s5).
      change (sensors s6) with (sensors s5).
      destruct Hh1 as (? & ? & ? & ?), Hh2 as (? & ? & ? & ?), Hh3 as (? & ? & ? & ?),
        Hh4 as (? & ? & ? & ?), Hh5 as (? & ? & ? & ?).
      repeat split; congruence.
    + intros Hp.
      destruct (Hx1 Hp) as (Hp1 & C0 & _).
      destruct (Hx2 Hp1) as (Hp2 & C1 & _).
      destruct (Hx3 Hp2) as (Hp3 & C2 & _).
      destruct (Hx4 Hp3) as (Hp4 & C3 & _).
      destruct (Hx5 Hp4) as (Hp5 & C4 & _).
      split; [by destruct Hp5|].
      rewrite !Hclasses6.
      split.
      { rewrite (proj2 (Hk5 (fresh s) ltac:(lia))), (proj2 (Hk4 (fresh s) ltac:(lia))),
          (proj2 (Hk3 (fresh s) ltac:(lia))), (proj2 (Hk2 (fresh s) ltac:(lia))).
        exact C0. }
      split.
      { rewrite (proj2 (Hk5 (S (fresh s)) ltac:(lia))),
          (proj2 (Hk4 (S (fresh s)) ltac:(lia))),
          (proj2 (Hk3 (S (fresh s)) ltac:(lia))). exact C1. }
      split.
      { rewrite (proj2 (Hk5 (2 + fresh s) ltac:(lia))),
          (proj2 (Hk4 (2 + fresh s) ltac:(lia))). exact C2. }
      split.
      { rewrite (proj2 (Hk5 (3 + fresh s) ltac:(lia))). exact C3. }
      split; [exact C4|].
      split; [|constructor].
      intros k Hk. rewrite Hid6. apply (pr_id _ Hp). lia.
Qed.

(** What [inject] does, statement by statement. *)
Lemma flat_list_cloneable this s : flat_list this s → cloneable this s.
Proof.
  intros Hfl x Hx. split; [|split; [|by apply (fl_flat _ _ Hfl)]].
  - rewrite (fl_items _ _ Hfl) in Hx. apply list_elem_of_filter in Hx as [_ Hx].
    eapply elem_of_sublist; [done | apply descendants_sublist].
  - rewrite (fl_items _ _ Hfl) in Hx. apply list_elem_of_filter in Hx as [Hx _].
    rewrite matches_li in Hx. by apply bool_decide_eq_true in Hx.
Qed.

Lemma inject_run this s :
  well_formed s → cloneable this s →
  ∃ s' sB (Cs : list dom),
    inject this s = (inr tt, s')
    ∧ length Cs = length (items this)
    ∧ injecting s sB Cs
    ∧ furnished s sB (items this) Cs
    ∧ same_but_forest sB s'
    ∧ forest s' = map (graft (container this) (menu_tree (fresh s) Cs)) (forest s).
Proof.
  intros Hwf Hitems.
  destruct (elements_made s
              (λ menu dropdownList icon dropdown button,
                 forEach (λ item _,
                            clone <- cloneNode item ;;
                            classList_add clone ["hide"] ;;
                            append dropdownList clone)
                         (items this) 0 ;;
                 append button icon ;;
                 append dropdown button ;;
                 append dropdown dropdownList ;;
                 append menu dropdown ;;
                 append (container this) menu) Hwf) as (s6 & Hrun6 & Hinj & Hfu).
  destruct (clone_loop s (items this) Hwf Hitems 0 s6 [] [] Hinj Hfu)
    as (sB & Cs & HrB & HinjB & HfuB & Hlen).
  destruct (append_spec (4 + fresh s) (2 + fresh s) sB) as (s7 & Hr7 & HF7 & Hs7).
  destruct (append_spec (3 + fresh s) (4 + fresh s) s7) as (s8 & Hr8 & HF8 & Hs8).
  destruct (append_spec (3 + fresh s) (S (fresh s)) s8) as (s9 & Hr9 & HF9 & Hs9).
  destruct (append_spec (fresh s) (3 + fresh s) s9) as (s10 & Hr10 & HF10 & Hs10).
  destruct (append_spec (container this) (fresh s) s10) as (sF & HrF & HFF & HsF).
  exists sF, sB, Cs. split; [|split; [|split; [|split; [|split]]]].
  - unfold inject.
    rewrite Hrun6. cbv beta.
    erewrite bind_run by exact HrB. cbv beta.
    erewrite bind_run by exact Hr7. cbv beta.
    erewrite bind_run by exact Hr8. cbv beta.
    erewrite bind_run by exact Hr9. cbv beta.
    erewrite bind_run by exact Hr10. cbv beta.
    exact HrF.
  - by rewrite Hlen.
  - exact HinjB.
  - exact HfuB.
  - eauto using same_but_forest_trans.
  - assert (Hnew : ∀ x, fresh s ≤ x → x ∉ flat_map preorder (forest s)).
    { intros x Hx Hin%(wf_fresh _ Hwf). lia. }
    rewrite HFF, HF10, HF9, HF8, HF7, (inj_forest _ _ _ HinjB).
    rewrite !append_in_detached by (apply Hnew; lia).
    rewrite append_in_assemble by (intros y Hy%(inj_ids _ _ _ HinjB); lia).
    apply append_in_container, Hnew. lia.
Qed.

(** On a page whose list is flat and carries no menu yet, [inject]
    returns and leaves the menu in place: the new [li] is the menu, and
    its dropdown holds one clone per item. *)
Theorem inject_mounts this s :
  well_formed s → flat_list this s →
  ∃ s' clones,
    inject this s = (inr tt, s')
    ∧ length clones = length (items this)
    ∧ mounted this s' = Some (fresh s, clones).
Proof.
  intros Hwf Hfl.
  destruct (inject_run this s Hwf (flat_list_cloneable _ _ Hfl)) as (s' & sB & Cs & Hrun & Hlen & Hinj & _ & Hs & Hf).
  exists s', (map root Cs). split; [done|]. split; [by rewrite length_map|].
  apply (mounted_after this s sB s' Cs Hwf Hfl Hinj Hlen Hf);
    [apply (sbf_tag _ _ Hs) | apply (sbf_class _ _ Hs)].
Qed.

(** The descendants of the container once the menu is grafted: those it
    had, then the menu and what the menu holds. *)
Lemma descendants_after s s' (c : node) (M : dom) :
  well_formed s → c ∈ flat_map preorder (forest s) →
  forest s' = map (graft c M) (forest s) →
  descendants s' c = descendants s c ++ preorder M.
Proof.
  intros Hwf Hc Hforest.
  destruct (first_some_subtree_in _ _ Hc) as [T HT].
  destruct (first_some_subtree_Some _ _ _ HT) as [Hroot _].
  destruct T as [c' ks]. simpl in Hroot. subst c'.
  unfold descendants. rewrite !subtree_of_first_some, Hforest, HT.
  rewrite (first_some_graft_self _ _ _ ks (wf_unique _ Hwf) HT). simpl.
  by rewrite flat_map_app; simpl; rewrite app_nil_r.
Qed.

Lemma preorder_menu_tree (f : node) (Cs : list dom) :
  preorder (menu_tree f Cs)
  = [f; 3 + f; 4 + f; 2 + f; S f] ++ flat_map preorder Cs.
Proof. unfold menu_tree. simpl. by rewrite !app_nil_r. Qed.

(** The [li] under the container after [inject]: the items, the menu and
    the clones. *)
Lemma li_after this s sB s' (Cs : list dom) :
  well_formed s → flat_list this s → injecting s sB Cs → furnished s sB (items this) Cs →
  same_but_forest sB s' →
  forest s' = map (graft (container this) (menu_tree (fresh s) Cs)) (forest s) →
  select_all s' (container this) "li" = items this ++ fresh s :: map root Cs.
Proof.
  intros Hwf Hfl Hinj Hfu Hs Hforest.
  unfold select_all.
  rewrite (descendants_after _ _ _ _ Hwf (fl_container _ _ Hfl) Hforest).
  rewrite filter_app, preorder_menu_tree. f_equal.
  - rewrite (fl_items _ _ Hfl). apply filter_ext_in. intros d Hd.
    apply (descendants_old _ _ _ Hwf) in Hd. cbv beta.
    by rewrite !matches_li, (sbf_tag _ _ Hs), (inj_old_tag _ _ _ Hinj).
  - destruct (inj_new_tags _ _ _ Hinj) as (Hul & Hspan & Hbutton).
    destruct (fu_tags _ _ _ _ Hfu) as (Hli & Hdiv).
    simpl.
    rewrite filter_cons_True
      by (cbv beta; rewrite ?matches_li, (sbf_tag _ _ Hs), bool_decide_eq_true;
          exact Hli).
    rewrite !filter_cons_False
      by (cbv beta; rewrite ?matches_li, (sbf_tag _ _ Hs), bool_decide_eq_true;
          simpl in *; congruence).
    f_equal. rewrite <- (inj_li _ _ _ Hinj). apply filter_ext_in. intros d _.
    cbv beta. by rewrite ?matches_li, (sbf_tag _ _ Hs).
Qed.

(** The dropdown that [collapse] will find in the menu. *)
Lemma dropdown_after this s sB s' (Cs : list dom) :
  well_formed s → flat_list this s → injecting s sB Cs →
  same_but_forest sB s' →
  forest s' = map (graft (container this) (menu_tree (fresh s) Cs)) (forest s) →
  head (select_all s' (fresh s) ".collapsible-dropdown") = Some (3 + fresh s).
Proof.
  intros Hwf Hfl Hinj Hs Hforest.
  assert (Hnew : fresh s ∉ flat_map preorder (forest s)).
  { intros Hin%(wf_fresh _ Hwf). lia. }
  unfold select_all, descendants.
  rewrite subtree_of_first_some, Hforest.
  rewrite first_some_graft_new by (auto using wf_unique, fl_container).
  unfold menu_tree. rewrite subtree_at_root. simpl.
  rewrite filter_cons_True; [done|].
  apply bool_decide_eq_true. rewrite (classes_of_same_but_forest _ _ _ Hs).
  apply (inj_dropdown_class _ _ _ Hinj).
Qed.

(** After [inject] no element of the page has changed its tag, its id or
    its classes, the container holds what it held and then the menu, and
    its [li] are the items, the menu and the clones, in this order; the
    layout, the page width and the sensors are as they were. *)
Theorem inject_keeps_the_page this s :
  well_formed s → flat_list this s →
  ∃ s' clones rest,
    inject this s = (inr tt, s')
    ∧ mounted this s' = Some (fresh s, clones)
    ∧ (∀ x, x ∈ flat_map preorder (forest s) →
         tagName s' !! x = tagName s !! x
         ∧ idAttr s' !! x = idAttr s !! x
         ∧ classes_of s' x = classes_of s x)
    ∧ descendants s' (container this)
      = descendants s (container this) ++ fresh s :: rest
    ∧ select_all s' (container this) "li" = items this ++ fresh s :: clones
    ∧ (documentElement s' = documentElement s ∧ rectWidth s' = rectWidth s
       ∧ bodyWidth s' = bodyWidth s ∧ sensors s' = sensors s).
Proof.
  intros Hwf Hfl.
  destruct (inject_run this s Hwf (flat_list_cloneable _ _ Hfl))
    as (s' & sB & Cs & Hrun & Hlen & Hinj & Hfu & Hs & Hf).
  exists s', (map root Cs), ([3 + fresh s; 4 + fresh s; 2 + fresh s; S (fresh s)]
                             ++ flat_map preorder Cs).
  split; [done|]. split; [|split; [|split; [|split]]].
  - apply (mounted_after this s sB s' Cs Hwf Hfl Hinj Hlen Hf);
      [apply (sbf_tag _ _ Hs) | apply (sbf_class _ _ Hs)].
  - intros x Hx%(wf_fresh _ Hwf).
    rewrite (sbf_tag _ _ Hs), (sbf_id _ _ Hs), (classes_of_same_but_forest _ _ _ Hs).
    split; [by apply (inj_old_tag _ _ _ Hinj)|].
    split; [by apply (fu_id _ _ _ _ Hfu) | by apply (inj_old_class _ _ _ Hinj)].
  - rewrite (descendants_after _ _ _ _ Hwf (fl_container _ _ Hfl) Hf).
    by rewrite preorder_menu_tree.
  - by apply (li_after this s sB).
  - rewrite (sbf_root _ _ Hs), (sbf_rect _ _ Hs), (sbf_body _ _ Hs), (sbf_sensors _ _ Hs).
    apply (fu_host _ _ _ _ Hfu).
Qed.

(** On a pristine page each clone is an [li] with the id and the classes
    of its item and, added, the class [hide]: after [inject] every clone
    is hidden, the menu is shown, and an item that has an id shares it
    with its clone. *)
Theorem inject_clones_mirror_items this s :
  well_formed s → pristine s → flat_list this s →
  ∃ s' clones,
    inject this s = (inr tt, s')
    ∧ mounted this s' = Some (fresh s, clones)
    ∧ visible s' (fresh s) = true
    ∧ ∀ i item clone,
        items this !! i = Some item → clones !! i = Some clone →
        tagName s' !! clone = Some "li"
        ∧ idAttr s' !! clone = idAttr s !! item
        ∧ classes_of s' clone = token_add "hide" (classes_of s item)
        ∧ hidden s' clone = true.
Proof.
  intros Hwf Hp Hfl.
  destruct (inject_run this s Hwf (flat_list_cloneable _ _ Hfl))
    as (s' & sB & Cs & Hrun & Hlen & Hinj & Hfu & Hs & Hf).
  destruct (fu_exact _ _ _ _ Hfu Hp) as (_ & C0 & _ & _ & _ & _ & _ & Hall).
  exists s', (map root Cs). split; [done|]. split; [|split].
  - apply (mounted_after this s sB s' Cs Hwf Hfl Hinj Hlen Hf);
      [apply (sbf_tag _ _ Hs) | apply (sbf_class _ _ Hs)].
  - unfold visible, hidden, contains.
    rewrite (classes_of_same_but_forest _ _ _ Hs), C0. reflexivity.
  - intros i item clone Hi Hclone.
    apply list_lookup_fmap_Some in Hclone as (c & -> & Hc).
    apply Forall2_same_length_lookup in Hall as [_ Hall].
    destruct (Hall i item c Hi Hc) as [Hid Hcl].
    rewrite (sbf_tag _ _ Hs), (sbf_id _ _ Hs).
    assert (Hclass : classes_of s' (root c) = token_add "hide" (classes_of s item))
      by (by rewrite (classes_of_same_but_forest _ _ _ Hs)).
    split; [|split; [done|split; [done|]]].
    + assert (Hin : root c ∈ filter (λ d, matches sB "li" d = true) (flat_map preorder Cs)).
      { rewrite (inj_li _ _ _ Hinj). apply list_elem_of_fmap. exists c.
        split; [done | by eapply list_elem_of_lookup_2]. }
      apply list_elem_of_filter in Hin as [Hin _].
      rewrite matches_li in Hin. by apply bool_decide_eq_true in Hin.
    + unfold hidden, contains. rewrite Hclass. apply bool_decide_eq_true.
      apply token_add_elem. by left.
Qed.

End Injecting.

(** ** From [render] on *)

Section Rendering.
Context {num : Type} `{JSNumber num}.
Implicit Types (this : Collapsible num) (s st : state num).
Local Open Scope js_scope.

Lemma parent_in_unfold n id ks :
  parent_in n (El id ks)
  = if bool_decide (n ∈ map root ks) then Some id else first_some (parent_in n) ks.
Proof.
  simpl. destruct (bool_decide (n ∈ map root ks)); [done|].
  induction ks as [|k ks IH]; simpl; [done|]. by rewrite IH.
Qed.

Lemma parent_in_notin n t : n ∉ preorder t → parent_in n t = None.
Proof.
  induction t as [id ks IH] using dom_rect'. intros Hn.
  rewrite parent_in_unfold. simpl in Hn. rewrite not_elem_of_cons in Hn.
  destruct Hn as [_ Hks]. rewrite Forall_forall in IH.
  rewrite bool_decide_eq_false_2.
  - apply first_some_None. intros k Hk. apply IH; [done|].
    intros Hin. apply Hks, elem_of_flat_map_preorder. eauto.
  - intros (k & -> & Hk)%list_elem_of_fmap. apply Hks, elem_of_flat_map_preorder.
    exists k. split; [done | apply root_in_preorder].
Qed.

Lemma root_graft p c t : root (graft p c t) = root t.
Proof. by destruct t. Qed.

(** Grafting a subtree does not change the parent of an element that is
    not in the subtree. *)
Lemma parent_in_graft n p M t :
  n ∉ preorder M → parent_in n (graft p M t) = parent_in n t.
Proof.
  intros Hn. induction t as [id ks IH] using dom_rect'.
  rewrite graft_unfold, !parent_in_unfold.
  assert (Hfirst : first_some (parent_in n) (map (graft p M) ks)
                   = first_some (parent_in n) ks).
  { induction ks as [|k ks IHks]; simpl; [done|].
    apply Forall_cons in IH as [Hk IH]. rewrite Hk. by rewrite (IHks IH). }
  assert (Hroots : map root (map (graft p M) ks) = map root ks).
  { clear. induction ks as [|k ks IHks]; simpl; [done|]. by rewrite root_graft, IHks. }
  assert (HM : n ≠ root M) by (intros ->; apply Hn, root_in_preorder).
  destruct (decide (id = p)) as [->|Hne].
  - rewrite map_app, Hroots, first_some_app, Hfirst. simpl.
    rewrite (parent_in_notin n M Hn).
    rewrite (bool_decide_ext (n ∈ map root ks ++ [root M]) (n ∈ map root ks)).
    + by destruct (first_some (parent_in n) ks).
    + rewrite elem_of_app, list_elem_of_singleton. tauto.
  - by rewrite Hroots, Hfirst.
Qed.

Lemma parent_of_first_some s n : parent_of s n = first_some (parent_in n) (forest s).
Proof. apply list_find_first_some. Qed.

Lemma parent_of_after s s' n c M :
  n ∉ preorder M → forest s' = map (graft c M) (forest s) →
  parent_of s' n = parent_of s n.
Proof.
  intros Hn Hf. rewrite !parent_of_first_some, Hf. clear Hf.
  induction (forest s) as [|t G IH]; simpl; [done|].
  rewrite parent_in_graft by done. by rewrite IH.
Qed.

(** [render] on a page whose list is flat and carries no menu yet: the
    call returns, the menu is in place, the items from the first that
    does not fit on are hidden and their clones shown, the menu is hidden
    exactly when nothing is collapsed, and the one sensor made observes
    the element that was the parent of the container before the call. *)
Theorem render_flat_page this s :
  well_formed s → flat_list this s →
  ∃ s' clones (k : Z),
    render this s = (inr tt, s')
    ∧ getAmountOfItemsToCollapse this s = (inr k, s)
    ∧ mounted this s' = Some (fresh s, clones)
    ∧ (hidden s' (fresh s) = true ↔ k = 0%Z)
    ∧ (∀ i item clone,
         items this !! i = Some item → clones !! i = Some clone →
         hidden s' item = bool_decide (Z.of_nat (length (items this)) - k ≤ Z.of_nat i)%Z
         ∧ visible s' clone = hidden s' item)
    ∧ sensors s' = sensors s ++ [(parent_of s (container this), this)].
Proof.
  intros Hwf Hfl.
  destruct (inject_run this s Hwf (flat_list_cloneable _ _ Hfl))
    as (s1 & sB & Cs & Hrun & Hlen & Hinj & Hfu & Hs & Hf).
  assert (Hm : mounted this s1 = Some (fresh s, map root Cs)).
  { apply (mounted_after this s sB s1 Cs Hwf Hfl Hinj Hlen Hf);
      [apply (sbf_tag _ _ Hs) | apply (sbf_class _ _ Hs)]. }
  destruct (fu_host _ _ _ _ Hfu) as (_ & _ & Hbody & Hsensors).
  rewrite <- (sbf_body _ _ Hs) in Hbody. rewrite <- (sbf_sensors _ _ Hs) in Hsensors.
  destruct (collapse_spec _ _ _ _ Hm) as (s2 & Hcol & Hsame & Hmenu & Hitems & Hclones).
  rewrite Hbody in Hmenu, Hitems, Hclones.
  pose proof (scan_bounds (bodyWidth s) (threshold this) (itemsDimensions this)
                (items this) 0 0 num_zero) as Hb.
  set (fit := scan (bodyWidth s) (threshold this) (itemsDimensions this)
                (items this) 0 0 num_zero) in *.
  assert (Hparent : parent_of s2 (container this) = parent_of s (container this)).
  { transitivity (parent_of s1 (container this)).
    - unfold parent_of. by rewrite (sbh_forest _ _ Hsame).
    - eapply parent_of_after; [|exact Hf]. rewrite preorder_menu_tree.
      intros Hin. pose proof (wf_fresh _ Hwf _ (fl_container _ _ Hfl)) as Hc.
      apply elem_of_app in Hin as [Hin|Hin%(inj_ids _ _ _ Hinj)]; [|lia].
      assert (Hall : Forall (λ y, fresh s ≤ y)
                       [fresh s; 3 + fresh s; 4 + fresh s; 2 + fresh s; S (fresh s)])
        by (repeat constructor; lia).
      rewrite Forall_forall in Hall. apply Hall in Hin. lia. }
  set (s3 := (new_ResizeSensor (parent_of s2 (container this)) this s2).2).
  assert (Hhid : ∀ x, hidden s3 x = hidden s2 x) by done.
  exists s3, (map root Cs), (Z.of_nat (length (items this)) - Z.of_nat fit)%Z.
  split; [|split; [|split; [|split; [|split]]]].
  - unfold render. erewrite bind_run by exact Hrun.
    erewrite bind_run by exact Hcol. erewrite bind_run by reflexivity. reflexivity.
  - apply getAmountOfItemsToCollapse_run.
  - change (mounted this s2 = Some (fresh s, map root Cs)).
    by rewrite (mounted_same_but_hide _ _ _ Hsame).
  - rewrite Hhid, Hmenu, bool_decide_eq_true. lia.
  - intros i item clone Hi Hc. unfold visible.
    rewrite !Hhid, (Hitems _ _ Hi), (Hclones _ _ Hc), negb_involutive. split; [|done].
    apply bool_decide_ext. lia.
  - unfold s3. simpl. by rewrite (sbh_sensors _ _ Hsame), Hsensors, Hparent.
Qed.

End Rendering.

(** ** The toggle button *)

Section Clicking.
Context {num : Type} `{JSNumber num}.
Implicit Types (this : Collapsible num) (s st : state num).
Local Open Scope js_scope.

Lemma token_toggle_elem c x cl :
  x ∈ token_toggle c cl ↔ if decide (x = c) then c ∉ cl else x ∈ cl.
Proof.
  unfold token_toggle. case_bool_decide as Hc.
  - rewrite token_remove_elem. destruct (decide (x = c)) as [->|]; tauto.
  - rewrite elem_of_app, list_elem_of_singleton.
    destruct (decide (x = c)) as [->|]; tauto.
Qed.

Lemma click_from_app (target : node) (l1 l2 : list (node * string * listener)) st :
  click_from target (l1 ++ l2) st
  = (click_from target l1 ;; click_from target l2) st.
Proof.
  revert st. induction l1 as [|[[n type] [dropdown]] l1 IH]; intros st; simpl; [done|].
  unfold bind at 1 3. destruct (bool_decide _); simpl; apply IH.
Qed.

Lemma click_from_elsewhere (target : node) (l : list (node * string * listener)) st :
  (∀ n type f, (n, type, f) ∈ l → n ≠ target) →
  click_from target l st = (inr tt, st).
Proof.
  induction l as [|[[n type] [dropdown]] l IH]; intros Hl; simpl; [done|].
  rewrite bool_decide_eq_false_2.
  - unfold bind. simpl. apply IH. intros n' type' f' Hin. eapply Hl. by right.
  - intros [-> _]. by eapply Hl; [left|].
Qed.

(** What the listener of [inject] does when the button is clicked. *)
Lemma click_toggle (button dropdown : node) (l : list (node * string * listener)) st :
  (∀ n type f, (n, type, f) ∈ l → n ≠ button) →
  listeners st = l ++ [(button, "click", ToggleOpen dropdown)] →
  click button st
  = (inr tt, set_classes dropdown (token_toggle "open" (classes_of st dropdown)) st).
Proof.
  intros Hl Hst. unfold click. erewrite bind_run by reflexivity. cbv beta.
  rewrite Hst, click_from_app. erewrite bind_run by (by apply click_from_elsewhere).
  simpl. rewrite bool_decide_eq_true_2 by done. reflexivity.
Qed.

Lemma contains_toggle (d n : node) (c : string) st :
  contains (set_classes d (token_toggle "open" (classes_of st d)) st) n c
  = if decide (n = d ∧ c = "open") then negb (contains st n c) else contains st n c.
Proof.
  unfold contains. rewrite classes_of_set.
  destruct (decide (n = d)) as [->|Hn]; [|by rewrite decide_False by tauto].
  destruct (decide (c = "open")) as [->|Hc].
  - rewrite decide_True by done. apply eq_true_iff_eq.
    rewrite negb_true_iff, bool_decide_eq_true, bool_decide_eq_false,
      token_toggle_elem, decide_True by done. done.
  - rewrite decide_False by tauto. apply bool_decide_ext.
    by rewrite token_toggle_elem, decide_False.
Qed.

(** The button that the dropdown holds. *)
Lemma toggle_after this s sB s' (Cs : list dom) :
  well_formed s → pristine s → flat_list this s →
  furnished s sB (items this) Cs → same_but_forest sB s' →
  forest s' = map (graft (container this) (menu_tree (fresh s) Cs)) (forest s) →
  head (select_all s' (3 + fresh s) ".collapsible-toggle") = Some (4 + fresh s).
Proof.
  intros Hwf Hp Hfl Hfu Hs Hforest.
  destruct (fu_exact _ _ _ _ Hfu Hp) as (_ & _ & _ & _ & _ & C4 & _).
  assert (Hnew : ∀ x, fresh s ≤ x → x ∉ flat_map preorder (forest s)).
  { intros x Hx Hin%(wf_fresh _ Hwf). lia. }
  unfold select_all, descendants.
  rewrite subtree_of_first_some, Hforest.
  rewrite first_some_graft_new by (auto using wf_unique, fl_container with lia).
  unfold menu_tree. rewrite subtree_unfold, decide_False by lia.
  rewrite first_some_cons, subtree_at_root. simpl.
  rewrite filter_cons_True; [done|].
  apply bool_decide_eq_true. rewrite (classes_of_same_but_forest _ _ _ Hs).
  change (S (S (S (S (fresh s))))) with (4 + fresh s). rewrite C4.
  right. right. by left.
Qed.

(** After [inject] on a pristine page whose listeners are on elements of
    the page, the dropdown is closed, and a click on the button that it
    holds does [dropdown.classList.toggle('open')] and nothing else: the
    class [open] on the dropdown is flipped, no element changes as to
    [hide], and a second click brings every class list back to what it
    held. *)
Theorem toggle_click_flips_open this s :
  well_formed s → pristine s → flat_list this s →
  (∀ n type f, (n, type, f) ∈ listeners s → n < fresh s) →
  ∃ s' (dropdown button : node),
    inject this s = (inr tt, s')
    ∧ head (select_all s' (fresh s) ".collapsible-dropdown") = Some dropdown
    ∧ head (select_all s' dropdown ".collapsible-toggle") = Some button
    ∧ contains s' dropdown "open" = false
    ∧ ∀ st, listeners st = listeners s' →
        ∃ st' st'',
          click button st = (inr tt, st')
          ∧ st' = set_classes dropdown (token_toggle "open" (classes_of st dropdown)) st
          ∧ contains st' dropdown "open" = negb (contains st dropdown "open")
          ∧ (∀ n, hidden st' n = hidden st n)
          ∧ click button st' = (inr tt, st'')
          ∧ ∀ n c, contains st'' n c = contains st n c.
Proof.
  intros Hwf Hp Hfl Hold.
  destruct (inject_run this s Hwf (flat_list_cloneable _ _ Hfl))
    as (s' & sB & Cs & Hrun & Hlen & Hinj & Hfu & Hs & Hf).
  destruct (fu_exact _ _ _ _ Hfu Hp) as (_ & _ & _ & _ & C3 & _).
  exists s', (3 + fresh s), (4 + fresh s).
  split; [done|]. split; [by eapply dropdown_after|].
  split; [by eapply toggle_after|]. split.
  { unfold contains. rewrite (classes_of_same_but_forest _ _ _ Hs), C3.
    reflexivity. }
  intros st Hst.
  rewrite (sbf_listeners _ _ Hs), (fu_listeners _ _ _ _ Hfu) in Hst.
  assert (Hl : ∀ n type f, (n, type, f) ∈ listeners s → n ≠ 4 + fresh s).
  { intros n type f Hin%Hold. lia. }
  set (st' := set_classes (3 + fresh s)
                (token_toggle "open" (classes_of st (3 + fresh s))) st).
  set (st'' := set_classes (3 + fresh s)
                 (token_toggle "open" (classes_of st' (3 + fresh s))) st').
  exists st', st''.
  split; [by apply (click_toggle _ _ (listeners s))|]. split; [done|].
  split; [unfold st'; by rewrite contains_toggle, decide_True|].
  split.
  { intros n. unfold hidden, st'. rewrite contains_toggle, decide_False; [done|].
    by intros [_ ?]. }
  split; [by apply (click_toggle _ _ (listeners s))|].
  intros n c. unfold st'', st'. rewrite !contains_toggle.
  destruct (decide _); [apply negb_involutive | done].
Qed.

End Clicking.

(** ** [inject], twice *)

Section Regrafting.

(** A subtree found among the children of [c] does not hold [c]. *)
Lemma first_some_below (c x : node) (G ks : list dom) (T : dom) :
  Forall (λ t, ∀ ks T, NoDup (preorder t) → subtree c t = Some (El c ks) →
                       x ∈ flat_map preorder ks → subtree x t = Some T →
                       c ∉ preorder T) G →
  NoDup (flat_map preorder G) →
  first_some (subtree c) G = Some (El c ks) →
  x ∈ flat_map preorder ks →
  first_some (subtree x) G = Some T →
  c ∉ preorder T.
Proof.
  intros Hall Hnd Hc Hx HT.
  apply first_some_Some in Hc as (G1 & k & G2 & -> & Hnone & Hk).
  rewrite flat_map_app in Hnd. simpl in Hnd.
  apply NoDup_app in Hnd as (_ & Hdisj & Hnd).
  apply NoDup_app in Hnd as (Hndk & _ & _).
  assert (Hxk : x ∈ preorder k).
  { eapply elem_of_sublist; [|by eapply subtree_sublist]. simpl. by right. }
  rewrite first_some_app in HT.
  rewrite first_some_subtree_notin in HT.
  - simpl in HT. destruct (subtree_in x k Hxk) as [T' HT']. rewrite HT' in HT.
    injection HT as <-.
    rewrite Forall_forall in Hall. eapply (Hall k); [apply elem_of_app; right; by left|done..].
  - intros Hin. apply (Hdisj x Hin). apply elem_of_app. by left.
Qed.

Lemma subtree_below (c x : node) (t : dom) :
  ∀ ks T, NoDup (preorder t) → subtree c t = Some (El c ks) →
          x ∈ flat_map preorder ks → subtree x t = Some T →
          c ∉ preorder T.
Proof.
  induction t as [id ks0 IH] using dom_rect'. intros ks T Hnd Hc Hx HT.
  simpl in Hnd. apply NoDup_cons in Hnd as [Hid Hnd].
  rewrite subtree_unfold in Hc, HT.
  destruct (decide (id = c)) as [->|Hne].
  - injection Hc as ->.
    rewrite decide_False in HT by (intros ->; done).
    destruct (first_some_subtree_Some _ _ _ HT) as [_ Hsub].
    intros Hin. by apply Hid, Hsub.
  - assert (Hxin : x ∈ flat_map preorder ks0).
    { destruct (first_some_subtree_Some _ _ _ Hc) as [_ Hsub]. apply Hsub. simpl. by right. }
    rewrite decide_False in HT by (intros ->; done).
    by eapply first_some_below.
Qed.

Lemma forest_below (c x : node) (G ks : list dom) (T : dom) :
  NoDup (flat_map preorder G) →
  first_some (subtree c) G = Some (El c ks) →
  x ∈ flat_map preorder ks →
  first_some (subtree x) G = Some T →
  c ∉ preorder T.
Proof.
  apply first_some_below, Forall_forall. intros t _. apply subtree_below.
Qed.

(** The subtree at [x] after a graft is the subtree at [x], grafted. *)
Lemma subtree_graft (x c : node) (M t : dom) :
  x ∉ preorder M → subtree x (graft c M t) = graft c M <$> subtree x t.
Proof.
  intros Hx. induction t as [id ks IH] using dom_rect'.
  rewrite graft_unfold, !subtree_unfold.
  destruct (decide (id = x)) as [->|Hne]; [by rewrite <- graft_unfold|].
  assert (Hfirst : first_some (subtree x) (map (graft c M) ks)
                   = graft c M <$> first_some (subtree x) ks).
  { induction ks as [|k ks IHks]; simpl; [done|].
    apply Forall_cons in IH as [Hk IH]. rewrite Hk.
    destruct (subtree x k); simpl; [done|]. by apply IHks. }
  destruct (decide (id = c)) as [->|Hc]; [|done].
  rewrite first_some_app, Hfirst. simpl. rewrite (subtree_notin x M Hx).
  by destruct (first_some (subtree x) ks).
Qed.

Lemma first_some_subtree_graft (x c : node) (M : dom) (G : list dom) :
  x ∉ preorder M →
  first_some (subtree x) (map (graft c M) G) = graft c M <$> first_some (subtree x) G.
Proof.
  intros Hx. induction G as [|t G IH]; simpl; [done|].
  rewrite subtree_graft by done. destruct (subtree x t); simpl; [done|]. apply IH.
Qed.

(** The elements after a graft: those there were and those grafted. *)
Lemma preorder_graft_forest (c : node) (M : dom) (G : list dom) :
  Forall (λ t, NoDup (preorder t) →
               preorder (graft c M t)
               ≡ₚ preorder t ++ (if decide (c ∈ preorder t) then preorder M else [])) G →
  NoDup (flat_map preorder G) →
  flat_map preorder (map (graft c M) G)
  ≡ₚ flat_map preorder G
     ++ (if decide (c ∈ flat_map preorder G) then preorder M else []).
Proof.
  induction G as [|t G IH]; intros Hall Hnd; simpl.
  { by try rewrite decide_False by apply not_elem_of_nil. }
  apply Forall_cons in Hall as [Ht Hall].
  simpl in Hnd. apply NoDup_app in Hnd as (Hndt & Hdisj & HndG).
  rewrite (Ht Hndt), (IH Hall HndG).
  destruct (decide (c ∈ preorder t)) as [Hct|Hct].
  - rewrite (decide_False (P := c ∈ flat_map preorder G)) by (by apply Hdisj).
    rewrite decide_True by (apply elem_of_app; by left).
    rewrite app_nil_r, <- !app_assoc. f_equiv. apply Permutation_app_comm.
  - rewrite app_nil_r, <- app_assoc.
    destruct (decide (c ∈ flat_map preorder G)) as [HcG|HcG].
    + by rewrite decide_True by (apply elem_of_app; by right).
    + by rewrite decide_False by (rewrite elem_of_app; tauto).
Qed.

Lemma preorder_graft (c : node) (M t : dom) :
  NoDup (preorder t) →
  preorder (graft c M t)
  ≡ₚ preorder t ++ (if decide (c ∈ preorder t) then preorder M else []).
Proof.
  induction t as [id ks IH] using dom_rect'. intros Hnd.
  simpl in Hnd. apply NoDup_cons in Hnd as [Hid Hnd].
  rewrite graft_unfold.
  destruct (decide (id = c)) as [->|Hne].
  - rewrite map_graft_notin by done. simpl.
    rewrite decide_True by (by left).
    by rewrite flat_map_app; simpl; rewrite app_nil_r.
  - simpl. rewrite (preorder_graft_forest c M ks IH Hnd).
    destruct (decide (c ∈ flat_map preorder ks)) as [Hin|Hin].
    + by rewrite decide_True by (by right).
    + rewrite decide_False; [done|]. rewrite not_elem_of_cons. split; [congruence|done].
Qed.

End Regrafting.

Section Again.
Context {num : Type} `{JSNumber num}.
Implicit Types (this : Collapsible num) (s st : state num).

Lemma NoDup_menu_tree (f : node) (Cs : list dom) :
  NoDup (flat_map preorder Cs) →
  (∀ y, y ∈ flat_map preorder Cs → 5 + f ≤ y) →
  NoDup (preorder (menu_tree f Cs)).
Proof.
  intros Hnd Hids. rewrite preorder_menu_tree. apply NoDup_app. split; [|split; [|done]].
  - apply (NoDup_fmap_1 (λ k, k - f)). simpl.
    replace (f - f) with 0 by lia. replace (S (S (S f)) - f) with 3 by lia.
    replace (S (S (S (S f))) - f) with 4 by lia. replace (S (S f) - f) with 2 by lia.
    replace (S f - f) with 1 by lia.
    apply (bool_decide_unpack _). by vm_compute.
  - intros y Hy Hy'%Hids.
    assert (Hall : Forall (λ y, y < 5 + f) [f; 3 + f; 4 + f; 2 + f; S f])
      by (repeat constructor; lia).
    rewrite Forall_forall in Hall. apply Hall in Hy. lia.
Qed.

Lemma elem_of_menu_tree (f : node) (Cs : list dom) (y : node) :
  y ∈ preorder (menu_tree f Cs) → f ≤ y < 5 + f ∨ y ∈ flat_map preorder Cs.
Proof.
  rewrite preorder_menu_tree. intros [Hy|Hy]%elem_of_app; [left | by right].
  assert (Hall : Forall (λ y, f ≤ y < 5 + f) [f; 3 + f; 4 + f; 2 + f; S f])
    by (repeat constructor; lia).
  rewrite Forall_forall in Hall. by apply Hall.
Qed.

(** The elements of the page after [inject]. *)
Lemma elements_after s s' (c : node) (M : dom) :
  well_formed s → c ∈ flat_map preorder (forest s) →
  forest s' = map (graft c M) (forest s) →
  flat_map preorder (forest s') ≡ₚ flat_map preorder (forest s) ++ preorder M.
Proof.
  intros Hwf Hc ->.
  rewrite preorder_graft_forest.
  - by rewrite decide_True.
  - apply Forall_forall. intros t _. apply preorder_graft.
  - apply (wf_unique _ Hwf).
Qed.

(** [inject] leaves a page that is well formed again. *)
Lemma well_formed_after s sB s' (c : node) (its : list node) (Cs : list dom) :
  well_formed s → c ∈ flat_map preorder (forest s) →
  injecting s sB Cs → furnished s sB its Cs → same_but_forest sB s' →
  forest s' = map (graft c (menu_tree (fresh s) Cs)) (forest s) →
  well_formed s'.
Proof.
  intros Hwf Hc Hinj Hfu Hs Hf.
  pose proof (elements_after _ _ _ _ Hwf Hc Hf) as Hperm.
  pose proof (inj_fresh _ _ _ Hinj) as Hfresh.
  assert (Hnew : ∀ y, y ∈ preorder (menu_tree (fresh s) Cs) → fresh s ≤ y < fresh sB).
  { intros y [Hy|Hy%(inj_ids _ _ _ Hinj)]%elem_of_menu_tree; lia. }
  split.
  - rewrite Hperm. apply NoDup_app. split; [apply (wf_unique _ Hwf)|]. split.
    + intros y Hy%(wf_fresh _ Hwf) Hy'%Hnew. lia.
    + apply NoDup_menu_tree; [apply (fu_unique _ _ _ _ Hfu)|].
      intros y Hy%(inj_ids _ _ _ Hinj). lia.
  - intros n. rewrite Hperm, (sbf_fresh _ _ Hs), elem_of_app.
    intros [Hn%(wf_fresh _ Hwf)|Hn%Hnew]; lia.
  - intros n Hn. rewrite (sbf_fresh _ _ Hs) in Hn. rewrite (sbf_tag _ _ Hs).
    by apply (inj_beyond _ _ _ Hinj).
Qed.

(** What sits outside the grafted subtree and does not hold the place of
    the graft has the descendants it had. *)
Lemma descendants_outside s s' (n c : node) (M T : dom) :
  first_some (subtree n) (forest s) = Some T →
  c ∉ preorder T → n ∉ preorder M →
  forest s' = map (graft c M) (forest s) →
  descendants s' n = descendants s n.
Proof.
  intros HT Hc Hn Hf. unfold descendants.
  rewrite !subtree_of_first_some, Hf, first_some_subtree_graft, HT by done. simpl.
  by rewrite graft_notin.
Qed.

Lemma matches_same_attributes st st' (selector : string) (d : node) :
  tagName st' !! d = tagName st !! d → idAttr st' !! d = idAttr st !! d →
  classes_of st' d = classes_of st d →
  matches st' selector d = matches st selector d.
Proof.
  intros Htag Hid Hcl. unfold matches. rewrite Htag, Hid, Hcl. done.
Qed.

Lemma mounted_intro this s (menu dropdown : node) (clones : list node) :
  head (select_all s (container this) ".collapsible-menu") = Some menu →
  head (select_all s menu ".collapsible-dropdown") = Some dropdown →
  select_all s dropdown "li" = clones →
  length clones = length (items this) →
  NoDup (menu :: items this ++ clones) →
  mounted this s = Some (menu, clones).
Proof.
  intros Hmenu Hdrop Hclones Hlen Hnd. unfold mounted.
  rewrite Hmenu. simpl. rewrite Hdrop. simpl. rewrite Hclones.
  by rewrite bool_decide_eq_true_2.
Qed.

(** The items can be cloned again after [inject]. *)
Lemma cloneable_after this s sB s' (Cs : list dom) :
  well_formed s → flat_list this s →
  injecting s sB Cs → same_but_forest sB s' →
  forest s' = map (graft (container this) (menu_tree (fresh s) Cs)) (forest s) →
  cloneable this s'.
Proof.
  intros Hwf Hfl Hinj Hs Hf x Hx.
  destruct (flat_list_cloneable _ _ Hfl x Hx) as (Hin & Hli & Hflat).
  pose proof (wf_fresh _ Hwf _ Hin) as Hold.
  assert (Hnew : ∀ y, y ∈ preorder (menu_tree (fresh s) Cs) → fresh s ≤ y).
  { intros y [Hy|Hy%(inj_ids _ _ _ Hinj)]%elem_of_menu_tree; lia. }
  split; [|split].
  - rewrite (elements_after _ _ _ _ Hwf (fl_container _ _ Hfl) Hf).
    apply elem_of_app. by left.
  - by rewrite (sbf_tag _ _ Hs), (inj_old_tag _ _ _ Hinj).
  - destruct (first_some_subtree_in _ _ (fl_container _ _ Hfl)) as [Tc HTc].
    destruct (first_some_subtree_Some _ _ _ HTc) as [Hroot _].
    destruct Tc as [c ks]. simpl in Hroot. subst c.
    destruct (first_some_subtree_in _ _ Hin) as [T HT].
    assert (Hbelow : x ∈ flat_map preorder ks).
    { rewrite (fl_items _ _ Hfl) in Hx. apply list_elem_of_filter in Hx as [_ Hx].
      unfold descendants in Hx. by rewrite subtree_of_first_some, HTc in Hx. }
    unfold select_all.
    rewrite (descendants_outside s s' x (container this)
               (menu_tree (fresh s) Cs) T HT);
      [| by eapply forest_below; [apply (wf_unique _ Hwf)|..]
       | intros Hy%Hnew; lia | done].
    rewrite <- Hflat. apply filter_ext_in. intros d Hd%(descendants_old _ _ _ Hwf).
    cbv beta. by rewrite !matches_li, (sbf_tag _ _ Hs), (inj_old_tag _ _ _ Hinj).
Qed.

(** What hangs under a new element keeps its descendants when the page
    gets a further graft at the container. *)
Lemma select_all_new s s1 s2 sB2 (c n : node) (M1 M2 : dom) (its : list node)
    (Cs2 : list dom) (selector : string) :
  well_formed s → c ∈ flat_map preorder (forest s) →
  forest s1 = map (graft c M1) (forest s) →
  (∀ y, y ∈ preorder M1 → fresh s ≤ y < fresh s1) →
  well_formed s1 →
  injecting s1 sB2 Cs2 → furnished s1 sB2 its Cs2 → same_but_forest sB2 s2 →
  forest s2 = map (graft c M2) (forest s1) →
  (∀ y, y ∈ preorder M2 → fresh s1 ≤ y) →
  n ∈ preorder M1 →
  select_all s2 n selector = select_all s1 n selector.
Proof.
  intros Hwf Hc Hf1 HM1 Hwf1 Hinj2 Hfu2 Hs2 Hf2 HM2 Hn.
  assert (Hnew : n ∉ flat_map preorder (forest s)).
  { intros Hin%(wf_fresh _ Hwf). apply HM1 in Hn. lia. }
  destruct (subtree_in n M1 Hn) as [T HT].
  assert (HT1 : first_some (subtree n) (forest s1) = Some T).
  { rewrite Hf1, first_some_graft_new by (auto using wf_unique). done. }
  assert (Hc_old : c ∉ preorder T).
  { intros Hin. apply (wf_fresh _ Hwf) in Hc.
    assert (c ∈ preorder M1) as Hc'%HM1 by (eapply elem_of_sublist; [done|];
      by eapply subtree_sublist). lia. }
  unfold select_all.
  rewrite (descendants_outside s1 s2 n c M2 T HT1 Hc_old); [| |done].
  - apply filter_ext_in. intros d Hd%(descendants_old _ _ _ Hwf1). cbv beta.
    rewrite (matches_same_attributes s1 s2); [done|..].
    + by rewrite (sbf_tag _ _ Hs2), (inj_old_tag _ _ _ Hinj2).
    + by rewrite (sbf_id _ _ Hs2), (fu_id _ _ _ _ Hfu2).
    + by rewrite (classes_of_same_but_forest _ _ _ Hs2), (inj_old_class _ _ _ Hinj2).
  - intros Hin%HM2. apply HM1 in Hn. lia.
Qed.

(** [inject] run twice in a row: the second call adds a second menu
    under the container.  [collapse] goes on
    with the first menu and its clones, and never hides the second menu,
    which is shown also when nothing is collapsed. *)
Theorem second_inject_adds_a_menu this s :
  well_formed s → pristine s → flat_list this s →
  ∃ s1 s2 s3 clones,
    inject this s = (inr tt, s1)
    ∧ inject this s1 = (inr tt, s2)
    ∧ mounted this s1 = Some (fresh s, clones)
    ∧ mounted this s2 = Some (fresh s, clones)
    ∧ fresh s < fresh s1
    ∧ fresh s1 ∈ select_all s2 (container this) ".collapsible-menu"
    ∧ collapse this s2 = (inr tt, s3)
    ∧ visible s3 (fresh s1) = true.
Proof.
  intros Hwf Hp Hfl.
  pose proof (fl_container _ _ Hfl) as Hc.
  destruct (inject_run this s Hwf (flat_list_cloneable _ _ Hfl))
    as (s1 & sB & Cs & Hrun1 & Hlen & Hinj & Hfu & Hs & Hf).
  assert (Hm1 : mounted this s1 = Some (fresh s, map root Cs)).
  { apply (mounted_after this s sB s1 Cs Hwf Hfl Hinj Hlen Hf);
      [apply (sbf_tag _ _ Hs) | apply (sbf_class _ _ Hs)]. }
  assert (Hwf1 : well_formed s1) by (by eapply well_formed_after).
  assert (Hp1 : pristine s1).
  { apply (pristine_same_but_forest _ _ Hs). by apply (fu_exact _ _ _ _ Hfu Hp). }
  assert (Hfresh1 : 5 + fresh s ≤ fresh s1).
  { rewrite (sbf_fresh _ _ Hs). apply (inj_fresh _ _ _ Hinj). }
  assert (HM1 : ∀ y, y ∈ preorder (menu_tree (fresh s) Cs) → fresh s ≤ y < fresh s1).
  { rewrite (sbf_fresh _ _ Hs).
    intros y [Hy|Hy%(inj_ids _ _ _ Hinj)]%elem_of_menu_tree;
      pose proof (inj_fresh _ _ _ Hinj); lia. }
  assert (Hc1 : container this ∈ flat_map preorder (forest s1)).
  { rewrite (elements_after _ _ _ _ Hwf Hc Hf). apply elem_of_app. by left. }
  destruct (inject_run this s1 Hwf1 (cloneable_after _ _ _ _ _ Hwf Hfl Hinj Hs Hf))
    as (s2 & sB2 & Cs2 & Hrun2 & Hlen2 & Hinj2 & Hfu2 & Hs2 & Hf2).
  assert (HM2 : ∀ y, y ∈ preorder (menu_tree (fresh s1) Cs2) → fresh s1 ≤ y).
  { intros y [Hy|Hy%(inj_ids _ _ _ Hinj2)]%elem_of_menu_tree; lia. }
  destruct (mounted_inv _ _ _ _ Hm1) as (dropdown & Hmenu1 & Hdrop1 & Hclones1 & _ & Hnd).
  assert (Hdropdown : dropdown = 3 + fresh s).
  { pose proof (dropdown_after this s sB s1 Cs Hwf Hfl Hinj Hs Hf). congruence. }
  assert (Hdesc2 : descendants s2 (container this)
                   = descendants s1 (container this)
                     ++ preorder (menu_tree (fresh s1) Cs2)).
  { by apply descendants_after. }
  assert (Hold2 : ∀ d selector, d < fresh s1 →
                    matches s2 selector d = matches s1 selector d).
  { intros d selector Hd. apply matches_same_attributes.
    - by rewrite (sbf_tag _ _ Hs2), (inj_old_tag _ _ _ Hinj2).
    - by rewrite (sbf_id _ _ Hs2), (fu_id _ _ _ _ Hfu2).
    - by rewrite (classes_of_same_but_forest _ _ _ Hs2), (inj_old_class _ _ _ Hinj2). }
  assert (Hmenus2 : select_all s2 (container this) ".collapsible-menu"
                    = select_all s1 (container this) ".collapsible-menu"
                      ++ filter (λ d, matches s2 ".collapsible-menu" d = true)
                           (preorder (menu_tree (fresh s1) Cs2))).
  { unfold select_all. rewrite Hdesc2, filter_app. f_equal.
    apply filter_ext_in. intros d Hd%(descendants_old _ _ _ Hwf1). cbv beta.
    by rewrite Hold2. }
  assert (Hm2 : mounted this s2 = Some (fresh s, map root Cs)).
  { apply (mounted_intro this s2 _ dropdown); [| | |by rewrite length_map|done].
    - rewrite Hmenus2.
      destruct (select_all s1 (container this) ".collapsible-menu"); [done|].
      exact Hmenu1.
    - rewrite (select_all_new s s1 s2 sB2 (container this) (fresh s)
                 (menu_tree (fresh s) Cs) (menu_tree (fresh s1) Cs2) (items this) Cs2);
        try done.
      apply (root_in_preorder (menu_tree (fresh s) Cs)).
    - rewrite (select_all_new s s1 s2 sB2 (container this) dropdown
                 (menu_tree (fresh s) Cs) (menu_tree (fresh s1) Cs2) (items this) Cs2);
        try done.
      rewrite Hdropdown, preorder_menu_tree. apply elem_of_app. left. right. by left. }
  destruct (collapse_spec _ _ _ _ Hm2) as (s3 & Hcol & _).
  exists s1, s2, s3, (map root Cs).
  do 4 (split; [done|]). split; [lia|]. split; [|split; [done|]].
  - rewrite Hmenus2. apply elem_of_app. right. apply list_elem_of_filter. split.
    + apply bool_decide_eq_true. rewrite (classes_of_same_but_forest _ _ _ Hs2).
      apply (inj_menu_class _ _ _ Hinj2).
    + apply (root_in_preorder (menu_tree (fresh s1) Cs2)).
  - destruct (mounted_inv _ _ _ _ Hm2) as (dropdown2 & Hmenu2 & Hdrop2 & Hclones2 & _).
    pose proof (collapse_with_within (fresh s :: items this ++ map root Cs)
                  this (fresh s) (map root Cs)) as Hframe.
    destruct (Hframe ltac:(by left)
                ltac:(intros x Hx; right; apply elem_of_app; by left)
                ltac:(intros x Hx; right; apply elem_of_app; by right) s2)
      as [_ Helse].
    assert (Hrun3 : collapse_with this (fresh s) (map root Cs) s2 = (inr tt, s3)).
    { by rewrite <- Hclones2, <- (collapse_after_queries _ _ _ _ Hmenu2 Hdrop2). }
    rewrite Hrun3 in Helse. simpl in Helse.
    destruct (fu_exact _ _ _ _ Hfu2 Hp1) as (_ & C0 & _).
    unfold visible, hidden, contains, classes_of. rewrite Helse.
    + fold (classes_of s2 (fresh s1)).
      by rewrite (classes_of_same_but_forest _ _ _ Hs2), C0.
    + rewrite not_elem_of_cons, not_elem_of_app. split; [lia|]. split.
      * intros Hin. apply (flat_list_cloneable _ _ Hfl) in Hin as (Hin%(wf_fresh _ Hwf) & _).
        lia.
      * intros (c & Hc' & Hin)%list_elem_of_fmap.
        assert (Hlt : fresh s1 ∈ flat_map preorder Cs).
        { apply elem_of_flat_map_preorder. exists c. split; [done|].
          rewrite Hc'. apply root_in_preorder. }
        apply (inj_ids _ _ _ Hinj) in Hlt. rewrite (sbf_fresh _ _ Hs) in Hlt. lia.
Qed.

End Again.

(** ** The navbar page, once more *)

(** The navbar page is well formed and pristine, its list is flat, and
    it has no listener yet. *)
Lemma navbar_well_formed (pageWidth : Z) : well_formed (navbar 100%Z pageWidth).
Proof.
  assert (Hids : Forall (λ n, n < 9) [0; 1; 2; 3; 4; 5; 6; 7; 8])
    by (repeat constructor; lia).
  split.
  - apply (bool_decide_unpack _). vm_compute. exact I.
  - intros n Hn. exact (proj1 (Forall_forall _ _) Hids n Hn).
  - intros n Hn. apply not_elem_of_list_to_map_1.
    intros Hin. apply (proj1 (Forall_forall _ _) Hids n) in Hin.
    simpl in Hn. lia.
Qed.

Lemma navbar_pristine (pageWidth : Z) : pristine (navbar 100%Z pageWidth).
Proof. split; intros n Hn; simpl in *; apply lookup_singleton_ne; lia. Qed.

Lemma navbar_flat_list (pageWidth : Z) : flat_list nav100 (navbar 100%Z pageWidth).
Proof.
  split.
  - simpl. repeat constructor.
  - reflexivity.
  - apply Forall_forall. repeat constructor.
  - reflexivity.
Qed.

Lemma navbar_no_listener (pageWidth : Z) :
  ∀ n type (f : listener),
    (n, type, f) ∈ listeners (navbar 100%Z pageWidth) → n < fresh (navbar 100%Z pageWidth).
Proof. intros n type f Hin. by apply not_elem_of_nil in Hin. Qed.

Lemma inject_mounts_on_navbar :
  well_formed (navbar 100%Z 250%Z)
  ∧ flat_list nav100 (navbar 100%Z 250%Z)
  ∧ ∃ s' clones,
      inject nav100 (navbar 100%Z 250%Z) = (inr tt, s')
      ∧ length clones = length (items nav100)
      ∧ mounted nav100 s' = Some (fresh (navbar 100%Z 250%Z), clones).
Proof.
  split; [apply navbar_well_formed|]. split; [apply navbar_flat_list|].
  apply (inject_mounts nav100 (navbar 100%Z 250%Z));
    [apply navbar_well_formed | apply navbar_flat_list].
Defined.

Lemma inject_keeps_the_navbar :
  (well_formed (navbar 100%Z 250%Z) ∧ flat_list nav100 (navbar 100%Z 250%Z))
  ∧ ∃ s' clones rest,
      inject nav100 (navbar 100%Z 250%Z) = (inr tt, s')
      ∧ mounted nav100 s' = Some (fresh (navbar 100%Z 250%Z), clones)
      ∧ (∀ x, x ∈ flat_map preorder (forest (navbar 100%Z 250%Z)) →
           tagName s' !! x = tagName (navbar 100%Z 250%Z) !! x
           ∧ idAttr s' !! x = idAttr (navbar 100%Z 250%Z) !! x
           ∧ classes_of s' x = classes_of (navbar 100%Z 250%Z) x)
      ∧ descendants s' (container nav100)
        = descendants (navbar 100%Z 250%Z) (container nav100)
          ++ fresh (navbar 100%Z 250%Z) :: rest
      ∧ select_all s' (container nav100) "li"
        = items nav100 ++ fresh (navbar 100%Z 250%Z) :: clones
      ∧ (documentElement s' = documentElement (navbar 100%Z 250%Z)
         ∧ rectWidth s' = rectWidth (navbar 100%Z 250%Z)
         ∧ bodyWidth s' = bodyWidth (navbar 100%Z 250%Z)
         ∧ sensors s' = sensors (navbar 100%Z 250%Z)).
Proof.
  split; [split; [apply navbar_well_formed | apply navbar_flat_list]|].
  apply (inject_keeps_the_page nav100 (navbar 100%Z 250%Z));
    [apply navbar_well_formed | apply navbar_flat_list].
Defined.

Lemma inject_clones_mirror_items_on_navbar :
  (well_formed (navbar 100%Z 250%Z) ∧ pristine (navbar 100%Z 250%Z)
   ∧ flat_list nav100 (navbar 100%Z 250%Z))
  ∧ ∃ s' clones,
      inject nav100 (navbar 100%Z 250%Z) = (inr tt, s')
      ∧ mounted nav100 s' = Some (fresh (navbar 100%Z 250%Z), clones)
      ∧ visible s' (fresh (navbar 100%Z 250%Z)) = true
      ∧ ∀ i item clone,
          items nav100 !! i = Some item → clones !! i = Some clone →
          tagName s' !! clone = Some "li"
          ∧ idAttr s' !! clone = idAttr (navbar 100%Z 250%Z) !! item
          ∧ classes_of s' clone
            = token_add "hide" (classes_of (navbar 100%Z 250%Z) item)
          ∧ hidden s' clone = true.
Proof.
  split; [split; [apply navbar_well_formed
                 | split; [apply navbar_pristine | apply navbar_flat_list]]|].
  apply (inject_clones_mirror_items nav100 (navbar 100%Z 250%Z));
    [apply navbar_well_formed | apply navbar_pristine | apply navbar_flat_list].
Defined.

Lemma render_flat_page_on_navbar :
  (well_formed (navbar 100%Z 250%Z) ∧ flat_list nav100 (navbar 100%Z 250%Z))
  ∧ ∃ s' clones (k : Z),
      render nav100 (navbar 100%Z 250%Z) = (inr tt, s')
      ∧ getAmountOfItemsToCollapse nav100 (navbar 100%Z 250%Z)
        = (inr k, navbar 100%Z 250%Z)
      ∧ mounted nav100 s' = Some (fresh (navbar 100%Z 250%Z), clones)
      ∧ (hidden s' (fresh (navbar 100%Z 250%Z)) = true ↔ k = 0%Z)
      ∧ (∀ i item clone,
           items nav100 !! i = Some item → clones !! i = Some clone →
           hidden s' item
           = bool_decide (Z.of_nat (length (items nav100)) - k ≤ Z.of_nat i)%Z
           ∧ visible s' clone = hidden s' item)
      ∧ sensors s'
        = sensors (navbar 100%Z 250%Z)
          ++ [(parent_of (navbar 100%Z 250%Z) (container nav100), nav100)].
Proof.
  split; [split; [apply navbar_well_formed | apply navbar_flat_list]|].
  apply (render_flat_page nav100 (navbar 100%Z 250%Z));
    [apply navbar_well_formed | apply navbar_flat_list].
Defined.

Lemma toggle_click_on_navbar :
  (well_formed (navbar 100%Z 250%Z) ∧ pristine (navbar 100%Z 250%Z)
   ∧ flat_list nav100 (navbar 100%Z 250%Z)
   ∧ ∀ n type (f : listener),
       (n, type, f) ∈ listeners (navbar 100%Z 250%Z) →
       n < fresh (navbar 100%Z 250%Z))
  ∧ ∃ s' (dropdown button : node),
      inject nav100 (navbar 100%Z 250%Z) = (inr tt, s')
      ∧ head (select_all s' (fresh (navbar 100%Z 250%Z)) ".collapsible-dropdown")
        = Some dropdown
      ∧ head (select_all s' dropdown ".collapsible-toggle") = Some button
      ∧ contains s' dropdown "open" = false
      ∧ ∀ st : state Z, listeners st = listeners s' →
          ∃ st' st'',
            click button st = (inr tt, st')
            ∧ st' = set_classes dropdown
                      (token_toggle "open" (classes_of st dropdown)) st
            ∧ contains st' dropdown "open" = negb (contains st dropdown "open")
            ∧ (∀ n, hidden st' n = hidden st n)
            ∧ click button st' = (inr tt, st'')
            ∧ ∀ n c, contains st'' n c = contains st n c.
Proof.
  split; [split; [apply navbar_well_formed
                 | split; [apply navbar_pristine
                          | split; [apply navbar_flat_list | apply navbar_no_listener]]]|].
  apply (toggle_click_flips_open nav100 (navbar 100%Z 250%Z));
    [apply navbar_well_formed | apply navbar_pristine | apply navbar_flat_list
    | apply navbar_no_listener].
Defined.

Lemma second_inject_on_navbar :
  (well_formed (navbar 100%Z 250%Z) ∧ pristine (navbar 100%Z 250%Z)
   ∧ flat_list nav100 (navbar 100%Z 250%Z))
  ∧ ∃ s1 s2 s3 clones,
      inject nav100 (navbar 100%Z 250%Z) = (inr tt, s1)
      ∧ inject nav100 s1 = (inr tt, s2)
      ∧ mounted nav100 s1 = Some (fresh (navbar 100%Z 250%Z), clones)
      ∧ mounted nav100 s2 = Some (fresh (navbar 100%Z 250%Z), clones)
      ∧ fresh (navbar 100%Z 250%Z) < fresh s1
      ∧ fresh s1 ∈ select_all s2 (container nav100) ".collapsible-menu"
      ∧ collapse nav100 s2 = (inr tt, s3)
      ∧ visible s3 (fresh s1) = true.
Proof.
  split; [split; [apply navbar_well_formed
                 | split; [apply navbar_pristine | apply navbar_flat_list]]|].
  apply (second_inject_adds_a_menu nav100 (navbar 100%Z 250%Z));
    [apply navbar_well_formed | apply navbar_pristine | apply navbar_flat_list].
Defined.
